(** * Inductive conformal predictors (nonconformist/icp.py)

    A shallow embedding of [BaseIcp], [IcpClassifier] and [IcpRegressor].

    Conventions of the embedding:
    - a one-dimensional numpy array is a [list]; a two-dimensional array is
      the list of its rows, which all have the row type [X]: the arrays of
      examples of one object have the same number of columns, so that
      [np.vstack] of two of them returns (numpy raises [ValueError] for
      arrays of different widths; such calls are outside the embedding);
    - nonconformity scores, p-values and significance levels are exact
      rationals ([Q]): the rounding and the NaN of the doubles of the code
      are not modelled, so a statement about the value of a p-value is a
      statement about the exact quotients the code rounds; the comparisons
      of scores and the integer counts are exact in the code as well;
      integer counts are [nat] for positions and [Z] where the code
      subtracts them;
    - class labels and category ids are integers ([Z]);
    - a Python exception is a value of [exn]; a method is a function from the
      object to the (possibly mutated) object and either the exception raised
      or the value returned;
    - a dictionary is a [gmap] together with a flag telling whether it is a
      [defaultdict];
    - the number [np.random.uniform(0, 1, 1)] draws for example [j] and
      class column [i] is [U j i], where [U] is an argument of [predict];
    - the numpy functions are modelled as numpy documents them, with a
      flag where its versions differ ([legacy_mask], [strict_setitem]); the
      nonconformity function and the condition are parameters. *)

From Stdlib Require Import ZArith QArith Qround Lqa Lia List Bool Sorted.
From Stdlib Require Import PrimFloat.
From stdpp Require Import base option list gmap.

Local Open Scope nat_scope.

(** ** Exceptions and the state-and-exception monad *)

Inductive exn : Set :=
| IndexError
| KeyError
| AttributeError
| ValueError.

Definition result (A : Type) : Type := exn + A.

Definition M (St A : Type) : Type := St -> St * result A.

Definition ret {St A} (a : A) : M St A := fun s => (s, inr a).

Definition raise {St A} (e : exn) : M St A := fun s => (s, inl e).

Definition bind {St A B} (m : M St A) (k : A -> M St B) : M St B :=
  fun s => match m s with
           | (s', inr a) => k a s'
           | (s', inl e) => (s', inl e)
           end.

Definition get {St} : M St St := fun s => (s, inr s).

Definition put {St} (s : St) : M St unit := fun _ => (s, inr tt).

Definition lift_result {St A} (r : result A) : M St A := fun s => (s, r).

#[global] Instance M_ret {St} : MRet (M St) := fun _ a => ret a.
#[global] Instance M_bind {St} : MBind (M St) := fun _ _ k m => bind m k.

(** [for i, a in enumerate(l): body], with [i] starting at [start]; [acc]
    holds the local variables the body assigns. *)
Fixpoint for_enumerate {St A Acc} (body : nat -> A -> Acc -> M St Acc)
    (start : nat) (l : list A) (acc : Acc) : M St Acc :=
  match l with
  | [] => ret acc
  | a :: l' =>
      bind (body start a acc) (fun acc' => for_enumerate body (S start) l' acc')
  end.

(** ** Comparisons on scores *)

Definition Qltb (a b : Q) : bool := negb (Qle_bool b a).

Definition Qgtb (a b : Q) : bool := Qltb b a.

(** ** The numpy operations the module uses *)

Module np.

(** [np.unique]: the sorted distinct elements. *)
Fixpoint insert_unique (z : Z) (l : list Z) : list Z :=
  match l with
  | [] => [z]
  | h :: t =>
      if (z <? h)%Z then z :: l
      else if (z =? h)%Z then l
      else h :: insert_unique z t
  end.

Definition unique (l : list Z) : list Z := foldr insert_unique [] l.

(** [np.sort] on scores: ascending order. *)
Fixpoint insert_sorted (q : Q) (l : list Q) : list Q :=
  match l with
  | [] => [q]
  | h :: t => if Qle_bool q h then q :: l else h :: insert_sorted q t
  end.

Definition sort (l : list Q) : list Q := foldr insert_sorted [] l.

(** [np.hstack] of two one-dimensional arrays, and [np.vstack] of two
    two-dimensional arrays with rows of the same type (the same number of
    columns). *)
Definition hstack {A} (a b : list A) : list A := a ++ b.
Definition vstack {A} (a b : list A) : list A := a ++ b.

(** [np.searchsorted(a, v, side)]: binary search for the insertion point.
    [side_left] moves right while [a[mid] < v], [side_right] while
    [a[mid] <= v]. The interval [lo, hi) shrinks at every step, so
    [hi - lo] steps are enough. *)
Inductive side : Set := side_left | side_right.

Definition goes_right (s : side) (v mid_val : Q) : bool :=
  match s with
  | side_left => Qltb mid_val v
  | side_right => Qle_bool mid_val v
  end.

Fixpoint bisect (s : side) (a : list Q) (v : Q) (steps lo hi : nat) : nat :=
  match steps with
  | O => lo
  | S steps' =>
      if lo <? hi then
        let mid := lo + (hi - lo) / 2 in
        if goes_right s v (nth mid a 0%Q)
        then bisect s a v steps' (mid + 1) hi
        else bisect s a v steps' lo mid
      else lo
  end.

Definition searchsorted (a : list Q) (v : Q) (s : side) : nat :=
  bisect s a v (length a) 0 (length a).

(** Positions of the [True] entries of a boolean array. *)
Fixpoint nonzero_from (i : nat) (m : list bool) : list nat :=
  match m with
  | [] => []
  | b :: m' => if b then i :: nonzero_from (S i) m' else nonzero_from (S i) m'
  end.

Definition nonzero (m : list bool) : list nat := nonzero_from 0 m.

(** [a[m]] (or [a[m, :]]) for a boolean array [m].

    Current numpy raises [IndexError] when the length of [m] differs from
    the length of [a]. numpy before 1.13 ([legacy = true]) reads [m] as the
    positions of its [True] entries and raises only when one of them is out
    of bounds. *)
Definition mask_index {A} (legacy : bool) (a : list A) (m : list bool)
    : result (list A) :=
  if negb legacy && negb (length m =? length a) then inl IndexError
  else match mapM (fun i => a !! i) (nonzero m) with
       | Some r => inr r
       | None => inl IndexError
       end.

(** [a == c] elementwise. *)
Definition eq_mask (a : list Z) (c : Z) : list bool := map (Z.eqb c) a.

(** [a[i]] / [a[i, :]] for an integer [i]. *)
Definition item {A} (a : list A) (i : nat) : result A :=
  match a !! i with
  | Some v => inr v
  | None => inl IndexError
  end.

End np.

(** ** The table of calibration scores

    [self.cal_scores] is a [defaultdict(partial(np.ndarray, 0))] after a
    conditional calibration and a plain [dict] after an unconditional one.
    Reading a missing key of a [defaultdict] stores the empty array under
    that key and returns it; reading a missing key of a [dict] raises
    [KeyError]. *)

Record scores_dict : Type := {
  entries : gmap Z (list Q);
  is_defaultdict : bool
}.

Definition dict_setitem (d : scores_dict) (k : Z) (v : list Q) : scores_dict :=
  {| entries := <[k := v]> (entries d); is_defaultdict := is_defaultdict d |}.

Definition dict_getitem (d : scores_dict) (k : Z) : scores_dict * result (list Q) :=
  match entries d !! k with
  | Some a => (d, inr a)
  | None =>
      if is_defaultdict d then (dict_setitem d k [], inr [])
      else (d, inl KeyError)
  end.

(** Reading an attribute that [__init__] does not set, or a method or field
    of [None]. *)
Definition attribute {St A} (o : option A) : M St A :=
  match o with
  | Some a => ret a
  | None => raise AttributeError
  end.

(** ** The nonconformity function: an object with [fit] and [calc_nc] *)

Class NcFunction (Nc X Y : Type) : Type := {
  nc_fit : Nc -> list X -> list Y -> Nc;
  nc_calc_nc : Nc -> list X -> list Y -> list Q
}.

(** ** BaseIcp *)

Section Base.

Context {X Y Nc : Type} `{NcFunction Nc X Y}.

(** numpy's reading of a boolean index whose length differs from the
    array's (see [np.mask_index]). *)
Variable legacy_mask : bool.

Record BaseIcp : Type := {
  cal_x : option (list X);
  cal_y : option (list Y);
  nc_function : Nc;
  condition : X * option Y -> Z;
  conditional : bool;
  categories : option (list Z);
  cal_scores : option scores_dict
}.

Definition set_cal (self : BaseIcp) (x : option (list X)) (y : option (list Y))
    : BaseIcp :=
  {| cal_x := x; cal_y := y; nc_function := nc_function self;
     condition := condition self; conditional := conditional self;
     categories := categories self; cal_scores := cal_scores self |}.

Definition set_nc_function (self : BaseIcp) (nc : Nc) : BaseIcp :=
  {| cal_x := cal_x self; cal_y := cal_y self; nc_function := nc;
     condition := condition self; conditional := conditional self;
     categories := categories self; cal_scores := cal_scores self |}.

Definition set_categories (self : BaseIcp) (c : list Z) : BaseIcp :=
  {| cal_x := cal_x self; cal_y := cal_y self; nc_function := nc_function self;
     condition := condition self; conditional := conditional self;
     categories := Some c; cal_scores := cal_scores self |}.

Definition set_cal_scores (self : BaseIcp) (d : scores_dict) : BaseIcp :=
  {| cal_x := cal_x self; cal_y := cal_y self; nc_function := nc_function self;
     condition := condition self; conditional := conditional self;
     categories := categories self; cal_scores := Some d |}.

(** [BaseIcp.__init__] *)
Definition BaseIcp_init (nc : Nc) (cond : option (X * option Y -> Z)) : BaseIcp :=
  {| cal_x := None; cal_y := None; nc_function := nc;
     condition := match cond with Some f => f | None => fun _ => 0%Z end;
     conditional := match cond with Some _ => true | None => false end;
     categories := None; cal_scores := None |}.

(** [BaseIcp.fit] *)
Definition BaseIcp_fit (x : list X) (y : list Y) : M BaseIcp unit :=
  self ← get;
  put (set_nc_function self (nc_fit (nc_function self) x y)).

(** [BaseIcp._update_calibration_set] *)
Definition _update_calibration_set (x : list X) (y : list Y) (increment : bool)
    : M BaseIcp unit :=
  self ← get;
  match increment, cal_x self, cal_y self with
  | true, Some cx, Some cy =>
      put (set_cal self (Some (np.vstack cx x)) (Some (np.hstack cy y)))
  | _, _, _ => put (set_cal self (Some x) (Some y))
  end.

(** [np.array([self.condition((x[i, :], y[i])) for i in range(y.size)])] *)
Fixpoint category_map_from (cond : X * option Y -> Z) (x : list X) (y : list Y)
    (i : nat) (n : nat) : result (list Z) :=
  match n with
  | O => inr []
  | S n' =>
      match np.item x i, np.item y i with
      | inr xi, inr yi =>
          match category_map_from cond x y (S i) n' with
          | inr rest => inr (cond (xi, Some yi) :: rest)
          | inl e => inl e
          end
      | inl e, _ | _, inl e => inl e
      end
  end.

Definition category_map_of (cond : X * option Y -> Z) (x : list X) (y : list Y)
    : result (list Z) :=
  category_map_from cond x y 0 (length y).

(** Body of the loop [for cond in self.categories] of [calibrate]. *)
Definition calibrate_category (category_map : list Z) (cond : Z)
    : M BaseIcp unit :=
  let idx := np.eq_mask category_map cond in
  self ← get;
  cx ← attribute (cal_x self);
  sel_x ← lift_result (np.mask_index legacy_mask cx idx);
  cy ← attribute (cal_y self);
  sel_y ← lift_result (np.mask_index legacy_mask cy idx);
  let scores := nc_calc_nc (nc_function self) sel_x sel_y in
  d ← attribute (cal_scores self);
  put (set_cal_scores self (dict_setitem d cond (rev (np.sort scores)))).

(** Lines 79-93 of [BaseIcp.calibrate]: the categories and the score table
    are rebuilt. *)
Definition calibrate_scores (x : list X) (y : list Y) : M BaseIcp unit :=
  self ← get;
  if conditional self then
    category_map ← lift_result (category_map_of (condition self) x y);
    let cats := np.unique category_map in
    put (set_cal_scores (set_categories self cats)
           {| entries := ∅; is_defaultdict := true |});;
    for_enumerate (fun _ cond _ => calibrate_category category_map cond) 0 cats tt
  else
    cx ← attribute (cal_x self);
    cy ← attribute (cal_y self);
    let scores := nc_calc_nc (nc_function self) cx cy in
    put (set_cal_scores (set_categories self [0%Z])
           {| entries := {[ 0%Z := rev (np.sort scores) ]};
              is_defaultdict := false |}).

(** Subclasses of [BaseIcp]: an object that contains the base attributes
    and may override [_calibrate_hook]. *)
Class IcpObject (Self : Type) : Type := {
  base : Self -> BaseIcp;
  with_base : Self -> BaseIcp -> Self;
  _calibrate_hook : list X -> list Y -> bool -> M Self unit
}.

(** A method of [BaseIcp] run on an object of a subclass. *)
Definition on_base {Self A} `{IcpObject Self} (m : M BaseIcp A) : M Self A :=
  fun self => let (b, r) := m (base self) in (with_base self b, r).

(** [BaseIcp.calibrate] *)
Definition calibrate {Self} `{IcpObject Self} (x : list X) (y : list Y)
    (increment : bool) : M Self unit :=
  _calibrate_hook x y increment;;
  on_base (_update_calibration_set x y increment);;
  on_base (calibrate_scores x y).

(** [BaseIcp._calibrate_hook]: [pass]. *)
#[global] Instance BaseIcp_object : IcpObject BaseIcp := {
  base := fun self => self;
  with_base := fun _ b => b;
  _calibrate_hook := fun _ _ _ => ret tt
}.

End Base.

Arguments BaseIcp : clear implicits.

(** ** IcpClassifier *)

(** What [IcpClassifier.predict] returns: the p-values when [significance] is
    [None], otherwise the boolean array [p > significance]. *)
Inductive prediction : Type :=
| PValues (p : list (list Q))
| Included (b : list (list bool)).

Section Classifier.

Context {X Nc : Type} `{NcFunction Nc X Z}.
Variable legacy_mask : bool.

(** numpy's reading of line 235, [p[j, i] += a] with the one-element array
    [a = (n_eq * np.random.uniform(0, 1, 1)) / (n_cal + 1)]: the sum is a
    one-element array, which is stored in the cell [p[j, i]]. numpy before
    2.4 stores its element; numpy 2.4 and later ([strict_setitem = true])
    raises [ValueError] (setting an array element with a sequence). *)
Variable strict_setitem : bool.

Record IcpClassifier : Type := {
  icp : BaseIcp X Z Nc;
  classes : option (list Z);
  last_p : option (list (list Q));
  smoothing : bool
}.

Definition set_classes (self : IcpClassifier) (c : list Z) : IcpClassifier :=
  {| icp := icp self; classes := Some c; last_p := last_p self;
     smoothing := smoothing self |}.

(** [IcpClassifier.__init__] *)
Definition IcpClassifier_init (nc : Nc) (cond : option (X * option Z -> Z))
    (smooth : bool) : IcpClassifier :=
  {| icp := BaseIcp_init nc cond; classes := None; last_p := None;
     smoothing := smooth |}.

(** [IcpClassifier._update_classes] *)
Definition _update_classes (y : list Z) (increment : bool)
    : M IcpClassifier unit :=
  self ← get;
  match classes self, increment with
  | Some cs, true => put (set_classes self (np.unique (np.hstack cs y)))
  | _, _ => put (set_classes self (np.unique y))
  end.

(** [IcpClassifier._calibrate_hook] overrides the hook of [BaseIcp]. *)
#[global] Instance IcpClassifier_object : IcpObject IcpClassifier := {
  base := icp;
  with_base := fun self b =>
    {| icp := b; classes := classes self; last_p := last_p self;
       smoothing := smoothing self |};
  _calibrate_hook := fun _ y increment => _update_classes y increment
}.

Definition IcpClassifier_fit (x : list X) (y : list Z) : M IcpClassifier unit :=
  on_base (BaseIcp_fit x y).

Definition IcpClassifier_calibrate (x : list X) (y : list Z) (increment : bool)
    : M IcpClassifier unit :=
  calibrate legacy_mask x y increment.

(** [self.cal_scores[k]] *)
Definition cal_scores_getitem (k : Z) : M IcpClassifier (list Q) :=
  self ← get;
  d ← attribute (cal_scores (icp self));
  let (d', r) := dict_getitem d k in
  put (with_base self (set_cal_scores (icp self) d'));;
  lift_result r.

(** [n_gt] and [n_eq] of lines 225-230, for the reversed (ascending) score
    array [cal]. *)
Definition n_gt (cal : list Q) (nc : Q) : Z :=
  let n_cal := length cal in
  let idx_right := np.searchsorted cal nc np.side_right in
  (Z.of_nat n_cal - Z.of_nat idx_right)%Z.

Definition n_eq (cal : list Q) (nc : Q) : Z :=
  let idx_left := np.searchsorted cal nc np.side_left in
  let idx_right := np.searchsorted cal nc np.side_right in
  (Z.of_nat idx_right - Z.of_nat idx_left + 1)%Z.

(** The value [p[j, i]] holds after lines 232-237 when the assignments
    store a number; [u] is the number that [np.random.uniform(0, 1, 1)]
    draws. The quotients and the sum are exact here; the code computes them
    in binary64 (see [p_value_binary64]). *)
Definition p_value (smooth : bool) (cal : list Q) (nc u : Q) : Q :=
  let n_cal := Z.of_nat (length cal) in
  let p := (inject_Z (n_gt cal nc) / inject_Z (n_cal + 1))%Q in
  if smooth then (p + (inject_Z (n_eq cal nc) * u) / inject_Z (n_cal + 1))%Q
  else (p + inject_Z (n_eq cal nc) / inject_Z (n_cal + 1))%Q.

(** [p[j, i] = v] *)
Definition set_cell (p : list (list Q)) (j i : nat) (v : Q) : list (list Q) :=
  alter (fun row => <[i := v]> row) j p.

(** Body of the loop [for j, nc in enumerate(test_nc_scores)]. [U j i] is
    the draw of the random generator for example [j] and class column
    [i]. With smoothing, line 235 stores a one-element array in the cell,
    which raises under [strict_setitem]. *)
Definition predict_cell (x : list X) (U : nat -> nat -> Q) (i : nat) (c : Z)
    (j : nat) (nc : Q) (p : list (list Q)) : M IcpClassifier (list (list Q)) :=
  self ← get;
  _ ← attribute (cal_scores (icp self));
  xj ← lift_result (np.item x j);
  stored ← cal_scores_getitem (condition (icp self) (xj, Some c));
  let cal := rev stored in
  if smoothing self && strict_setitem then raise ValueError
  else ret (set_cell p j i (p_value (smoothing self) cal nc (U j i))).

(** Body of the loop [for i, c in enumerate(self.classes)]. *)
Definition predict_class (x : list X) (U : nat -> nat -> Q) (i : nat) (c : Z)
    (p : list (list Q)) : M IcpClassifier (list (list Q)) :=
  self ← get;
  let test_class := replicate (length x) c in
  let test_nc_scores := nc_calc_nc (nc_function (icp self)) x test_class in
  for_enumerate (predict_cell x U i c) 0 test_nc_scores p.

(** Lines 212-237 of [IcpClassifier.predict]: the matrix of p-values. *)
Definition p_values (x : list X) (U : nat -> nat -> Q)
    : M IcpClassifier (list (list Q)) :=
  self ← get;
  let n_test_objects := length x in
  cs ← attribute (classes self);
  let p := replicate n_test_objects (replicate (length cs) 0%Q) in
  for_enumerate (predict_class x U) 0 cs p.

(** [IcpClassifier.predict] *)
Definition IcpClassifier_predict (x : list X) (significance : option Q)
    (U : nat -> nat -> Q) : M IcpClassifier prediction :=
  p ← p_values x U;
  match significance with
  | Some s => ret (Included (map (map (fun v => Qgtb v s)) p))
  | None => ret (PValues p)
  end.

End Classifier.

Arguments IcpClassifier : clear implicits.

(** ** IcpRegressor *)

(** One row of the array [IcpRegressor.predict] returns: the two boundaries
    for one significance level, or the [2 x n] boundaries of a grid of [n]
    levels. *)
Inductive bounds : Type :=
| Interval (lo hi : Q)
| Grid (g : list (list Q)).

(** A nonconformity function for regression also has
    [predict(x, nc_scores, significance)], which returns one row per
    example. *)
Class NcRegressor (Nc X Y : Type) : Type := {
  nc_scorer :: NcFunction Nc X Y;
  nc_predict : Nc -> list X -> list Q -> option Q -> list bounds
}.

Section Regressor.

Context {X Y Nc : Type} `{NcRegressor Nc X Y}.
Variable legacy_mask : bool.

Record IcpRegressor : Type := { reg_icp : BaseIcp X Y Nc }.

(** [IcpRegressor.__init__] *)
Definition IcpRegressor_init (nc : Nc) (cond : option (X * option Y -> Z))
    : IcpRegressor :=
  {| reg_icp := BaseIcp_init nc cond |}.

(** [_calibrate_hook] is inherited from [BaseIcp]. *)
#[global] Instance IcpRegressor_object : IcpObject IcpRegressor := {
  base := reg_icp;
  with_base := fun _ b => {| reg_icp := b |};
  _calibrate_hook := fun _ _ _ => ret tt
}.

Definition IcpRegressor_fit (x : list X) (y : list Y) : M IcpRegressor unit :=
  on_base (BaseIcp_fit x y).

Definition IcpRegressor_calibrate (x : list X) (y : list Y) (increment : bool)
    : M IcpRegressor unit :=
  calibrate legacy_mask x y increment.

(** [np.zeros((2,))] or [np.zeros((2, n_significance))]. *)
Definition zero_bounds (n_significance : nat) : bounds :=
  if 1 <? n_significance then Grid (replicate 2 (replicate n_significance 0%Q))
  else Interval 0 0.

(** Whether a row has the shape of the rows of [prediction]. *)
Definition shape_ok (n_significance : nat) (b : bounds) : bool :=
  match b with
  | Interval _ _ => negb (1 <? n_significance)
  | Grid g =>
      (1 <? n_significance) && (length g =? 2)
      && forallb (fun r => length r =? n_significance) g
  end.

(** Rows of [prediction] at the [True] positions of [idx] are replaced by
    the rows of [p], in order. *)
Fixpoint scatter (prediction : list bounds) (idx : list bool) (p : list bounds)
    : list bounds :=
  match prediction, idx with
  | r :: prediction', true :: idx' =>
      match p with
      | b :: p' => b :: scatter prediction' idx' p'
      | [] => r :: scatter prediction' idx' []
      end
  | r :: prediction', false :: idx' => r :: scatter prediction' idx' p
  | _, _ => prediction
  end.

(** [prediction[idx, :] = p]: [p] must have one row per selected position
    (a single row is broadcast) and rows of the shape of [prediction],
    otherwise numpy raises [ValueError]. *)
Definition assign_rows (n_significance : nat) (prediction : list bounds)
    (idx : list bool) (p : list bounds) : result (list bounds) :=
  let k := length (np.nonzero idx) in
  if forallb (shape_ok n_significance) p then
    if length p =? k then inr (scatter prediction idx p)
    else match p with
         | [b] => inr (scatter prediction idx (replicate k b))
         | _ => inl ValueError
         end
  else inl ValueError.

(** Body of the loop [for condition in self.categories]. *)
Definition predict_category (x : list X) (significance : option Q)
    (n_significance : nat) (condition_map : list Z) (cond : Z)
    (prediction : list bounds) : M IcpRegressor (list bounds) :=
  let idx := np.eq_mask condition_map cond in
  if 0 <? length (np.nonzero idx) then
    self ← get;
    sel_x ← lift_result (np.mask_index legacy_mask x idx);
    d ← attribute (cal_scores (reg_icp self));
    let (d', r) := dict_getitem d cond in
    put (with_base self (set_cal_scores (reg_icp self) d'));;
    scores ← lift_result r;
    let p := nc_predict (nc_function (reg_icp self)) sel_x scores significance in
    lift_result (assign_rows n_significance prediction idx p)
  else ret prediction.

(** [IcpRegressor.predict] *)
Definition IcpRegressor_predict (x : list X) (significance : option Q)
    : M IcpRegressor (list bounds) :=
  self ← get;
  let n_significance :=
    match significance with None => 99 | Some _ => 1 end in
  let prediction := replicate (length x) (zero_bounds n_significance) in
  let condition_map := map (fun xi => condition (reg_icp self) (xi, None)) x in
  cats ← attribute (categories (reg_icp self));
  for_enumerate
    (fun _ cond => predict_category x significance n_significance condition_map cond)
    0 cats prediction.

End Regressor.

Arguments IcpRegressor : clear implicits.

(** ** A concrete nonconformity function and concrete predictors

    Examples have one rational feature; the score of an example is the
    absolute error [|x - y|] of the feature against the label. *)

Definition Qabs_error (x : Q) (y : Z) : Q :=
  let d := (x - inject_Z y)%Q in
  if Qle_bool 0 d then d else (- d)%Q.

#[global] Instance abs_error_nc : NcFunction unit Q Z := {
  nc_fit := fun nc _ _ => nc;
  nc_calc_nc := fun _ xs ys => zip_with Qabs_error xs ys
}.

(** The label-conditional (Mondrian) condition: the category of an example
    is its label. *)
Definition by_label (e : Q * option Z) : Z :=
  match snd e with
  | Some y => y
  | None => 0%Z
  end.

Definition no_draw : nat -> nat -> Q := fun _ _ => 0%Q.

Definition plain_classifier : IcpClassifier Q unit :=
  IcpClassifier_init tt None false.

Definition mondrian_classifier : IcpClassifier Q unit :=
  IcpClassifier_init tt (Some by_label) false.

(** Total number of scores stored in the table. *)
Definition table_size (d : scores_dict) : nat :=
  map_fold (fun _ a n => length a + n) 0 (entries d).

(** The table of an object, empty when the attribute is not set. *)
Definition table_entries {X Y Nc} (self : BaseIcp X Y Nc) : gmap Z (list Q) :=
  match cal_scores self with
  | Some d => entries d
  | None => ∅
  end.

Definition table_size_of {X Y Nc} (self : BaseIcp X Y Nc) : nat :=
  match cal_scores self with
  | Some d => table_size d
  | None => 0
  end.

Definition cal_size {X Y Nc} (self : BaseIcp X Y Nc) : nat :=
  match cal_y self with
  | Some y => length y
  | None => 0
  end.

(** ** Vocabulary of the statements *)

(** Number of scores strictly greater than [nc], and equal to [nc]. *)
Definition count_gt (nc : Q) (scores : list Q) : nat :=
  length (List.filter (fun s => Qltb nc s) scores).

Definition count_eq (nc : Q) (scores : list Q) : nat :=
  length (List.filter (fun s => Qeq_bool s nc) scores).

Definition ascending (l : list Q) : Prop := StronglySorted Qle l.

Definition descending (l : list Q) : Prop :=
  StronglySorted (fun p q => (q <= p)%Q) l.

(** The elements of [a] at the [True] positions of [m] ([np.compress]). *)
Fixpoint compress {A} (m : list bool) (a : list A) : list A :=
  match m, a with
  | b :: m', v :: a' => if b then v :: compress m' a' else compress m' a'
  | _, _ => []
  end.

(** The scores [calibrate] is to store for category [k]: those of the
    calibration examples [(cx, cy)] whose category, listed in [cm], is [k],
    in descending order. *)
Definition category_scores_of {X Y Nc} `{NcFunction Nc X Y} (nc : Nc)
    (cm : list Z) (cx : list X) (cy : list Y) (k : Z) : list Q :=
  rev (np.sort (nc_calc_nc nc (compress (np.eq_mask cm k) cx)
                               (compress (np.eq_mask cm k) cy))).

(** Every array of the table is in descending order. *)
Definition table_descending (d : scores_dict) : Prop :=
  forall k a, entries d !! k = Some a -> descending a.

(** The array [self.cal_scores[k]] evaluates to when it does not raise: the
    stored array, or the empty array for a missing key of a [defaultdict]. *)
Definition scores_of (d : scores_dict) (k : Z) : option (list Q) :=
  match entries d !! k with
  | Some a => Some a
  | None => if is_defaultdict d then Some [] else None
  end.

(** Entry [p[j, i]] of a matrix. *)
Definition cell {A} (p : list (list A)) (j i : nat) : option A :=
  match p !! j with
  | Some row => row !! i
  | None => None
  end.

(** The score array of category [k] as a lookup in the table of the object
    finds it. *)
Definition category_scores {X Y Nc} (self : BaseIcp X Y Nc) (k : Z)
    : option (list Q) :=
  match cal_scores self with
  | Some d => scores_of d k
  | None => None
  end.

(** Two classifiers that [predict] cannot tell apart: they differ at most by
    empty arrays that lookups of missing categories have stored in the
    [defaultdict]. *)
Definition same_view {X Nc} (s1 s2 : IcpClassifier X Nc) : Prop :=
  classes s2 = classes s1
  /\ smoothing s2 = smoothing s1
  /\ nc_function (icp s2) = nc_function (icp s1)
  /\ condition (icp s2) = condition (icp s1)
  /\ (cal_scores (icp s1) = None <-> cal_scores (icp s2) = None)
  /\ (forall k, category_scores (icp s2) k = category_scores (icp s1) k).

(** The result of one iteration of the inner loop of [predict], read off the
    object before the iteration. *)
Definition predict_cell_result {X Nc} (strict_setitem : bool)
    (self : IcpClassifier X Nc) (x : list X)
    (U : nat -> nat -> Q) (i : nat) (c : Z) (j : nat) (nc : Q)
    (p : list (list Q)) : result (list (list Q)) :=
  match cal_scores (icp self) with
  | None => inl AttributeError
  | Some d =>
      match x !! j with
      | None => inl IndexError
      | Some xj =>
          match scores_of d (condition (icp self) (xj, Some c)) with
          | None => inl KeyError
          | Some stored =>
              if smoothing self && strict_setitem then inl ValueError
              else inr (set_cell p j i
                          (p_value (smoothing self) (rev stored) nc (U j i)))
          end
      end
  end.

(** The random draws agree wherever they are used. *)
Definition draws_agree {X Nc} (s : IcpClassifier X Nc) (U1 U2 : nat -> nat -> Q)
    : Prop :=
  smoothing s = true -> forall j i, U1 j i = U2 j i.

(** Both objects are indistinguishable from [s0]. *)
Definition both_view {X Nc} (s0 s1 s2 : IcpClassifier X Nc) : Prop :=
  same_view s0 s1 /\ same_view s0 s2.

(** The p-value that [predict] writes for example [j] and class [c] in
    column [i], when the lookups of the iteration succeed. *)
Definition predict_value {X Nc} (self : IcpClassifier X Nc) (x : list X)
    (U : nat -> nat -> Q) (i : nat) (c : Z) (j : nat) (nc : Q) : option Q :=
  match x !! j with
  | Some xj =>
      match category_scores (icp self) (condition (icp self) (xj, Some c)) with
      | Some stored => Some (p_value (smoothing self) (rev stored) nc (U j i))
      | None => None
      end
  | None => None
  end.

(** The test scores of lines 215-222 for the candidate class [c]. *)
Definition test_nc_scores {X Nc} `{NcFunction Nc X Z} (self : IcpClassifier X Nc)
    (x : list X) (c : Z) : list Q :=
  nc_calc_nc (nc_function (icp self)) x (replicate (length x) c).

(** A number in the closed unit interval. *)
Definition in_unit (v : Q) : Prop := (0 <= v <= 1)%Q.

(** The classes [_update_classes] stores. *)
Definition updated_classes (old : option (list Z)) (y : list Z) (increment : bool)
    : list Z :=
  match old, increment with
  | Some cs, true => np.unique (np.hstack cs y)
  | _, _ => np.unique y
  end.

(** The objects a program can build: a classifier as [__init__] returns it,
    and what [fit], [calibrate] and [predict] leave behind, whether they
    return or raise. *)
Inductive reachable {X Nc} `{NcFunction Nc X Z}
    (legacy_mask strict_setitem : bool) : IcpClassifier X Nc -> Prop :=
| reach_init nc cond smooth :
    reachable legacy_mask strict_setitem (IcpClassifier_init nc cond smooth)
| reach_fit st x y :
    reachable legacy_mask strict_setitem st ->
    reachable legacy_mask strict_setitem (fst (IcpClassifier_fit x y st))
| reach_calibrate st x y increment :
    reachable legacy_mask strict_setitem st ->
    reachable legacy_mask strict_setitem
      (fst (IcpClassifier_calibrate legacy_mask x y increment st))
| reach_predict st x significance U :
    reachable legacy_mask strict_setitem st ->
    reachable legacy_mask strict_setitem
      (fst (IcpClassifier_predict strict_setitem x significance U st)).

(** What holds of the table of every reachable object: its arrays are
    descending, and it is a [defaultdict] exactly for a conditional
    predictor. *)
Definition table_ok {X Y Nc} (self : BaseIcp X Y Nc) : Prop :=
  forall d, cal_scores self = Some d ->
            table_descending d /\ is_defaultdict d = conditional self.

(** The calibration set [_update_calibration_set] stores. *)
Definition updated_cal {A B} (old : option (list A)) (other : option (list B))
    (new : list A) (increment : bool) : list A :=
  match increment, old, other with
  | true, Some c, Some _ => c ++ new
  | _, _, _ => new
  end.

(** A concrete nonconformity function for regression: the prediction is the
    feature itself, the score its absolute error, and the interval at a
    significance level has the half-width of the calibration score at the
    border index [floor(significance * (n + 1)) - 1], clipped to the
    array. *)
Definition Qabs_diff (x y : Q) : Q :=
  let d := (x - y)%Q in
  if Qle_bool 0 d then d else (- d)%Q.

Definition border (scores : list Q) (significance : Q) : nat :=
  let n := Z.of_nat (length scores) in
  let b := (Qfloor (significance * inject_Z (n + 1)) - 1)%Z in
  Z.to_nat (Z.min (Z.max b 0) (n - 1)).

Definition half_width (scores : list Q) (significance : Q) : Q :=
  nth (border scores significance) scores 0%Q.

Definition grid_levels : list Q :=
  map (fun k => inject_Z (Z.of_nat k) / 100)%Q (seq 1 99).

Definition interval_bounds (scores : list Q) (significance : option Q) (x : Q)
    : bounds :=
  match significance with
  | Some s => Interval (x - half_width scores s) (x + half_width scores s)
  | None =>
      Grid [map (fun s => (x - half_width scores s)%Q) grid_levels;
            map (fun s => (x + half_width scores s)%Q) grid_levels]
  end.

#[global] Instance abs_diff_nc : NcFunction unit Q Q := {
  nc_fit := fun nc _ _ => nc;
  nc_calc_nc := fun _ xs ys => zip_with Qabs_diff xs ys
}.

#[global] Instance abs_diff_regressor : NcRegressor unit Q Q := {
  nc_scorer := abs_diff_nc;
  nc_predict := fun _ xs scores significance =>
    map (interval_bounds scores significance) xs
}.

Definition plain_regressor : IcpRegressor Q Q unit := IcpRegressor_init tt None.

(** The classifier of the scenario of the specification: one category with
    the calibration scores [0.1, 0.4, 0.4, 0.9]. *)
Definition scenario_classifier : IcpClassifier Q unit :=
  fst (IcpClassifier_calibrate false
         [4 # 10; 1 # 10; 9 # 10; 4 # 10]%Q [0; 0; 0; 0]%Z false plain_classifier).

(** The same calibration with smoothing enabled. *)
Definition smoothed_classifier : IcpClassifier Q unit :=
  fst (IcpClassifier_calibrate false
         [4 # 10; 1 # 10; 9 # 10; 4 # 10]%Q [0; 0; 0; 0]%Z false
         (IcpClassifier_init tt None true)).

Definition half_draw : nat -> nat -> Q := fun _ _ => (1 # 2)%Q.

(** A condition on the feature: the category is its integer part. The
    classifier is calibrated on examples of category 0 only. *)
Definition by_floor (e : Q * option Z) : Z := Qfloor (fst e).

Definition binned_classifier : IcpClassifier Q unit :=
  fst (IcpClassifier_calibrate false
         [5 # 10; 2 # 10]%Q [0; 1]%Z false
         (IcpClassifier_init tt (Some by_floor) false)).

(** The regressor calibrated on four examples. *)
Definition scenario_regressor : IcpRegressor Q Q unit :=
  fst (IcpRegressor_calibrate false
         [1; 2; 3; 4]%Q [3 # 2; 2; 2; 6]%Q false plain_regressor).

(** ** The arithmetic of lines 232-237 in binary64

    The p-value of the code is a double: [n_gt / (n_cal + 1)] is rounded,
    then [n_eq / (n_cal + 1)] is rounded and added; the counts are passed
    as the doubles they convert to. Used to check that the scenario gives
    the same decisions in floating point as in exact arithmetic. *)
Definition p_value_binary64 (n_gt n_eq n_cal : float) : float :=
  let p := (n_gt / (n_cal + 1))%float in
  (p + n_eq / (n_cal + 1))%float.

(** ** Vocabulary of the further properties *)

(** The table [d'] is the table [d] with, at most, empty arrays stored under
    keys that [d] did not hold. *)
Definition only_adds_empty (d d' : scores_dict) : Prop :=
  is_defaultdict d' = is_defaultdict d
  /\ (forall k a, entries d !! k = Some a -> entries d' !! k = Some a)
  /\ (forall k a, entries d' !! k = Some a ->
                  entries d !! k = Some a
                  \/ (entries d !! k = None /\ a = [] /\ is_defaultdict d = true)).

(** Every lookup [self.cal_scores[self.condition(e)]] finds an array. *)
Definition lookup_total {X Y Nc} (self : BaseIcp X Y Nc) : Prop :=
  forall d, cal_scores self = Some d ->
            forall e, is_Some (scores_of d (condition self e)).

(** An unconditional predictor has the constant condition of [__init__] and
    a table that holds the category 0. *)
Definition unconditional_ok {X Y Nc} (self : BaseIcp X Y Nc) : Prop :=
  conditional self = false ->
  (forall e, condition self e = 0%Z)
  /\ (forall d, cal_scores self = Some d -> is_Some (entries d !! 0%Z)).

(** A matrix of [n] rows and [k] columns. *)
Definition has_shape {A} (n k : nat) (m : list (list A)) : Prop :=
  length m = n /\ Forall (fun row => length row = k) m.

(** Number of scores greater than or equal to [nc]. *)
Definition count_ge (nc : Q) (scores : list Q) : nat :=
  length (List.filter (fun s => Qle_bool nc s) scores).

(** Two objects with the same calibration set, nonconformity function and
    condition. *)
Definition same_inputs {X Y Nc} (b b' : BaseIcp X Y Nc) : Prop :=
  cal_x b' = cal_x b /\ cal_y b' = cal_y b
  /\ nc_function b' = nc_function b
  /\ condition b' = condition b /\ conditional b' = conditional b.

(** A first [calibrate] followed by incremental ones: the objects the calls
    leave, whether they return or raise. *)
Fixpoint calibrate_increments {X Nc} `{NcFunction Nc X Z} (legacy_mask : bool)
    (batches : list (list X * list Z)) (st : IcpClassifier X Nc)
    : IcpClassifier X Nc :=
  match batches with
  | [] => st
  | (x, y) :: rest =>
      calibrate_increments legacy_mask rest
        (fst (IcpClassifier_calibrate legacy_mask x y true st))
  end.

(** ** examples/icp_regression_tree.py

    The script, with the data set ([data.data], [data.target]), the
    permutation [idx] that [np.random.permutation] draws and the
    nonconformity function as parameters. The result is the array [table]
    that the script prints. *)

(** [a[i:j]] for non-negative [i] and [j]. *)
Definition slice {A} (a : list A) (i j : nat) : list A :=
  take (j - i) (drop i a).

(** Lines 24-26: [train], [calibrate] and [test]. [int(idx.size / 3)] is
    the integer quotient. *)
Definition split_indices (idx : list nat) : list nat * list nat * list nat :=
  let size := length idx in
  (take (size / 3) idx,
   slice idx (size / 3) (2 * size / 3),
   drop (2 * size / 3) idx).

(** [a[rows]] / [a[rows, :]] for an array of indices. *)
Definition take_rows {A} (a : list A) (rows : list nat) : result (list A) :=
  match mapM (fun i => a !! i) rows with
  | Some r => inr r
  | None => inl IndexError
  end.

(** [np.vstack([prediction.T, truth]).T]: the rows [min, max, truth].
    [np.vstack] raises [ValueError] when the arrays do not fit. *)
Fixpoint table_rows (prediction : list bounds) (truth : list Q)
    : result (list (list Q)) :=
  match prediction, truth with
  | [], [] => inr []
  | Interval lo hi :: prediction', t :: truth' =>
      match table_rows prediction' truth' with
      | inr rows => inr ([lo; hi; t] :: rows)
      | inl e => inl e
      end
  | _, _ => inl ValueError
  end.

Section ExampleScript.

Context {X Nc : Type} `{NcRegressor Nc X Q}.
Variable legacy_mask : bool.

(** Lines 31-40, run on the object [icp] of line 31. *)
Definition icp_regression_tree (data : list X) (target : list Q)
    (idx : list nat) : M (IcpRegressor X Q Nc) (list (list Q)) :=
  let '(train, calibrate_idx, test) := split_indices idx in
  x ← lift_result (take_rows data train);
  y ← lift_result (take_rows target train);
  IcpRegressor_fit x y;;
  x ← lift_result (take_rows data calibrate_idx);
  y ← lift_result (take_rows target calibrate_idx);
  IcpRegressor_calibrate legacy_mask x y false;;
  x ← lift_result (take_rows data test);
  prediction ← IcpRegressor_predict legacy_mask x (Some (1 # 10)%Q);
  truth ← lift_result (take_rows target test);
  lift_result (table_rows prediction truth).

End ExampleScript.

Section RegressorLoop.

Context {X Y Nc : Type} `{NcRegressor Nc X Y}.

(** What the loop of [IcpRegressor.predict] keeps from the object [rg] it
    started on: the nonconformity function, the lookups of the table [d]
    and the number [n] of rows of the result. *)
Definition rows_inv (rg : IcpRegressor X Y Nc) (d : scores_dict) (n : nat)
    (rg' : IcpRegressor X Y Nc) (pr : list bounds) : Prop :=
  length pr = n
  /\ nc_function (reg_icp rg') = nc_function (reg_icp rg)
  /\ exists d', cal_scores (reg_icp rg') = Some d'
                /\ forall k, scores_of d' k = scores_of d k.

End RegressorLoop.

(** A conditional regressor: the category of an example is the integer part
    of its feature; it is calibrated on examples of the categories 0 and 1. *)
Definition by_integer_part (e : Q * option Q) : Z := Qfloor (fst e).

Definition binned_regressor : IcpRegressor Q Q unit :=
  fst (IcpRegressor_calibrate false
         [1 # 2; 3 # 2; 7 # 10]%Q [1; 2; 1]%Q false
         (IcpRegressor_init tt (Some by_integer_part))).

(** * Properties of the numpy operations *)

Section Comparisons.

Lemma Qltb_lt a b : Qltb a b = true <-> (a < b)%Q.
Proof.
  unfold Qltb. rewrite negb_true_iff, <- not_true_iff_false, Qle_bool_iff.
  split; [apply Qnot_le_lt | apply Qlt_not_le].
Qed.

Lemma Qltb_ge a b : Qltb a b = false <-> (b <= a)%Q.
Proof.
  unfold Qltb. rewrite negb_false_iff. apply Qle_bool_iff.
Qed.

Lemma Qle_bool_gt a b : Qle_bool a b = false <-> (b < a)%Q.
Proof.
  rewrite <- not_true_iff_false, Qle_bool_iff.
  split; [apply Qnot_le_lt | apply Qlt_not_le].
Qed.

Lemma Qgtb_gt a b : Qgtb a b = true <-> (b < a)%Q.
Proof. apply Qltb_lt. Qed.

End Comparisons.

(** Boolean comparisons in the hypotheses become propositions. *)
Ltac Qbool_to_prop :=
  repeat match goal with
    | H : Qle_bool _ _ = true |- _ => apply Qle_bool_iff in H
    | H : Qle_bool _ _ = false |- _ => apply Qle_bool_gt in H
    | H : Qltb _ _ = true |- _ => apply Qltb_lt in H
    | H : Qltb _ _ = false |- _ => apply Qltb_ge in H
    | H : Qgtb _ _ = true |- _ => apply Qgtb_gt in H
    | H : Qeq_bool _ _ = true |- _ => apply Qeq_bool_iff in H
    | H : Qeq_bool _ _ = false |- _ => apply Qeq_bool_neq in H
    end.

Section Bisect.

Import np.

Variables (a : list Q) (v : Q).

Lemma goes_right_left_right m :
  goes_right side_left v m = true -> goes_right side_right v m = true.
Proof.
  simpl. rewrite Qltb_lt, Qle_bool_iff. apply Qlt_le_weak.
Qed.

(** The insertion point stays inside the interval searched. *)
Lemma bisect_range s steps : forall lo hi,
  lo <= hi -> lo <= bisect s a v steps lo hi <= hi.
Proof.
  induction steps as [|n IH]; intros lo hi Hle; cbn [bisect]; [lia|].
  destruct (Nat.ltb_spec lo hi) as [Hlt|Hge]; [|lia].
  assert (Hmid : lo <= lo + (hi - lo) / 2 < hi).
  { split; [lia|]. pose proof (Nat.div_lt (hi - lo) 2). lia. }
  destruct (goes_right s v _).
  - specialize (IH (lo + (hi - lo) / 2 + 1) hi). lia.
  - specialize (IH lo (lo + (hi - lo) / 2)). lia.
Qed.

(** The leftmost insertion point is never after the rightmost one,
    whatever the array holds. *)
Lemma bisect_left_le_right steps : forall lo hi,
  lo <= hi ->
  bisect side_left a v steps lo hi <= bisect side_right a v steps lo hi.
Proof.
  induction steps as [|n IH]; intros lo hi Hle; cbn [bisect]; [lia|].
  destruct (Nat.ltb_spec lo hi) as [Hlt|Hge]; [|lia].
  assert (Hmid : lo <= lo + (hi - lo) / 2 < hi).
  { split; [lia|]. pose proof (Nat.div_lt (hi - lo) 2). lia. }
  set (mid := lo + (hi - lo) / 2) in *.
  destruct (goes_right side_left v (nth mid a 0%Q)) eqn:Hl.
  - rewrite (goes_right_left_right _ Hl). apply IH. lia.
  - destruct (goes_right side_right v (nth mid a 0%Q)) eqn:Hr.
    + pose proof (bisect_range side_left n lo mid).
      pose proof (bisect_range side_right n (mid + 1) hi). lia.
    + apply IH. lia.
Qed.

Lemma searchsorted_bounds :
  searchsorted a v side_left <= searchsorted a v side_right <= length a.
Proof.
  unfold searchsorted. split.
  - apply bisect_left_le_right. lia.
  - apply bisect_range. lia.
Qed.

(** On an array where the elements that send the search to the right come
    first, the search returns the boundary: [hi - lo] steps are enough. *)
Lemma bisect_boundary s steps : forall lo hi,
  (forall i j, i <= j < length a ->
               goes_right s v (nth j a 0%Q) = true ->
               goes_right s v (nth i a 0%Q) = true) ->
  lo <= hi <= length a ->
  hi - lo <= steps ->
  (forall i, i < lo -> goes_right s v (nth i a 0%Q) = true) ->
  (forall i, hi <= i < length a -> goes_right s v (nth i a 0%Q) = false) ->
  let r := bisect s a v steps lo hi in
  (forall i, i < r -> goes_right s v (nth i a 0%Q) = true)
  /\ (forall i, r <= i < length a -> goes_right s v (nth i a 0%Q) = false).
Proof.
  intros lo hi Hmono. revert lo hi.
  induction steps as [|n IH]; intros lo hi Hle Hsteps Hlo Hhi; cbn [bisect].
  - split; [exact Hlo|]. intros i Hi. apply Hhi. lia.
  - destruct (Nat.ltb_spec lo hi) as [Hlt|Hge].
    + assert (Hmid : lo <= lo + (hi - lo) / 2 < hi).
      { split; [lia|]. pose proof (Nat.div_lt (hi - lo) 2). lia. }
      set (mid := lo + (hi - lo) / 2) in *.
      destruct (goes_right s v (nth mid a 0%Q)) eqn:Hm.
      * apply IH; [lia | lia | | exact Hhi].
        intros i Hi. apply (Hmono i mid); [lia | exact Hm].
      * apply IH; [lia | lia | exact Hlo |].
        intros i Hi.
        destruct (goes_right s v (nth i a 0%Q)) eqn:Hgi; [|reflexivity].
        rewrite (Hmono mid i) in Hm; [discriminate | lia | exact Hgi].
    + split; [exact Hlo|]. intros i Hi. apply Hhi. lia.
Qed.

End Bisect.

Section Sorting.

Import np.

Lemma insert_sorted_In q l x : In x (insert_sorted q l) <-> x = q \/ In x l.
Proof.
  induction l as [|h t IH]; simpl; [intuition|].
  destruct (Qle_bool q h); simpl; [intuition|]. rewrite IH. intuition.
Qed.

Lemma insert_sorted_ascending q l : ascending l -> ascending (insert_sorted q l).
Proof.
  unfold ascending. induction l as [|h t IH]; intros Hs; simpl.
  - constructor; constructor.
  - inversion Hs as [|? ? Ht Hh]; subst.
    destruct (Qle_bool q h) eqn:Hq.
    + apply Qle_bool_iff in Hq. constructor; [exact Hs|].
      constructor; [exact Hq|].
      rewrite List.Forall_forall in *. intros y Hy. specialize (Hh y Hy).
      eapply Qle_trans; eassumption.
    + apply Qle_bool_gt in Hq. constructor; [apply IH; exact Ht|].
      rewrite List.Forall_forall in *. intros y Hy.
      apply insert_sorted_In in Hy as [->|Hy]; [apply Qlt_le_weak; exact Hq|].
      apply Hh; exact Hy.
Qed.

Lemma sort_ascending l : ascending (sort l).
Proof.
  induction l as [|h t IH]; simpl; [constructor|].
  apply insert_sorted_ascending; exact IH.
Qed.

Lemma insert_sorted_length q l : length (insert_sorted q l) = S (length l).
Proof.
  induction l as [|h t IH]; simpl; [reflexivity|].
  destruct (Qle_bool q h); simpl; [reflexivity|]. rewrite IH; reflexivity.
Qed.

Lemma sort_length l : length (sort l) = length l.
Proof.
  induction l as [|h t IH]; simpl; [reflexivity|].
  rewrite insert_sorted_length, IH; reflexivity.
Qed.

Lemma ascending_app l1 l2 :
  ascending l1 -> ascending l2 ->
  (forall x y, In x l1 -> In y l2 -> (x <= y)%Q) ->
  ascending (l1 ++ l2).
Proof.
  unfold ascending. induction l1 as [|h t IH]; intros H1 H2 Hc; simpl; [exact H2|].
  inversion H1 as [|? ? Ht Hh]; subst. constructor.
  - apply IH; [exact Ht | exact H2 |]. intros x y Hx Hy. apply Hc; simpl; auto.
  - rewrite List.Forall_forall in *. intros y Hy.
    apply in_app_or in Hy as [Hy|Hy]; [apply Hh; exact Hy|].
    apply Hc; simpl; auto.
Qed.

Lemma descending_rev l : descending l -> ascending (rev l).
Proof.
  unfold descending. induction l as [|h t IH]; intros Hs; simpl; [constructor|].
  inversion Hs as [|? ? Ht Hh]; subst.
  apply ascending_app; [apply IH; exact Ht | constructor; constructor |].
  intros x y Hx [<-|[]]. rewrite List.Forall_forall in Hh.
  apply Hh. apply in_rev. exact Hx.
Qed.

Lemma descending_app l1 l2 :
  descending l1 -> descending l2 ->
  (forall x y, In x l1 -> In y l2 -> (y <= x)%Q) ->
  descending (l1 ++ l2).
Proof.
  unfold descending. induction l1 as [|h t IH]; intros H1 H2 Hc; simpl; [exact H2|].
  inversion H1 as [|? ? Ht Hh]; subst. constructor.
  - apply IH; [exact Ht | exact H2 |]. intros x y Hx Hy. apply Hc; simpl; auto.
  - rewrite List.Forall_forall in *. intros y Hy.
    apply in_app_or in Hy as [Hy|Hy]; [apply Hh; exact Hy|].
    apply Hc; simpl; auto.
Qed.

Lemma ascending_rev l : ascending l -> descending (rev l).
Proof.
  unfold ascending. induction l as [|h t IH]; intros Hs; simpl; [constructor|].
  inversion Hs as [|? ? Ht Hh]; subst.
  apply descending_app; [apply IH; exact Ht | constructor; constructor |].
  intros x y Hx [<-|[]]. rewrite List.Forall_forall in Hh.
  apply Hh. apply in_rev. exact Hx.
Qed.

(** What [calibrate] stores, [np.sort(cal_scores)[::-1]], is descending. *)
Lemma rev_sort_descending l : descending (rev (sort l)).
Proof. apply ascending_rev, sort_ascending. Qed.

Lemma ascending_nth l : ascending l ->
  forall i j, i <= j < length l -> (nth i l 0 <= nth j l 0)%Q.
Proof.
  unfold ascending. induction 1 as [|h t Ht IH Hh]; intros i j Hij; simpl in *; [lia|].
  destruct i as [|i], j as [|j]; try lia.
  - apply Qle_refl.
  - rewrite List.Forall_forall in Hh. apply Hh. apply nth_In. lia.
  - apply IH. lia.
Qed.

End Sorting.

Section Counting.

Import np.

(** A boolean test that holds exactly on a prefix of length [r] holds on
    [r] elements. *)
Lemma filter_length_boundary (f : Q -> bool) : forall (l : list Q) (r : nat),
  r <= length l ->
  (forall i, i < r -> f (nth i l 0%Q) = true) ->
  (forall i, r <= i < length l -> f (nth i l 0%Q) = false) ->
  length (List.filter f l) = r.
Proof.
  induction l as [|h t IH]; intros r Hr Ht Hf; simpl in *; [lia|].
  destruct r as [|r].
  - rewrite (Hf 0) by lia. apply (IH 0); [lia | intros; lia |].
    intros i Hi. apply (Hf (S i)). lia.
  - rewrite (Ht 0) by lia. simpl. f_equal.
    apply IH; [lia | |].
    + intros i Hi. apply (Ht (S i)). lia.
    + intros i Hi. apply (Hf (S i)). lia.
Qed.

Lemma searchsorted_count (a : list Q) (v : Q) (s : side) :
  ascending a ->
  searchsorted a v s = length (List.filter (goes_right s v) a).
Proof.
  intros Hs. symmetry. unfold searchsorted.
  pose proof (bisect_range a v s (length a) 0 (length a)) as Hrange.
  pose proof (bisect_boundary a v s (length a) 0 (length a)) as Hb.
  cbv zeta in Hb. destruct Hb as [Hb1 Hb2]; try lia.
  - intros i j Hij. pose proof (ascending_nth a Hs i j Hij) as Hle.
    destruct s; simpl.
    + rewrite !Qltb_lt. intros Hj. eapply Qle_lt_trans; eassumption.
    + rewrite !Qle_bool_iff. intros Hj. eapply Qle_trans; eassumption.
  - apply filter_length_boundary; [lia | exact Hb1 | exact Hb2].
Qed.

Lemma filter_length_rev {A} (f : A -> bool) (l : list A) :
  length (List.filter f (rev l)) = length (List.filter f l).
Proof.
  induction l as [|h t IH]; simpl; [reflexivity|].
  rewrite List.filter_app, length_app, IH. simpl.
  destruct (f h); simpl; lia.
Qed.

(** Every score is either greater than [nc] or at most [nc]. *)
Lemma count_gt_le (nc : Q) (l : list Q) :
  count_gt nc l + length (List.filter (fun s => Qle_bool s nc) l) = length l.
Proof.
  unfold count_gt, Qltb. induction l as [|h t IH]; simpl; [reflexivity|].
  destruct (Qle_bool h nc); simpl; lia.
Qed.

(** A score is at most [nc] when it is smaller than or equal to [nc]. *)
Lemma count_le_lt_eq (nc : Q) (l : list Q) :
  length (List.filter (fun s => Qle_bool s nc) l)
  = length (List.filter (fun s => Qltb s nc) l) + count_eq nc l.
Proof.
  unfold count_eq. induction l as [|h t IH]; simpl; [reflexivity|].
  destruct (Qle_bool h nc) eqn:Hle, (Qltb h nc) eqn:Hlt, (Qeq_bool h nc) eqn:Heq;
    simpl; try lia; exfalso; Qbool_to_prop; lra.
Qed.

End Counting.

(** * The p-value of one (example, class) pair *)

Section PValue.

Import np.
Local Open Scope Q_scope.

(** On a descending score array, [n_gt] is the number of calibration
    scores strictly greater than the test score. *)
Lemma n_gt_count (stored : list Q) (nc : Q) :
  descending stored ->
  n_gt (rev stored) nc = Z.of_nat (count_gt nc stored).
Proof.
  intros Hd. unfold n_gt.
  rewrite (searchsorted_count _ _ side_right (descending_rev _ Hd)).
  change (goes_right side_right nc) with (fun s => Qle_bool s nc).
  rewrite filter_length_rev, length_rev.
  pose proof (count_gt_le nc stored). lia.
Qed.

(** [n_eq] is the number of calibration scores equal to the test score,
    plus one. *)
Lemma n_eq_count (stored : list Q) (nc : Q) :
  descending stored ->
  n_eq (rev stored) nc = (Z.of_nat (count_eq nc stored) + 1)%Z.
Proof.
  intros Hd. unfold n_eq.
  rewrite !(searchsorted_count _ _ _ (descending_rev _ Hd)).
  change (goes_right side_right nc) with (fun s => Qle_bool s nc).
  change (goes_right side_left nc) with (fun s => Qltb s nc).
  rewrite !filter_length_rev.
  pose proof (count_le_lt_eq nc stored). lia.
Qed.

Lemma n_gt_nonneg (cal : list Q) (nc : Q) : (0 <= n_gt cal nc)%Z.
Proof. unfold n_gt. pose proof (searchsorted_bounds cal nc). lia. Qed.

Lemma n_eq_pos (cal : list Q) (nc : Q) : (1 <= n_eq cal nc)%Z.
Proof. unfold n_eq. pose proof (searchsorted_bounds cal nc). lia. Qed.

Lemma n_gt_n_eq_le (cal : list Q) (nc : Q) :
  (n_gt cal nc + n_eq cal nc <= Z.of_nat (length cal) + 1)%Z.
Proof. unfold n_gt, n_eq. pose proof (searchsorted_bounds cal nc). lia. Qed.

(** The two summands over the common denominator. *)
Lemma p_value_fraction (smooth : bool) (cal : list Q) (nc u : Q) :
  p_value smooth cal nc u ==
  (inject_Z (n_gt cal nc) + inject_Z (n_eq cal nc) * (if smooth then u else 1))
  / inject_Z (Z.of_nat (length cal) + 1).
Proof.
  unfold p_value.
  assert (Hn : ~ inject_Z (Z.of_nat (length cal) + 1) == 0).
  { intros Heq. unfold Qeq in Heq. simpl in Heq. lia. }
  destruct smooth; field; exact Hn.
Qed.

(** Every p-value lies in [0, 1], for every array and every draw in
    [0, 1]. *)
Lemma p_value_range (smooth : bool) (cal : list Q) (nc u : Q) :
  (smooth = true -> 0 <= u <= 1) ->
  0 <= p_value smooth cal nc u <= 1.
Proof.
  intros Hu. rewrite p_value_fraction.
  pose proof (n_gt_nonneg cal nc) as Hgt.
  pose proof (n_eq_pos cal nc) as Heq.
  pose proof (n_gt_n_eq_le cal nc) as Hsum.
  set (w := if smooth then u else 1).
  assert (Hw : 0 <= w <= 1).
  { subst w. destruct smooth; [apply Hu; reflexivity | lra]. }
  assert (HN : 0 < inject_Z (Z.of_nat (length cal) + 1)).
  { change 0%Q with (inject_Z 0). rewrite <- Zlt_Qlt. lia. }
  assert (HA : 0 <= inject_Z (n_gt cal nc)).
  { change 0%Q with (inject_Z 0). rewrite <- Zle_Qle. lia. }
  assert (HB : 0 <= inject_Z (n_eq cal nc)).
  { change 0%Q with (inject_Z 0). rewrite <- Zle_Qle. lia. }
  assert (HAB : inject_Z (n_gt cal nc) + inject_Z (n_eq cal nc)
                <= inject_Z (Z.of_nat (length cal) + 1)).
  { rewrite <- inject_Z_plus, <- Zle_Qle. lia. }
  split.
  - apply Qle_shift_div_l; [exact HN|]. nra.
  - apply Qle_shift_div_r; [exact HN|]. nra.
Qed.

(** The p-value over an empty array is 1 when smoothing is disabled. *)
Lemma p_value_empty (nc u : Q) : p_value false [] nc u == 1.
Proof. reflexivity. Qed.

End PValue.

(** * Reasoning about loops in the monad *)

Section Loops.

Context {St A Acc : Type}.

(** An invariant of the object and the local variables that every
    completed iteration preserves holds when the loop completes. *)
Lemma for_enumerate_inv (I : St -> Acc -> Prop)
    (body : nat -> A -> Acc -> M St Acc) :
  (forall i a acc st st' acc',
      I st acc -> body i a acc st = (st', inr acc') -> I st' acc') ->
  forall l start acc st st' acc',
    I st acc ->
    for_enumerate body start l acc st = (st', inr acc') ->
    I st' acc'.
Proof.
  intros Hbody l. induction l as [|a l IH]; intros start acc st st' acc' HI Hrun.
  - simpl in Hrun. unfold ret in Hrun. injection Hrun as <- <-. exact HI.
  - simpl in Hrun. unfold bind in Hrun.
    destruct (body start a acc st) as [st1 [e|acc1]] eqn:Hb; [discriminate|].
    eapply IH; [|exact Hrun]. eapply Hbody; eassumption.
Qed.

(** Two loops whose bodies agree on related objects agree. *)
Lemma for_enumerate_rel (R : St -> St -> Prop)
    (body1 body2 : nat -> A -> Acc -> M St Acc) :
  (forall i a acc s1 s2,
      R s1 s2 ->
      snd (body1 i a acc s1) = snd (body2 i a acc s2)
      /\ R (fst (body1 i a acc s1)) (fst (body2 i a acc s2))) ->
  forall l start acc s1 s2,
    R s1 s2 ->
    snd (for_enumerate body1 start l acc s1) = snd (for_enumerate body2 start l acc s2)
    /\ R (fst (for_enumerate body1 start l acc s1))
         (fst (for_enumerate body2 start l acc s2)).
Proof.
  intros Hbody l. induction l as [|a l IH]; intros start acc s1 s2 HR.
  - simpl. split; [reflexivity | exact HR].
  - simpl. unfold bind.
    destruct (Hbody start a acc s1 s2 HR) as [Hr HR'].
    destruct (body1 start a acc s1) as [s1' r1], (body2 start a acc s2) as [s2' r2].
    simpl in Hr, HR'. subst r2.
    destruct r1 as [e|acc1]; [split; [reflexivity | exact HR']|].
    apply IH; exact HR'.
Qed.

(** A loop whose iterations all return, returns. *)
Lemma for_enumerate_returns (P : nat -> A -> Prop) (I : St -> Acc -> Prop)
    (body : nat -> A -> Acc -> M St Acc) :
  (forall i a acc st,
      P i a -> I st acc ->
      exists st' acc', body i a acc st = (st', inr acc') /\ I st' acc') ->
  forall (l : list A) start acc st,
    (forall k a, l !! k = Some a -> P (start + k) a) ->
    I st acc ->
    exists st' acc',
      for_enumerate body start l acc st = (st', inr acc') /\ I st' acc'.
Proof.
  intros Hbody l. induction l as [|a l IH]; intros start acc st HP HI.
  - exists st, acc. split; [reflexivity | exact HI].
  - simpl. unfold bind.
    destruct (Hbody start a acc st) as (st1 & acc1 & Hrun & HI1);
      [replace start with (start + 0) by lia; apply HP; reflexivity | exact HI |].
    rewrite Hrun. apply IH; [|exact HI1].
    intros k b Hk. replace (S start + k) with (start + S k) by lia.
    apply HP. exact Hk.
Qed.

End Loops.

Section LoopErrors.

Context {St A Acc : Type}.

(** An exception of a loop is the exception of one of its iterations, run
    on an object that satisfies the invariant. *)
Lemma for_enumerate_raises (I : St -> Prop) (P : nat -> A -> exn -> Prop)
    (body : nat -> A -> Acc -> M St Acc) :
  (forall i a acc st, I st -> I (fst (body i a acc st))) ->
  (forall i a acc st e, I st -> snd (body i a acc st) = inl e -> P i a e) ->
  forall (l : list A) start acc st e,
    I st ->
    snd (for_enumerate body start l acc st) = inl e ->
    exists k a, l !! k = Some a /\ P (start + k) a e.
Proof.
  intros Hinv Herr l. induction l as [|a l IH]; intros start acc st e HI Hrun.
  - discriminate.
  - simpl in Hrun. unfold bind in Hrun.
    pose proof (Hinv start a acc st HI) as HI'.
    pose proof (Herr start a acc st) as He.
    destruct (body start a acc st) as [st1 [e1|acc1]]; simpl in *.
    + injection Hrun as ->. exists 0, a. split; [reflexivity|].
      rewrite Nat.add_0_r. apply He; [exact HI | reflexivity].
    + destruct (IH (S start) acc1 st1 e HI' Hrun) as (k & b & Hk & HP).
      exists (S k), b. split; [exact Hk|].
      replace (start + S k) with (S start + k) by lia. exact HP.
Qed.

(** An invariant that the iterations over the elements of the list
    preserve. *)
Lemma for_enumerate_inv_elem (I : St -> Acc -> Prop)
    (body : nat -> A -> Acc -> M St Acc) (l : list A) :
  (forall i a acc st st' acc',
      a ∈ l -> I st acc -> body i a acc st = (st', inr acc') -> I st' acc') ->
  forall start acc st st' acc',
    I st acc ->
    for_enumerate body start l acc st = (st', inr acc') ->
    I st' acc'.
Proof.
  induction l as [|a l IH]; intros Hbody start acc st st' acc' HI Hrun.
  - simpl in Hrun. unfold ret in Hrun. injection Hrun as <- <-. exact HI.
  - simpl in Hrun. unfold bind in Hrun.
    destruct (body start a acc st) as [st1 [e|acc1]] eqn:Hb; [discriminate|].
    eapply IH; [| |exact Hrun].
    + intros i b q s s' q' Hin. apply Hbody. apply elem_of_cons. right. exact Hin.
    + eapply Hbody; [apply elem_of_cons; left; reflexivity | exact HI | exact Hb].
Qed.

End LoopErrors.

(** * IcpClassifier.predict *)

Ltac unfold_monad :=
  unfold attribute, lift_result, mbind, M_bind, mret, M_ret, bind, get, put,
    raise, ret in *.

Section PredictCell.

Context {X Nc : Type} `{NcFunction Nc X Z}.
Context {strict_setitem : bool}.

Implicit Types (st s : IcpClassifier X Nc) (x : list X).
Implicit Types (U : nat -> nat -> Q).

Lemma same_view_refl st : same_view st st.
Proof. unfold same_view; intuition. Qed.

Lemma same_view_trans s1 s2 s3 :
  same_view s1 s2 -> same_view s2 s3 -> same_view s1 s3.
Proof.
  unfold same_view. intros (?&?&?&?&?&Hk) (?&?&?&?&?&Hk').
  do 4 (split; [congruence|]). split; [tauto|].
  intros k. rewrite Hk', Hk. reflexivity.
Qed.

Lemma same_view_sym s1 s2 : same_view s1 s2 -> same_view s2 s1.
Proof.
  unfold same_view. intros (?&?&?&?&?&Hk).
  do 4 (split; [congruence|]). split; [tauto|].
  intros k. rewrite Hk. reflexivity.
Qed.

(** A lookup leaves every later lookup as it was. *)
Lemma dict_getitem_scores_of d k k' :
  scores_of (fst (dict_getitem d k)) k' = scores_of d k'.
Proof.
  unfold dict_getitem, scores_of.
  destruct (entries d !! k) as [a|] eqn:Hk; [reflexivity|].
  destruct (is_defaultdict d) eqn:Hd; simpl; rewrite Hd; [|reflexivity].
  destruct (decide (k = k')) as [<-|Hne].
  - rewrite lookup_insert_eq, Hk. reflexivity.
  - rewrite lookup_insert_ne by exact Hne. reflexivity.
Qed.

Lemma dict_getitem_result d k :
  snd (dict_getitem d k)
  = match scores_of d k with Some a => inr a | None => inl KeyError end.
Proof.
  unfold dict_getitem, scores_of.
  destruct (entries d !! k); [reflexivity|].
  destruct (is_defaultdict d); reflexivity.
Qed.

Lemma predict_cell_spec st x U i c j nc p :
  snd (predict_cell strict_setitem x U i c j nc p st)
    = predict_cell_result strict_setitem st x U i c j nc p
  /\ same_view st (fst (predict_cell strict_setitem x U i c j nc p st)).
Proof.
  unfold predict_cell, cal_scores_getitem, predict_cell_result, np.item.
  unfold_monad.
  destruct (cal_scores (icp st)) as [d|] eqn:Hd; simpl;
    [|split; [reflexivity | apply same_view_refl]].
  destruct (x !! j) as [xj|]; simpl;
    [|split; [reflexivity | apply same_view_refl]].
  rewrite Hd. cbn beta iota.
  pose proof (dict_getitem_result d (condition (icp st) (xj, Some c))) as Hr.
  pose proof (dict_getitem_scores_of d (condition (icp st) (xj, Some c))) as Hs.
  destruct (dict_getitem d (condition (icp st) (xj, Some c))) as [d' r].
  simpl in Hr, Hs. subst r.
  assert (Hview : same_view st
            (with_base st (set_cal_scores (icp st) d'))).
  { unfold same_view, category_scores. simpl. rewrite Hd.
    do 4 (split; [reflexivity|]). split; [split; discriminate|].
    intros k. apply Hs. }
  destruct (scores_of d (condition (icp st) (xj, Some c))); simpl;
    [|split; [reflexivity | exact Hview]].
  destruct (smoothing st && strict_setitem); simpl;
    (split; [reflexivity | exact Hview]).
Qed.

(** Objects that [predict] cannot tell apart give the same iteration. *)
Lemma predict_cell_result_view s1 s2 x U i c j nc p :
  same_view s1 s2 ->
  predict_cell_result strict_setitem s2 x U i c j nc p
    = predict_cell_result strict_setitem s1 x U i c j nc p.
Proof.
  intros (Hc & Hs & Hn & Hcond & Hnone & Hk). unfold predict_cell_result.
  destruct (cal_scores (icp s1)) as [d1|] eqn:H1,
           (cal_scores (icp s2)) as [d2|] eqn:H2;
    try reflexivity; try (exfalso; intuition congruence).
  destruct (x !! j) as [xj|]; [|reflexivity].
  specialize (Hk (condition (icp s1) (xj, Some c))).
  unfold category_scores in Hk. rewrite H1, H2 in Hk.
  rewrite Hcond, Hk, Hs. reflexivity.
Qed.

End PredictCell.

Section PredictAgree.

Context {X Nc : Type} `{NcFunction Nc X Z}.
Context {strict_setitem : bool}.

Implicit Types (st s : IcpClassifier X Nc) (x : list X).
Implicit Types (U : nat -> nat -> Q).

Lemma predict_cell_result_draws s U1 U2 x i c j nc p :
  draws_agree s U1 U2 ->
  predict_cell_result strict_setitem s x U1 i c j nc p
    = predict_cell_result strict_setitem s x U2 i c j nc p.
Proof.
  intros Hu. unfold predict_cell_result.
  destruct (cal_scores (icp s)); [|reflexivity].
  destruct (x !! j); [|reflexivity].
  destruct (scores_of _ _); [|reflexivity].
  unfold draws_agree in Hu. destruct (smoothing s).
  - rewrite Hu; reflexivity.
  - reflexivity.
Qed.

Lemma predict_cell_agree s0 U1 U2 x i c j nc p s1 s2 :
  draws_agree s0 U1 U2 ->
  both_view s0 s1 s2 ->
  snd (predict_cell strict_setitem x U1 i c j nc p s1)
    = snd (predict_cell strict_setitem x U2 i c j nc p s2)
  /\ both_view s0 (fst (predict_cell strict_setitem x U1 i c j nc p s1))
                  (fst (predict_cell strict_setitem x U2 i c j nc p s2)).
Proof.
  intros Hu [H1 H2].
  destruct (predict_cell_spec (strict_setitem := strict_setitem) s1 x U1 i c j nc p)
    as [Hr1 Hv1].
  destruct (predict_cell_spec (strict_setitem := strict_setitem) s2 x U2 i c j nc p)
    as [Hr2 Hv2].
  split.
  - rewrite Hr1, Hr2.
    rewrite (predict_cell_result_view s0 s1) by exact H1.
    rewrite (predict_cell_result_view s0 s2) by exact H2.
    apply predict_cell_result_draws; exact Hu.
  - split; [exact (same_view_trans _ _ _ H1 Hv1) | exact (same_view_trans _ _ _ H2 Hv2)].
Qed.

Lemma predict_class_agree s0 U1 U2 x i c p s1 s2 :
  draws_agree s0 U1 U2 ->
  both_view s0 s1 s2 ->
  snd (predict_class strict_setitem x U1 i c p s1)
    = snd (predict_class strict_setitem x U2 i c p s2)
  /\ both_view s0 (fst (predict_class strict_setitem x U1 i c p s1))
                  (fst (predict_class strict_setitem x U2 i c p s2)).
Proof.
  intros Hu HR. unfold predict_class. unfold_monad.
  assert (Hnc : nc_function (icp s2) = nc_function (icp s1)).
  { destruct HR as [(_&_&Ha&_) (_&_&Hb&_)]. congruence. }
  rewrite Hnc.
  apply (for_enumerate_rel (both_view s0)); [|exact HR].
  intros j nc acc a b Hab. apply predict_cell_agree; assumption.
Qed.

Lemma p_values_agree s0 U1 U2 x s1 s2 :
  draws_agree s0 U1 U2 ->
  both_view s0 s1 s2 ->
  snd (p_values strict_setitem x U1 s1) = snd (p_values strict_setitem x U2 s2)
  /\ both_view s0 (fst (p_values strict_setitem x U1 s1)) (fst (p_values strict_setitem x U2 s2)).
Proof.
  intros Hu HR. unfold p_values. unfold_monad.
  assert (Hc : classes s2 = classes s1).
  { destruct HR as [(Ha&_) (Hb&_)]. congruence. }
  rewrite Hc. destruct (classes s1) as [cs|]; [|split; [reflexivity | exact HR]].
  apply (for_enumerate_rel (both_view s0)); [|exact HR].
  intros i c acc a b Hab. apply predict_class_agree; assumption.
Qed.

Lemma IcpClassifier_predict_p_values x significance U st :
  IcpClassifier_predict strict_setitem x significance U st
  = match p_values strict_setitem x U st with
    | (st', inr p) =>
        (st', inr match significance with
                  | Some s => Included (map (map (fun v => Qgtb v s)) p)
                  | None => PValues p
                  end)
    | (st', inl e) => (st', inl e)
    end.
Proof.
  unfold IcpClassifier_predict. unfold_monad.
  destruct (p_values strict_setitem x U st) as [st' [e|p]]; [reflexivity|].
  destruct significance; reflexivity.
Qed.

Lemma IcpClassifier_predict_agree s0 U1 U2 x significance s1 s2 :
  draws_agree s0 U1 U2 ->
  both_view s0 s1 s2 ->
  snd (IcpClassifier_predict strict_setitem x significance U1 s1)
  = snd (IcpClassifier_predict strict_setitem x significance U2 s2)
  /\ both_view s0 (fst (IcpClassifier_predict strict_setitem x significance U1 s1))
                  (fst (IcpClassifier_predict strict_setitem x significance U2 s2)).
Proof.
  intros Hu HR. rewrite !IcpClassifier_predict_p_values.
  destruct (p_values_agree s0 U1 U2 x s1 s2 Hu HR) as [Hr Hv].
  destruct (p_values strict_setitem x U1 s1)
    as [s1' r1], (p_values strict_setitem x U2 s2) as [s2' r2].
  simpl in Hr, Hv. subst r2. destruct r1; split; simpl; auto.
Qed.

End PredictAgree.

Section Cells.

Lemma cell_set_cell_eq (q : list (list Q)) (j i : nat) (v : Q) :
  cell (set_cell q j i v) j i
  = match cell q j i with Some _ => Some v | None => None end.
Proof.
  unfold cell, set_cell. rewrite list_lookup_alter_eq.
  destruct (q !! j) as [row|]; simpl; [|reflexivity].
  destruct (row !! i) eqn:Hi.
  - apply list_lookup_insert_eq. apply lookup_lt_is_Some. eauto.
  - rewrite list_insert_ge; [exact Hi|]. apply lookup_ge_None. exact Hi.
Qed.

Lemma cell_set_cell_ne (q : list (list Q)) (j i j' i' : nat) (v : Q) :
  j' <> j \/ i' <> i ->
  cell (set_cell q j i v) j' i' = cell q j' i'.
Proof.
  intros Hne. unfold cell, set_cell.
  destruct (decide (j = j')) as [<-|Hj].
  - rewrite list_lookup_alter_eq. destruct (q !! j) as [row|]; simpl; [|reflexivity].
    apply list_lookup_insert_ne. intros ->.
    destruct Hne as [Hne|Hne]; apply Hne; reflexivity.
  - rewrite list_lookup_alter_ne by exact Hj. reflexivity.
Qed.

Lemma cell_zeros (n k j i : nat) :
  j < n -> i < k ->
  cell (replicate n (replicate k 0%Q)) j i = Some 0%Q.
Proof.
  intros Hj Hi. unfold cell.
  rewrite lookup_replicate_2 by exact Hj. apply lookup_replicate_2. exact Hi.
Qed.

(** Writing a number of the unit interval keeps a matrix in it. *)
Lemma set_cell_in_unit (q : list (list Q)) (j i : nat) (v : Q) :
  Forall (Forall in_unit) q -> in_unit v ->
  Forall (Forall in_unit) (set_cell q j i v).
Proof.
  intros Hq Hv. unfold set_cell. apply Forall_alter; [exact Hq|].
  intros row _ Hrow. apply Forall_insert; assumption.
Qed.

Lemma in_unit_cell (q : list (list Q)) (j i : nat) (v : Q) :
  Forall (Forall in_unit) q -> cell q j i = Some v -> in_unit v.
Proof.
  intros Hq. unfold cell. destruct (q !! j) as [row|] eqn:Hj; [|discriminate].
  intros Hi. eapply Forall_lookup_1; [|exact Hi].
  eapply (Forall_lookup_1 (Forall in_unit)); eassumption.
Qed.

End Cells.

Section PredictCells.

Context {X Nc : Type} `{NcFunction Nc X Z}.
Context {strict_setitem : bool}.

Implicit Types (st s : IcpClassifier X Nc) (x : list X).
Implicit Types (U : nat -> nat -> Q) (p : list (list Q)).

(** A completed iteration has written [predict_value]. *)
Lemma predict_cell_result_value s x U i c j nc p p' :
  predict_cell_result strict_setitem s x U i c j nc p = inr p' ->
  exists v, predict_value s x U i c j nc = Some v /\ p' = set_cell p j i v.
Proof.
  unfold predict_cell_result, predict_value, category_scores.
  destruct (cal_scores (icp s)); [|discriminate].
  destruct (x !! j); [|discriminate].
  destruct (scores_of _ _); [|discriminate].
  destruct (smoothing s && strict_setitem); [discriminate|].
  intros [= <-]. eexists; split; reflexivity.
Qed.

Lemma predict_value_view s1 s2 x U i c j nc :
  same_view s1 s2 ->
  predict_value s2 x U i c j nc = predict_value s1 x U i c j nc.
Proof.
  intros (_ & Hs & _ & Hcond & _ & Hk). unfold predict_value.
  destruct (x !! j); [|reflexivity]. rewrite Hcond, Hk, Hs. reflexivity.
Qed.

(** The inner loop: rows [start, start + length ncs) of column [i] are
    written, every other entry is left as it was. *)
Lemma predict_column_cells s0 x U i c : forall ncs start p st st' p',
  same_view s0 st ->
  for_enumerate (predict_cell strict_setitem x U i c) start ncs p st = (st', inr p') ->
  same_view s0 st'
  /\ (forall j nc, ncs !! j = Some nc ->
        exists v, predict_value s0 x U i c (start + j) nc = Some v
                  /\ cell p' (start + j) i
                     = match cell p (start + j) i with
                       | Some _ => Some v
                       | None => None
                       end)
  /\ (forall j' i', i' <> i \/ j' < start \/ start + length ncs <= j' ->
        cell p' j' i' = cell p j' i').
Proof.
  induction ncs as [|nc0 ncs IH]; intros start p st st' p' Hview Hrun.
  - simpl in Hrun. unfold ret in Hrun. injection Hrun as <- <-.
    split; [exact Hview|]. split; [intros j nc Hj; discriminate|]. reflexivity.
  - simpl in Hrun. unfold bind in Hrun.
    destruct (predict_cell_spec (strict_setitem := strict_setitem) st x U i c start nc0 p)
      as [Hr Hv].
    destruct (predict_cell strict_setitem x U i c start nc0 p st) as [st1 [e|p1]];
      [discriminate|].
    simpl in Hr, Hv. symmetry in Hr.
    apply predict_cell_result_value in Hr as (v0 & Hv0 & ->).
    rewrite (predict_value_view s0 st) in Hv0 by exact Hview.
    destruct (IH (S start) _ st1 st' p' (same_view_trans _ _ _ Hview Hv) Hrun)
      as (Hview' & Hset & Hkeep).
    split; [exact Hview'|]. split.
    + intros [|j] nc Hj.
      * injection Hj as <-. rewrite Nat.add_0_r.
        exists v0. split; [exact Hv0|].
        rewrite Hkeep by lia. apply cell_set_cell_eq.
      * simpl in Hj. destruct (Hset j nc Hj) as (v & Hval & Hcell).
        replace (start + S j) with (S start + j) by lia.
        exists v. split; [exact Hval|].
        rewrite Hcell. rewrite cell_set_cell_ne by lia. reflexivity.
    + intros j' i' Hout. simpl in Hout.
      rewrite Hkeep by lia. apply cell_set_cell_ne. lia.
Qed.

Lemma predict_class_unfold s0 x U i c p st :
  same_view s0 st ->
  predict_class strict_setitem x U i c p st
  = for_enumerate (predict_cell strict_setitem x U i c) 0 (test_nc_scores s0 x c) p st.
Proof.
  intros (_ & _ & Hn & _). unfold predict_class, test_nc_scores. unfold_monad.
  rewrite Hn. reflexivity.
Qed.

(** The outer loop: columns [start, start + length cs) are written, one
    entry per test score; every other entry is left as it was. *)
Lemma predict_matrix_cells s0 x U : forall cs start p st st' p',
  same_view s0 st ->
  for_enumerate (predict_class strict_setitem x U) start cs p st = (st', inr p') ->
  same_view s0 st'
  /\ (forall i c, cs !! i = Some c ->
        forall j nc, test_nc_scores s0 x c !! j = Some nc ->
          exists v, predict_value s0 x U (start + i) c j nc = Some v
                    /\ cell p' j (start + i)
                       = match cell p j (start + i) with
                         | Some _ => Some v
                         | None => None
                         end)
  /\ (forall i c, cs !! i = Some c ->
        forall j, length (test_nc_scores s0 x c) <= j ->
          cell p' j (start + i) = cell p j (start + i))
  /\ (forall j' i', i' < start \/ start + length cs <= i' ->
        cell p' j' i' = cell p j' i').
Proof.
  induction cs as [|c0 cs IH]; intros start p st st' p' Hview Hrun.
  - simpl in Hrun. unfold ret in Hrun. injection Hrun as <- <-.
    split; [exact Hview|]. repeat split; try discriminate.
  - simpl in Hrun. unfold bind in Hrun.
    rewrite (predict_class_unfold s0) in Hrun by exact Hview.
    destruct (for_enumerate (predict_cell strict_setitem x U start c0) 0
                (test_nc_scores s0 x c0) p st) as [st1 [e|p1]] eqn:Hcol;
      [discriminate|].
    destruct (predict_column_cells s0 x U start c0 _ _ _ _ _ _ Hview Hcol)
      as (Hview1 & Hset1 & Hkeep1).
    destruct (IH (S start) _ _ _ _ Hview1 Hrun)
      as (Hview' & Hset & Hshort & Hkeep).
    split; [exact Hview'|]. split; [|split].
    + intros [|i] c Hi j nc Hj.
      * injection Hi as <-. rewrite Nat.add_0_r.
        destruct (Hset1 j nc Hj) as (v & Hval & Hcell). simpl in Hval, Hcell.
        exists v. split; [exact Hval|]. rewrite Hkeep by lia. exact Hcell.
      * simpl in Hi. destruct (Hset i c Hi j nc Hj) as (v & Hval & Hcell).
        replace (start + S i) with (S start + i) by lia.
        exists v. split; [exact Hval|].
        rewrite Hcell, Hkeep1 by lia. reflexivity.
    + intros [|i] c Hi j Hj.
      * injection Hi as <-. rewrite Nat.add_0_r.
        rewrite Hkeep by lia. apply Hkeep1. simpl. lia.
      * simpl in Hi. replace (start + S i) with (S start + i) by lia.
        rewrite (Hshort i c Hi j Hj). apply Hkeep1. lia.
    + intros j' i' Hout. simpl in Hout.
      rewrite Hkeep by lia. apply Hkeep1. lia.
Qed.

(** The matrix of p-values, entry by entry. *)
Lemma p_values_cells x U st st' p :
  p_values strict_setitem x U st = (st', inr p) ->
  same_view st st'
  /\ exists cs, classes st = Some cs
     /\ forall i c, cs !! i = Some c ->
          (forall j nc, test_nc_scores st x c !! j = Some nc ->
             exists xj stored,
               x !! j = Some xj
               /\ category_scores (icp st) (condition (icp st) (xj, Some c))
                  = Some stored
               /\ cell p j i
                  = Some (p_value (smoothing st) (rev stored) nc (U j i)))
          /\ (forall j, length (test_nc_scores st x c) <= j < length x ->
                cell p j i = Some 0%Q).
Proof.
  unfold p_values. unfold_monad.
  destruct (classes st) as [cs|] eqn:Hcs; [|discriminate].
  intros Hrun.
  destruct (predict_matrix_cells st x U cs 0 _ st st' p (same_view_refl st) Hrun)
    as (Hview & Hset & Hshort & _).
  split; [exact Hview|]. exists cs. split; [reflexivity|].
  intros i c Hi.
  assert (Hik : i < length cs) by (apply lookup_lt_is_Some; eauto).
  split.
  - intros j nc Hj. destruct (Hset i c Hi j nc Hj) as (v & Hval & Hcell).
    simpl in Hval, Hcell. unfold predict_value in Hval.
    destruct (x !! j) as [xj|] eqn:Hxj; [|discriminate].
    destruct (category_scores _ _) as [stored|] eqn:Hst; [|discriminate].
    injection Hval as <-. exists xj, stored.
    split; [reflexivity|]. split; [exact Hst|].
    rewrite Hcell, cell_zeros; [reflexivity | | exact Hik].
    apply lookup_lt_is_Some. eauto.
  - intros j Hj. specialize (Hshort i c Hi j). simpl in Hshort.
    rewrite Hshort by lia. apply cell_zeros; [lia | exact Hik].
Qed.

End PredictCells.

Section PredictRange.

Context {X Nc : Type} `{NcFunction Nc X Z}.
Context {strict_setitem : bool}.

Implicit Types (st s : IcpClassifier X Nc) (x : list X).
Implicit Types (U : nat -> nat -> Q) (p : list (list Q)).

Lemma predict_value_in_unit s x U i c j nc v :
  (smoothing s = true -> forall j i, (0 <= U j i < 1)%Q) ->
  predict_value s x U i c j nc = Some v -> in_unit v.
Proof.
  intros HU. unfold predict_value.
  destruct (x !! j); [|discriminate].
  destruct (category_scores _ _); [|discriminate].
  intros [= <-]. apply p_value_range.
  intros Hs. specialize (HU Hs j i). split; [tauto|]. apply Qlt_le_weak. tauto.
Qed.

Lemma predict_cell_in_unit s0 x U i c j nc p st st' p' :
  (smoothing s0 = true -> forall j i, (0 <= U j i < 1)%Q) ->
  same_view s0 st /\ Forall (Forall in_unit) p ->
  predict_cell strict_setitem x U i c j nc p st = (st', inr p') ->
  same_view s0 st' /\ Forall (Forall in_unit) p'.
Proof.
  intros HU [Hview Hp] Hrun.
  destruct (predict_cell_spec (strict_setitem := strict_setitem) st x U i c j nc p)
    as [Hr Hv].
  rewrite Hrun in Hr, Hv. simpl in Hr, Hv. symmetry in Hr.
  apply predict_cell_result_value in Hr as (v & Hval & ->).
  rewrite (predict_value_view s0 st) in Hval by exact Hview.
  split; [exact (same_view_trans _ _ _ Hview Hv)|].
  apply set_cell_in_unit; [exact Hp|].
  eapply predict_value_in_unit; eassumption.
Qed.

(** Every entry of the matrix of p-values lies in the unit interval. *)
Lemma p_values_in_unit x U st st' p :
  (smoothing st = true -> forall j i, (0 <= U j i < 1)%Q) ->
  p_values strict_setitem x U st = (st', inr p) ->
  Forall (Forall in_unit) p.
Proof.
  intros HU. unfold p_values. unfold_monad.
  destruct (classes st) as [cs|]; [|discriminate].
  intros Hrun.
  refine (proj2 (for_enumerate_inv
    (fun s q => same_view st s /\ Forall (Forall in_unit) q)
    (predict_class strict_setitem x U) _ cs 0 _ st st' p _ Hrun)).
  - intros i c q s s' q' Hinv Hcls.
    rewrite (predict_class_unfold st) in Hcls by apply Hinv.
    refine (for_enumerate_inv
      (fun s q => same_view st s /\ Forall (Forall in_unit) q)
      (predict_cell strict_setitem x U i c) _ _ 0 q s s' q' Hinv Hcls).
    intros j nc q0 s1 s1' q0' Hinv1 Hcell.
    eapply predict_cell_in_unit; eassumption.
  - split; [apply same_view_refl|].
    apply Forall_replicate, Forall_replicate. unfold in_unit. lra.
Qed.

(** With smoothing disabled, an iteration does not read the draw. *)
Lemma predict_cell_no_draw x U1 U2 i c j nc p st :
  smoothing st = false ->
  predict_cell strict_setitem x U1 i c j nc p st
    = predict_cell strict_setitem x U2 i c j nc p st.
Proof.
  intros Hs. unfold predict_cell. unfold_monad. rewrite Hs. reflexivity.
Qed.

Lemma p_values_no_draw x U1 U2 st :
  smoothing st = false ->
  p_values strict_setitem x U1 st = p_values strict_setitem x U2 st.
Proof.
  intros Hs.
  set (R := fun s1 s2 : IcpClassifier X Nc => s1 = s2 /\ smoothing s1 = false).
  assert (Hcell : forall i c j nc q s1 s2, R s1 s2 ->
    snd (predict_cell strict_setitem x U1 i c j nc q s1)
      = snd (predict_cell strict_setitem x U2 i c j nc q s2)
    /\ R (fst (predict_cell strict_setitem x U1 i c j nc q s1))
         (fst (predict_cell strict_setitem x U2 i c j nc q s2))).
  { intros i c j nc q s1 s2 [<- Hs1].
    rewrite <- (predict_cell_no_draw x U1 U2) by exact Hs1.
    split; [reflexivity|]. split; [reflexivity|].
    destruct (predict_cell_spec (strict_setitem := strict_setitem) s1 x U1 i c j nc q)
      as [_ (_ & Hsm & _)].
    congruence. }
  assert (Hclass : forall i c q s1 s2, R s1 s2 ->
    snd (predict_class strict_setitem x U1 i c q s1)
      = snd (predict_class strict_setitem x U2 i c q s2)
    /\ R (fst (predict_class strict_setitem x U1 i c q s1))
         (fst (predict_class strict_setitem x U2 i c q s2))).
  { intros i c q s1 s2 [<- Hs1]. unfold predict_class. unfold_monad.
    apply (for_enumerate_rel R); [|split; [reflexivity | exact Hs1]].
    intros j nc acc a b Hab. apply Hcell. exact Hab. }
  unfold p_values. unfold_monad.
  destruct (classes st) as [cs|]; [|reflexivity].
  destruct (for_enumerate_rel R (predict_class strict_setitem x U1) (predict_class strict_setitem x U2)
              Hclass cs 0 (replicate (length x) (replicate (length cs) 0%Q))
              st st (conj eq_refl Hs)) as [Hr [Hst _]].
  apply injective_projections; assumption.
Qed.

End PredictRange.

(** * calibrate *)

Section LoopState.

Context {St A Acc : Type}.

(** An invariant of the object alone that every iteration preserves,
    whether it completes or raises, holds when the loop exits. *)
Lemma for_enumerate_state_inv (I : St -> Prop)
    (body : nat -> A -> Acc -> M St Acc) :
  (forall i a acc st, I st -> I (fst (body i a acc st))) ->
  forall l start acc st,
    I st -> I (fst (for_enumerate body start l acc st)).
Proof.
  intros Hbody l. induction l as [|a l IH]; intros start acc st HI; simpl.
  - exact HI.
  - unfold bind. specialize (Hbody start a acc st HI).
    destruct (body start a acc st) as [st1 [e|acc1]]; simpl in *.
    + exact Hbody.
    + apply IH. exact Hbody.
Qed.

End LoopState.

Section Unique.

Import np.

Lemma insert_unique_In z l x : In x (insert_unique z l) <-> x = z \/ In x l.
Proof.
  induction l as [|h t IH]; simpl; [intuition|].
  destruct (Z.ltb_spec z h); simpl; [intuition|].
  destruct (Z.eqb_spec z h); simpl; [subst; intuition|].
  rewrite IH. intuition.
Qed.

Lemma unique_In l x : In x (unique l) <-> In x l.
Proof.
  induction l as [|h t IH]; simpl; [reflexivity|].
  unfold unique in *. simpl. rewrite insert_unique_In, IH. intuition.
Qed.

Lemma insert_unique_sorted z l :
  StronglySorted Z.lt l -> StronglySorted Z.lt (insert_unique z l).
Proof.
  induction l as [|h t IH]; intros Hs; simpl.
  - constructor; constructor.
  - inversion Hs as [|? ? Ht Hh]; subst.
    destruct (Z.ltb_spec z h).
    + constructor; [exact Hs|]. constructor; [assumption|].
      rewrite List.Forall_forall in *. intros y Hy. specialize (Hh y Hy). lia.
    + destruct (Z.eqb_spec z h); [exact Hs|].
      constructor; [apply IH; exact Ht|].
      rewrite List.Forall_forall in *. intros y Hy.
      apply insert_unique_In in Hy as [->|Hy]; [lia | apply Hh; exact Hy].
Qed.

Lemma unique_sorted l : StronglySorted Z.lt (unique l).
Proof.
  induction l as [|h t IH]; [constructor|].
  apply insert_unique_sorted. exact IH.
Qed.

(** A strictly increasing list is determined by its elements. *)
Lemma sorted_same_elements (l1 l2 : list Z) :
  StronglySorted Z.lt l1 -> StronglySorted Z.lt l2 ->
  (forall x, In x l1 <-> In x l2) -> l1 = l2.
Proof.
  intros H1. revert l2.
  induction H1 as [|h1 t1 Ht1 IH Hh1]; intros l2 H2 Hsame.
  - destruct l2 as [|h2 t2]; [reflexivity|].
    exfalso. apply (Hsame h2). simpl; auto.
  - destruct H2 as [|h2 t2 Ht2 Hh2].
    + exfalso. apply (Hsame h1). simpl; auto.
    + rewrite List.Forall_forall in Hh1, Hh2.
      assert (Heq : h1 = h2).
      { destruct (proj1 (Hsame h1) (or_introl eq_refl)) as [->|Hin1]; [reflexivity|].
        destruct (proj2 (Hsame h2) (or_introl eq_refl)) as [->|Hin2]; [reflexivity|].
        specialize (Hh1 _ Hin2). specialize (Hh2 _ Hin1). lia. }
      subst h2. f_equal. apply IH; [exact Ht2|].
      intros x. split; intros Hx.
      * destruct (proj1 (Hsame x) (or_intror Hx)) as [->|Hin]; [|exact Hin].
        specialize (Hh1 _ Hx). lia.
      * destruct (proj2 (Hsame x) (or_intror Hx)) as [->|Hin]; [|exact Hin].
        specialize (Hh2 _ Hx). lia.
Qed.

(** Merging a batch into the registry of earlier labels gives the labels
    of all batches. *)
Lemma unique_hstack_unique (a b : list Z) :
  unique (hstack (unique a) b) = unique (hstack a b).
Proof.
  apply sorted_same_elements; try apply unique_sorted.
  intros x. unfold hstack. rewrite !unique_In, !in_app_iff, unique_In.
  reflexivity.
Qed.

End Unique.

Section CalibrateBase.

Context {X Y Nc : Type} `{NcFunction Nc X Y}.
Variable legacy_mask : bool.

Implicit Types (b : BaseIcp X Y Nc) (x : list X) (y : list Y).

Lemma update_calibration_set_spec x y increment b :
  _update_calibration_set x y increment b
  = (set_cal b (Some (updated_cal (cal_x b) (cal_y b) x increment))
               (Some (updated_cal (cal_y b) (cal_x b) y increment)),
     inr tt).
Proof.
  unfold _update_calibration_set, updated_cal, np.vstack, np.hstack.
  unfold_monad.
  destruct increment, (cal_x b), (cal_y b); reflexivity.
Qed.

(** [calibrate] on a [BaseIcp]: the hook does nothing. *)
Lemma calibrate_base_unfold x y increment b :
  calibrate legacy_mask x y increment b
  = calibrate_scores legacy_mask x y
      (set_cal b (Some (updated_cal (cal_x b) (cal_y b) x increment))
                 (Some (updated_cal (cal_y b) (cal_x b) y increment))).
Proof.
  unfold calibrate, on_base. simpl. unfold_monad.
  rewrite update_calibration_set_spec.
  destruct (calibrate_scores _ _ _ _); reflexivity.
Qed.

(** An unconditional calibration: one category, all the scores. *)
Lemma calibrate_scores_unconditional x y b cx cy :
  conditional b = false ->
  cal_x b = Some cx -> cal_y b = Some cy ->
  calibrate_scores legacy_mask x y b
  = (set_cal_scores (set_categories b [0%Z])
       {| entries := {[ 0%Z := rev (np.sort (nc_calc_nc (nc_function b) cx cy)) ]};
          is_defaultdict := false |},
     inr tt).
Proof.
  intros Hc Hx Hy. unfold calibrate_scores. unfold_monad.
  rewrite Hc, Hx, Hy. reflexivity.
Qed.

Lemma dict_setitem_table_ok b d k scores :
  cal_scores b = Some d ->
  table_ok b ->
  table_ok (set_cal_scores b (dict_setitem d k (rev (np.sort scores)))).
Proof.
  intros Hd Hok d' [= <-]. destruct (Hok d Hd) as [Hdesc Hdef].
  split; [|exact Hdef].
  intros k' a Ha. simpl in Ha. destruct (decide (k = k')) as [<-|Hne].
  - rewrite lookup_insert_eq in Ha. injection Ha as <-.
    apply rev_sort_descending.
  - rewrite lookup_insert_ne in Ha by exact Hne. exact (Hdesc _ _ Ha).
Qed.

Lemma calibrate_category_table_ok category_map cond b :
  table_ok b ->
  table_ok (fst (calibrate_category legacy_mask category_map cond b)).
Proof.
  intros Hok. unfold calibrate_category. unfold_monad.
  destruct (cal_x b) as [cx|]; [|exact Hok]. cbn beta iota.
  destruct (np.mask_index legacy_mask cx _) as [e|sx]; [exact Hok|].
  destruct (cal_y b) as [cy|]; [|exact Hok]. cbn beta iota.
  destruct (np.mask_index legacy_mask cy _) as [e|sy]; [exact Hok|].
  destruct (cal_scores b) as [d|] eqn:Hd; [|exact Hok]. cbn beta iota.
  apply dict_setitem_table_ok; assumption.
Qed.

(** [calibrate] keeps the table well formed, whether it returns or
    raises. *)
Lemma calibrate_scores_table_ok x y b :
  table_ok b -> table_ok (fst (calibrate_scores legacy_mask x y b)).
Proof.
  intros Hok. unfold calibrate_scores. unfold_monad.
  destruct (conditional b) eqn:Hc.
  - destruct (category_map_of (condition b) x y) as [e|cm]; [exact Hok|].
    cbn beta iota.
    apply (for_enumerate_state_inv table_ok).
    + intros _ cond _ b' Hb'. apply calibrate_category_table_ok. exact Hb'.
    + intros d [= <-]. simpl. split; [|symmetry; exact Hc].
      intros k a Ha. simpl in Ha. rewrite lookup_empty in Ha. discriminate.
  - destruct (cal_x b) as [cx|]; [|exact Hok]. cbn beta iota.
    destruct (cal_y b) as [cy|]; [|exact Hok]. cbn beta iota.
    intros d [= <-]. simpl. split; [|symmetry; exact Hc].
    intros k a Ha. simpl in Ha. destruct (decide (k = 0%Z)) as [->|Hne].
    + rewrite lookup_singleton_eq in Ha. injection Ha as <-.
      apply rev_sort_descending.
    + rewrite lookup_singleton_ne in Ha by congruence. discriminate.
Qed.

Lemma calibrate_base_table_ok x y increment b :
  table_ok b -> table_ok (fst (calibrate legacy_mask x y increment b)).
Proof.
  intros Hok. rewrite calibrate_base_unfold.
  apply calibrate_scores_table_ok. exact Hok.
Qed.

End CalibrateBase.

Section CalibrateClassifier.

Context {X Nc : Type} `{NcFunction Nc X Z}.
Context {strict_setitem : bool}.
Variable legacy_mask : bool.

Implicit Types (st : IcpClassifier X Nc) (x : list X) (y : list Z).

(** [calibrate] on a classifier: the hook updates the classes, the rest is
    [calibrate] on the attributes of [BaseIcp]. *)
Lemma calibrate_classifier_unfold x y increment st :
  IcpClassifier_calibrate legacy_mask x y increment st
  = (with_base (set_classes st (updated_classes (classes st) y increment))
       (fst (calibrate legacy_mask x y increment (icp st))),
     snd (calibrate legacy_mask x y increment (icp st))).
Proof.
  rewrite calibrate_base_unfold.
  unfold IcpClassifier_calibrate, calibrate, on_base, updated_classes.
  cbn [_calibrate_hook base with_base IcpClassifier_object].
  unfold _update_classes. unfold_monad.
  destruct (classes st) as [cs|], increment; cbn beta iota;
    rewrite update_calibration_set_spec; cbn beta iota; cbn [icp set_classes];
    destruct (calibrate_scores _ _ _ _); reflexivity.
Qed.

Lemma calibrate_classes x y increment st :
  classes (fst (IcpClassifier_calibrate legacy_mask x y increment st))
  = Some (updated_classes (classes st) y increment).
Proof. rewrite calibrate_classifier_unfold. reflexivity. Qed.

Lemma predict_cell_table_ok x U i c j nc p st :
  table_ok (icp st) ->
    table_ok (icp (fst (predict_cell strict_setitem x U i c j nc p st))).
Proof.
  intros Hok. unfold predict_cell, cal_scores_getitem, np.item, dict_getitem.
  unfold_monad.
  destruct (cal_scores (icp st)) as [d|] eqn:Hd; simpl; [|exact Hok].
  destruct (x !! j) as [xj|]; simpl; [|exact Hok].
  rewrite Hd. cbn beta iota. destruct (Hok d Hd) as [Hdesc Hdef].
  destruct (smoothing st && strict_setitem);
    (destruct (entries d !! _) as [a|] eqn:Ha; simpl;
     [intros d' [= <-]; split; [assumption | simpl; assumption]|];
     destruct (is_defaultdict d) eqn:Hdd; simpl;
     [|intros d' [= <-]; split; [assumption | simpl; congruence]];
     intros d' [= <-]; split; [|simpl; congruence];
     intros k a Hk; simpl in Hk;
     destruct (decide (condition (icp st) (xj, Some c) = k)) as [<-|Hne];
     [rewrite lookup_insert_eq in Hk; injection Hk as <-; constructor
     |rewrite lookup_insert_ne in Hk by exact Hne; exact (Hdesc _ _ Hk)]).
Qed.

Lemma predict_table_ok x significance U st :
  table_ok (icp st) ->
  table_ok (icp (fst (IcpClassifier_predict strict_setitem x significance U st))).
Proof.
  intros Hok. rewrite IcpClassifier_predict_p_values.
  assert (Hp : table_ok (icp (fst (p_values strict_setitem x U st)))).
  { unfold p_values. unfold_monad.
    destruct (classes st) as [cs|]; [|exact Hok].
    apply (for_enumerate_state_inv (fun s => table_ok (icp s))); [|exact Hok].
    intros i c q s Hs. unfold predict_class. unfold_monad.
    apply (for_enumerate_state_inv (fun s => table_ok (icp s))); [|exact Hs].
    intros j nc q' s' Hs'. apply predict_cell_table_ok. exact Hs'. }
  destruct (p_values strict_setitem x U st) as [st' [e|p]]; exact Hp.
Qed.

(** Every reachable classifier has a well-formed table. *)
Lemma reachable_table_ok st : reachable legacy_mask strict_setitem st ->
  table_ok (icp st).
Proof.
  induction 1 as [nc cond smooth | st x y _ IH | st x y inc _ IH
                 | st x sig U _ IH].
  - intros d. discriminate.
  - exact IH.
  - rewrite calibrate_classifier_unfold. simpl.
    apply calibrate_base_table_ok. exact IH.
  - apply predict_table_ok. exact IH.
Qed.

End CalibrateClassifier.

Section CalibrateResults.

Context {X Y Nc : Type} `{NcFunction Nc X Y}.
Variable legacy_mask : bool.

Implicit Types (b : BaseIcp X Y Nc) (x : list X) (y : list Y).

Lemma calibrate_category_categories category_map cond b :
  categories (fst (calibrate_category legacy_mask category_map cond b))
  = categories b.
Proof.
  unfold calibrate_category. unfold_monad.
  destruct (cal_x b) as [cx|]; [|reflexivity]. cbn beta iota.
  destruct (np.mask_index legacy_mask cx _) as [e|sx]; [reflexivity|].
  destruct (cal_y b) as [cy|]; [|reflexivity]. cbn beta iota.
  destruct (np.mask_index legacy_mask cy _) as [e|sy]; [reflexivity|].
  destruct (cal_scores b) as [d|]; reflexivity.
Qed.

(** X18. The categories of a conditional predictor are those of the batch
    [(x, y)] passed to [calibrate], whatever [increment] and the stored
    calibration set are. *)
Lemma calibrate_categories_of_batch x y increment b cm :
  conditional b = true ->
  category_map_of (condition b) x y = inr cm ->
  categories (fst (calibrate legacy_mask x y increment b)) = Some (np.unique cm).
Proof.
  intros Hc Hcm. rewrite calibrate_base_unfold.
  unfold calibrate_scores. unfold_monad. simpl. rewrite Hc, Hcm. cbn beta iota.
  apply (for_enumerate_state_inv
           (fun s : BaseIcp X Y Nc => categories s = Some (np.unique cm)));
    [|reflexivity].
  intros _ cond _ s Hs. rewrite calibrate_category_categories. exact Hs.
Qed.

(** X19. After an unconditional calibration the single category holds one score
    per calibration example, provided the nonconformity function returns one
    score per example. *)
Lemma partition_unconditional x y increment b cx cy :
  conditional b = false ->
  let b' := fst (calibrate legacy_mask x y increment b) in
  cal_x b' = Some cx -> cal_y b' = Some cy ->
  length (nc_calc_nc (nc_function b) cx cy) = length cy ->
  categories b' = Some [0%Z]
  /\ table_entries b'
     = {[ 0%Z := rev (np.sort (nc_calc_nc (nc_function b) cx cy)) ]}
  /\ table_size_of b' = cal_size b'.
Proof.
  intros Hc. cbv zeta. rewrite calibrate_base_unfold.
  set (b1 := set_cal b _ _).
  rewrite (calibrate_scores_unconditional legacy_mask x y b1 _ _ Hc eq_refl eq_refl).
  simpl. intros [= <-] [= <-] Hlen.
  split; [reflexivity|]. split; [reflexivity|].
  unfold table_size_of, table_size, cal_size. simpl.
  rewrite map_fold_singleton, length_rev, sort_length, Hlen. lia.
Qed.

End CalibrateResults.

Section IncrementalEquivalence.

Context {X Nc : Type} `{NcFunction Nc X Z}.
Variable legacy_mask : bool.

Implicit Types (st : IcpClassifier X Nc) (x : list X) (y : list Z).
Implicit Types (b : BaseIcp X Z Nc).

Lemma calibrate_unconditional_result x y increment b :
  conditional b = false ->
  calibrate legacy_mask x y increment b
  = (let cx := updated_cal (cal_x b) (cal_y b) x increment in
     let cy := updated_cal (cal_y b) (cal_x b) y increment in
     set_cal_scores (set_categories (set_cal b (Some cx) (Some cy)) [0%Z])
       {| entries := {[ 0%Z := rev (np.sort (nc_calc_nc (nc_function b) cx cy)) ]};
          is_defaultdict := false |},
     inr tt).
Proof.
  intros Hc. rewrite calibrate_base_unfold.
  apply (calibrate_scores_unconditional legacy_mask x y (set_cal b _ _));
    [exact Hc | reflexivity | reflexivity].
Qed.

Lemma incremental_equivalence_base xa ya xb yb b :
  conditional b = false ->
  calibrate legacy_mask (xa ++ xb) (ya ++ yb) false b
  = calibrate legacy_mask xb yb true (fst (calibrate legacy_mask xa ya false b)).
Proof.
  intros Hc.
  rewrite (calibrate_unconditional_result xa ya false b Hc).
  rewrite (calibrate_unconditional_result (xa ++ xb) (ya ++ yb) false b Hc).
  rewrite calibrate_unconditional_result by exact Hc.
  reflexivity.
Qed.

(** X20. For an unconditional classifier, one calibration on the concatenation
    of two batches and a calibration on the first batch followed by an
    incremental one on the second leave the same object: the same
    calibration set, classes and table, hence the same predictions. *)
Lemma incremental_equivalence_unconditional xa ya xb yb st :
  conditional (icp st) = false ->
  IcpClassifier_calibrate legacy_mask (xa ++ xb) (ya ++ yb) false st
  = IcpClassifier_calibrate legacy_mask xb yb true
      (fst (IcpClassifier_calibrate legacy_mask xa ya false st)).
Proof.
  intros Hc. rewrite !calibrate_classifier_unfold.
  cbn [fst snd icp with_base IcpClassifier_object].
  rewrite <- (incremental_equivalence_base xa ya xb yb (icp st) Hc).
  assert (Hcls : updated_classes (classes st) (ya ++ yb) false
                 = updated_classes (Some (updated_classes (classes st) ya false))
                     yb true).
  { unfold updated_classes.
    destruct (classes st); rewrite unique_hstack_unique; reflexivity. }
  unfold set_classes. cbn [classes last_p smoothing icp]. rewrite Hcls.
  reflexivity.
Qed.

End IncrementalEquivalence.

Section Compress.

Import np.

Lemma mapM_lookup_nonzero {A} (m : list bool) : forall (pre a : list A),
  length m = length a ->
  mapM (fun i => (pre ++ a) !! i) (nonzero_from (length pre) m)
  = Some (compress m a).
Proof.
  induction m as [|b m IH]; intros pre a Hlen; [reflexivity|].
  destruct a as [|v a]; [discriminate|]. simpl in Hlen.
  assert (Hrest : mapM (fun i => (pre ++ v :: a) !! i)
                    (nonzero_from (S (length pre)) m) = Some (compress m a)).
  { specialize (IH (pre ++ [v]) a). rewrite length_app, <- app_assoc in IH.
    simpl in IH. rewrite Nat.add_1_r in IH. apply IH. lia. }
  simpl. destruct b; [|exact Hrest].
  simpl. rewrite Hrest. rewrite lookup_app_r by lia.
  rewrite Nat.sub_diag. reflexivity.
Qed.

(** With a boolean index of the length of the array, both readings of numpy
    select the elements at the [True] positions. *)
Lemma mask_index_compress {A} (legacy : bool) (a : list A) (m : list bool) :
  length m = length a -> mask_index legacy a m = inr (compress m a).
Proof.
  intros Hlen. unfold mask_index, nonzero.
  rewrite Hlen, Nat.eqb_refl, andb_false_r.
  pose proof (mapM_lookup_nonzero m [] a Hlen) as Hsel. simpl in Hsel.
  rewrite Hsel. reflexivity.
Qed.

Lemma compress_length_le {A} (m : list bool) : forall a : list A,
  length (compress m a) <= length a.
Proof.
  induction m as [|b m IH]; intros [|v a]; simpl; try lia.
  specialize (IH a). destruct b; simpl; lia.
Qed.

Lemma compress_same_length {A B} (m : list bool) : forall (a : list A) (b : list B),
  length a = length b -> length (compress m a) = length (compress m b).
Proof.
  induction m as [|c m IH]; intros [|v a] [|w b] Hlen; simpl in *;
    try reflexivity; try discriminate.
  destruct c; simpl; rewrite (IH a b) by lia; reflexivity.
Qed.

(** The indicator of one key sums to one over a duplicate-free list that
    contains the key. *)
Lemma sum_indicator (h : Z) (ks : list Z) :
  NoDup ks -> In h ks ->
  sum_list_with (fun c => if (c =? h)%Z then 1 else 0) ks = 1.
Proof.
  induction 1 as [|k ks Hk Hnd IH]; intros Hin; [destruct Hin|].
  simpl. destruct (Z.eqb_spec k h) as [->|Hne].
  - assert (Hzero : forall l, ~ In h l ->
              sum_list_with (fun c => if (c =? h)%Z then 1 else 0) l = 0).
    { induction l as [|c l IHl]; intros Hnot; [reflexivity|]. simpl.
      destruct (Z.eqb_spec c h) as [->|_]; [exfalso; apply Hnot; simpl; auto|].
      apply IHl. intros Hl. apply Hnot. simpl; auto. }
    rewrite Hzero; [reflexivity|]. intros Hl. apply Hk.
    apply list_elem_of_In. exact Hl.
  - destruct Hin as [->|Hin]; [congruence|]. rewrite IH by exact Hin. reflexivity.
Qed.

Lemma sum_list_with_pointwise {A} (f g : A -> nat) (l : list A) :
  (forall c, f c = g c) -> sum_list_with f l = sum_list_with g l.
Proof.
  intros Hfg. induction l as [|c l IH]; [reflexivity|].
  simpl. rewrite Hfg, IH. reflexivity.
Qed.

Lemma sum_list_with_plus {A} (f g : A -> nat) (l : list A) :
  sum_list_with (fun c => f c + g c) l = sum_list_with f l + sum_list_with g l.
Proof.
  induction l as [|c l IH]; [reflexivity|]. simpl. rewrite IH. lia.
Qed.

(** The categories partition the examples: over a duplicate-free list of
    all the categories, the sizes of the selections add up to the number of
    examples. *)
Lemma compress_partition {A} (ks : list Z) : forall (cm : list Z) (a : list A),
  NoDup ks -> (forall c, In c cm -> In c ks) ->
  length cm = length a ->
  sum_list_with (fun c => length (compress (eq_mask cm c) a)) ks = length a.
Proof.
  intros cm a Hnd. revert a.
  induction cm as [|h cm IH]; intros a Hall Hlen.
  - destruct a; [|discriminate]. clear.
    induction ks as [|k ks IHk]; [reflexivity | exact IHk].
  - destruct a as [|v a]; [discriminate|]. simpl in Hlen.
    transitivity (sum_list_with (fun c => if (c =? h)%Z then 1 else 0) ks
                  + sum_list_with
                      (fun c => length (compress (eq_mask cm c) a)) ks).
    + rewrite <- sum_list_with_plus. apply sum_list_with_pointwise.
      intros c. unfold eq_mask. simpl. destruct (c =? h)%Z; reflexivity.
    + rewrite sum_indicator; [|exact Hnd | apply Hall; simpl; auto].
      rewrite IH; [simpl; lia | | lia].
      intros c Hc. apply Hall. simpl; auto.
Qed.

(** Two categories select disjoint sets of examples. *)
Lemma eq_mask_disjoint (cm : list Z) (c1 c2 : Z) (i : nat) :
  c1 <> c2 ->
  eq_mask cm c1 !! i = Some true -> eq_mask cm c2 !! i = Some true -> False.
Proof.
  intros Hne. unfold eq_mask.
  change (map (Z.eqb c1) cm) with (Z.eqb c1 <$> cm).
  change (map (Z.eqb c2) cm) with (Z.eqb c2 <$> cm).
  rewrite !list_lookup_fmap.
  destruct (cm !! i) as [k|]; simpl; [|discriminate].
  intros [= H1] [= H2]. apply Z.eqb_eq in H1, H2. congruence.
Qed.

Lemma unique_NoDup (l : list Z) : NoDup (unique l).
Proof.
  pose proof (unique_sorted l) as Hs.
  induction Hs as [|h t Ht IH Hh]; constructor; [|exact IH].
  intros Hin. apply list_elem_of_In in Hin.
  rewrite List.Forall_forall in Hh. specialize (Hh h Hin). lia.
Qed.

End Compress.

Section CalibrateConditional.

Context {X Y Nc : Type} `{NcFunction Nc X Y}.
Variable legacy_mask : bool.

Implicit Types (b : BaseIcp X Y Nc) (x : list X) (y : list Y).

Lemma category_map_from_zip (cond : X * option Y -> Z) :
  forall y x px py,
    length px = length py -> length x = length y ->
    category_map_from cond (px ++ x) (py ++ y) (length px) (length y)
    = inr (zip_with (fun xi yi => cond (xi, Some yi)) x y).
Proof.
  induction y as [|yi y IH]; intros x px py Hp Hlen; [destruct x; reflexivity|].
  destruct x as [|xi x]; [discriminate|]. simpl in Hlen.
  cbn [length category_map_from]. unfold np.item.
  rewrite lookup_app_r by lia. rewrite Nat.sub_diag.
  rewrite lookup_app_r by lia. replace (length px - length py) with 0 by lia.
  cbn [lookup list_lookup].
  specialize (IH x (px ++ [xi]) (py ++ [yi])).
  rewrite !length_app, <- !app_assoc in IH. simpl in IH.
  rewrite Nat.add_1_r in IH. rewrite IH by lia. reflexivity.
Qed.

(** The category of every example, when there is one label per row. *)
Lemma category_map_of_zip (cond : X * option Y -> Z) x y :
  length x = length y ->
  category_map_of cond x y
  = inr (zip_with (fun xi yi => cond (xi, Some yi)) x y).
Proof.
  intros Hlen. exact (category_map_from_zip cond y x [] [] eq_refl Hlen).
Qed.

Lemma table_size_setitem d k a :
  entries d !! k = None ->
  table_size (dict_setitem d k a) = length a + table_size d.
Proof.
  intros Hk. unfold table_size, dict_setitem. simpl.
  apply (map_fold_insert_L (fun (_ : Z) (a : list Q) n => length a + n));
    [|exact Hk].
  intros. lia.
Qed.

(** One iteration of the loop of [calibrate] when the categories are those
    of the stored calibration set. *)
Lemma calibrate_category_aligned cm cond b cx cy d :
  cal_x b = Some cx -> cal_y b = Some cy -> cal_scores b = Some d ->
  length cm = length cx -> length cm = length cy ->
  calibrate_category legacy_mask cm cond b
  = (set_cal_scores b
       (dict_setitem d cond (category_scores_of (nc_function b) cm cx cy cond)),
     inr tt).
Proof.
  intros Hx Hy Hd Hlx Hly. unfold calibrate_category. unfold_monad.
  rewrite Hx, Hy, Hd. cbn beta iota.
  rewrite !mask_index_compress by (unfold np.eq_mask; rewrite length_map; lia).
  reflexivity.
Qed.

(** The loop of [calibrate] over duplicate-free categories that the table
    does not hold yet: it returns, every category receives the scores of its
    own examples, and the table grows by one score per selected example. *)
Lemma calibrate_loop_aligned cm cx cy :
  length cm = length cx -> length cm = length cy ->
  forall cats start b d,
    NoDup cats ->
    cal_x b = Some cx -> cal_y b = Some cy -> cal_scores b = Some d ->
    (forall c, c ∈ cats -> entries d !! c = None) ->
    (forall sx sy, length sx = length sy ->
                   length (nc_calc_nc (nc_function b) sx sy) = length sy) ->
    exists d',
      for_enumerate (fun _ cond _ => calibrate_category legacy_mask cm cond)
        start cats tt b = (set_cal_scores b d', inr tt)
      /\ is_defaultdict d' = is_defaultdict d
      /\ (forall k, entries d' !! k
                    = if decide (k ∈ cats)
                      then Some (category_scores_of (nc_function b) cm cx cy k)
                      else entries d !! k)
      /\ table_size d'
         = table_size d
           + sum_list_with (fun c => length (compress (np.eq_mask cm c) cy)) cats.
Proof.
  intros Hlx Hly cats.
  induction cats as [|c cats IH]; intros start b d Hnd Hx Hy Hd Hfresh Hnc.
  - exists d. simpl. unfold ret. split.
    + f_equal. destruct b; simpl in *; subst; reflexivity.
    + split; [reflexivity|]. split; [intros k; reflexivity | lia].
  - apply NoDup_cons in Hnd as [Hc Hnd'].
    cbn [for_enumerate]. unfold bind.
    rewrite (calibrate_category_aligned cm c b cx cy d Hx Hy Hd Hlx Hly).
    set (d1 := dict_setitem d c (category_scores_of (nc_function b) cm cx cy c)).
    destruct (IH (S start) (set_cal_scores b d1) d1 Hnd' Hx Hy eq_refl)
      as (d' & Hrun & Hdef & Hent & Hsize).
    + intros c' Hc'. unfold d1. simpl. rewrite lookup_insert_ne.
      * apply Hfresh. apply elem_of_cons. right. exact Hc'.
      * intros ->. exact (Hc Hc').
    + exact Hnc.
    + assert (Hhead : c ∈ c :: cats) by (apply elem_of_cons; left; reflexivity).
      exists d'. split; [rewrite Hrun; reflexivity|].
      split; [rewrite Hdef; reflexivity|]. split.
      * intros k. rewrite Hent. simpl nc_function.
        destruct (decide (k ∈ cats)) as [Hk|Hk].
        -- rewrite decide_True by (apply elem_of_cons; right; exact Hk).
           reflexivity.
        -- unfold d1. simpl. destruct (decide (c = k)) as [->|Hne].
           ++ rewrite lookup_insert_eq, decide_True by exact Hhead. reflexivity.
           ++ rewrite lookup_insert_ne by exact Hne.
              rewrite decide_False; [reflexivity|].
              rewrite elem_of_cons. intros [->|Hin]; [apply Hne; reflexivity|].
              exact (Hk Hin).
      * rewrite Hsize. unfold d1.
        rewrite table_size_setitem by (apply Hfresh; exact Hhead).
        unfold category_scores_of. rewrite length_rev, sort_length.
        rewrite Hnc by (apply compress_same_length; lia).
        simpl. lia.
Qed.

(** X21. A conditional calibration that replaces the calibration set, with one
    label per row and a nonconformity function that returns one score per
    example: [calibrate] returns; the categories are those of the examples;
    every category holds the scores of exactly its own examples; and the
    sizes of the arrays add up to the size of the calibration set. *)
Lemma partition_conditional_replace x y b :
  conditional b = true ->
  length x = length y ->
  (forall sx sy, length sx = length sy ->
                 length (nc_calc_nc (nc_function b) sx sy) = length sy) ->
  let cm := zip_with (fun xi yi => condition b (xi, Some yi)) x y in
  let r := calibrate legacy_mask x y false b in
  snd r = inr tt
  /\ cal_x (fst r) = Some x /\ cal_y (fst r) = Some y
  /\ categories (fst r) = Some (np.unique cm)
  /\ (forall k, table_entries (fst r) !! k
                = if decide (k ∈ cm)
                  then Some (category_scores_of (nc_function b) cm x y k)
                  else None)
  /\ table_size_of (fst r) = cal_size (fst r).
Proof.
  intros Hc Hlen Hnc. cbv zeta. rewrite calibrate_base_unfold.
  unfold calibrate_scores. unfold_monad.
  cbn [updated_cal conditional condition set_cal].
  rewrite Hc. rewrite (category_map_of_zip _ x y Hlen).
  cbn beta iota.
  set (cm := zip_with (fun xi yi => condition b (xi, Some yi)) x y).
  assert (Hcm : length cm = length y).
  { unfold cm. rewrite length_zip_with. lia. }
  set (b1 := set_cal_scores _ _).
  destruct (calibrate_loop_aligned cm x y (eq_trans Hcm (eq_sym Hlen)) Hcm
              (np.unique cm) 0 b1 {| entries := ∅; is_defaultdict := true |}
              (unique_NoDup cm) eq_refl eq_refl eq_refl)
    as (d' & Hrun & Hdef & Hent & Hsize).
  - intros c _. apply lookup_empty.
  - exact Hnc.
  - rewrite Hrun. cbn [fst snd].
    split; [reflexivity|]. split; [reflexivity|]. split; [reflexivity|].
    split; [reflexivity|]. split.
    + intros k. unfold table_entries. simpl. rewrite Hent.
      destruct (decide (k ∈ np.unique cm)) as [Hk|Hk];
        destruct (decide (k ∈ cm)) as [Hk'|Hk'];
        try reflexivity; try apply lookup_empty.
      * exfalso. apply Hk'. apply list_elem_of_In, unique_In, list_elem_of_In.
        exact Hk.
      * exfalso. apply Hk. apply list_elem_of_In, unique_In, list_elem_of_In.
        exact Hk'.
    + unfold table_size_of, cal_size. simpl. rewrite Hsize.
      rewrite compress_partition;
        [unfold table_size; simpl; rewrite map_fold_empty; lia
        | apply unique_NoDup | intros c; apply unique_In | exact Hcm].
Qed.

End CalibrateConditional.

(** * IcpRegressor.predict *)

Section Masks.

Import np.

Lemma nonzero_from_bounds (m : list bool) : forall s,
  Forall (fun i => s <= i < s + length m) (nonzero_from s m).
Proof.
  induction m as [|b m IH]; intros s; simpl; [constructor|].
  assert (Hrest : Forall (fun i => s <= i < s + S (length m))
                    (nonzero_from (S s) m)).
  { eapply Forall_impl; [apply IH|]. simpl. intros i Hi. lia. }
  destruct b; [constructor; [lia | exact Hrest] | exact Hrest].
Qed.

(** A boolean index of the length of the array selects one element per
    [True] entry, in either reading of numpy. *)
Lemma mask_index_same_length {A} (legacy : bool) (a : list A) (m : list bool) :
  length m = length a ->
  exists r, mask_index legacy a m = inr r /\ length r = length (nonzero m).
Proof.
  intros Hlen. unfold mask_index.
  rewrite Hlen, Nat.eqb_refl, andb_false_r.
  destruct (mapM (fun i => a !! i) (nonzero m)) as [r|] eqn:Hr.
  - exists r. split; [reflexivity|]. symmetry. eapply length_mapM. exact Hr.
  - exfalso. apply mapM_None in Hr. apply Exists_exists in Hr as (i & Hi & Hnone).
    pose proof (nonzero_from_bounds m 0) as Hb.
    rewrite Forall_forall in Hb. specialize (Hb i Hi).
    apply lookup_ge_None in Hnone. lia.
Qed.

End Masks.

Section RegressorPredict.

Context {X Y Nc : Type} `{NcRegressor Nc X Y}.
Variable legacy_mask : bool.

Implicit Types (st : IcpRegressor X Y Nc) (x : list X).

Lemma scatter_length (prediction : list bounds) : forall idx p,
  length (scatter prediction idx p) = length prediction.
Proof.
  induction prediction as [|r pr IH]; intros idx p; [reflexivity|].
  destruct idx as [|[] idx]; simpl; [reflexivity | |].
  - destruct p; simpl; rewrite IH; reflexivity.
  - rewrite IH; reflexivity.
Qed.

(** [predict] forwards the significance to the nonconformity function and
    assembles what it returns: when that function returns one interval per
    example at [significance], [predict] returns, whatever the value of
    [significance]. *)
Lemma IcpRegressor_predict_returns x (s : Q) st cats d :
  categories (reg_icp st) = Some cats ->
  cal_scores (reg_icp st) = Some d ->
  (forall c, In c cats -> is_Some (scores_of d c)) ->
  (forall xs scores,
      let p := nc_predict (nc_function (reg_icp st)) xs scores (Some s) in
      length p = length xs /\ forallb (shape_ok 1) p = true) ->
  exists st' prediction,
    IcpRegressor_predict legacy_mask x (Some s) st = (st', inr prediction)
    /\ length prediction = length x.
Proof.
  intros Hcats Hd Hkeys Hnc. unfold IcpRegressor_predict. unfold_monad.
  rewrite Hcats. cbn beta iota.
  set (cm := map (fun xi => condition (reg_icp st) (xi, None)) x).
  set (I := fun (s' : IcpRegressor X Y Nc) (pr : list bounds) =>
              length pr = length x
              /\ nc_function (reg_icp s') = nc_function (reg_icp st)
              /\ exists d', cal_scores (reg_icp s') = Some d'
                            /\ forall c, scores_of d' c = scores_of d c).
  destruct (for_enumerate_returns (fun _ c => is_Some (scores_of d c)) I
              (fun _ cond => predict_category legacy_mask x (Some s) 1 cm cond))
    with (l := cats) (start := 0)
         (acc := replicate (length x) (zero_bounds 1)) (st := st)
    as (st' & pr & Hrun & Hlen & _).
  - intros _ c pr s' Hc (Hlen & Hncf & d' & Hd' & Hsame).
    unfold predict_category.
    destruct (0 <? length (np.nonzero (np.eq_mask cm c))) eqn:Hk;
      [|exists s', pr; split; [reflexivity|];
        split; [exact Hlen|]; split; [exact Hncf|]; exists d'; auto].
    unfold_monad.
    destruct (mask_index_same_length legacy_mask x (np.eq_mask cm c))
      as (sel_x & Hsel & Hsel_len).
    { unfold np.eq_mask, cm. rewrite !length_map. reflexivity. }
    rewrite Hsel, Hd'. cbn beta iota.
    pose proof (dict_getitem_result d' c) as Hr.
    pose proof (dict_getitem_scores_of d' c) as Hs.
    destruct (dict_getitem d' c) as [d'' r]. simpl in Hr, Hs. subst r.
    rewrite Hsame. destruct Hc as [scores Hscores]. rewrite Hscores.
    cbn beta iota. rewrite Hncf.
    destruct (Hnc sel_x scores) as [Hplen Hshape].
    unfold assign_rows. rewrite Hshape, Hplen, Hsel_len, Nat.eqb_refl.
    eexists _, _. split; [reflexivity|].
    split; [rewrite scatter_length; exact Hlen|].
    split; [exact Hncf|]. exists d''. split; [reflexivity|].
    intros k. rewrite Hs. apply Hsame.
  - intros k c Hk. apply Hkeys. apply list_elem_of_In.
    eapply list_elem_of_lookup_2. exact Hk.
  - split; [apply length_replicate|]. split; [reflexivity|].
    exists d. split; [exact Hd | reflexivity].
  - exists st', pr. split; [exact Hrun | exact Hlen].
Qed.

End RegressorPredict.

(** * The rows of the result of IcpRegressor.predict *)

Section RegressorRowsLemmas.

Context {X Y Nc : Type} `{NcRegressor Nc X Y}.
Variable legacy_mask : bool.

Implicit Types (rg : IcpRegressor X Y Nc) (x : list X).

Lemma scatter_keep (prediction : list bounds) : forall idx p j,
  idx !! j = Some false -> scatter prediction idx p !! j = prediction !! j.
Proof.
  induction prediction as [|r pr IH]; intros idx p j Hj; [reflexivity|].
  destruct idx as [|b idx]; [discriminate|].
  destruct j as [|j].
  - injection Hj as ->. reflexivity.
  - simpl in Hj. destruct b; simpl.
    + destruct p; simpl; apply IH; exact Hj.
    + apply IH. exact Hj.
Qed.

Lemma assign_rows_keep n prediction idx p prediction' j :
  assign_rows n prediction idx p = inr prediction' ->
  idx !! j = Some false ->
  prediction' !! j = prediction !! j.
Proof.
  unfold assign_rows. intros Hrun Hj.
  destruct (forallb (shape_ok n) p); [|discriminate].
  destruct (length p =? length (np.nonzero idx)).
  - injection Hrun as <-. apply scatter_keep. exact Hj.
  - destruct p as [|b [|? ?]]; try discriminate.
    injection Hrun as <-. apply scatter_keep. exact Hj.
Qed.

(** A completed iteration of the loop over the categories changes only the
    rows of the examples of its category. *)
Lemma predict_category_keep x significance n cm cond prediction rg rg'
    prediction' j :
  predict_category legacy_mask x significance n cm cond prediction rg
  = (rg', inr prediction') ->
  np.eq_mask cm cond !! j = Some false ->
  prediction' !! j = prediction !! j.
Proof.
  unfold predict_category. intros Hrun Hj.
  destruct (0 <? length (np.nonzero (np.eq_mask cm cond)));
    [|unfold ret in Hrun; injection Hrun as _ <-; reflexivity].
  unfold_monad.
  destruct (np.mask_index legacy_mask x _) as [e|sel_x]; [discriminate|].
  destruct (cal_scores (reg_icp rg)) as [d|]; [|discriminate].
  cbn beta iota in Hrun.
  destruct (dict_getitem d cond) as [d' [e|scores]]; [discriminate|].
  cbn beta iota in Hrun.
  destruct (assign_rows n prediction _ _) as [e|pr] eqn:Ha; [discriminate|].
  injection Hrun as _ <-. eapply assign_rows_keep; eassumption.
Qed.

Lemma nonzero_from_shift (m : list bool) : forall s s',
  length (np.nonzero_from s m) = length (np.nonzero_from s' m).
Proof.
  induction m as [|b m IH]; intros s s'; [reflexivity|].
  simpl. destruct b; simpl; rewrite (IH (S s) (S s')); reflexivity.
Qed.

Lemma compress_scatter (prediction : list bounds) : forall idx p,
  length prediction = length idx ->
  length p = length (np.nonzero idx) ->
  compress idx (scatter prediction idx p) = p.
Proof.
  unfold np.nonzero.
  induction prediction as [|r pr IH]; intros [|b idx] p Hpr Hp;
    try discriminate.
  - destruct p; [reflexivity | discriminate].
  - simpl in Hpr. destruct b.
    + destruct p as [|q p]; [discriminate|]. simpl. f_equal.
      apply IH; [lia|]. simpl in Hp.
      rewrite (nonzero_from_shift idx 0 1). lia.
    + simpl. apply IH; [lia|]. simpl in Hp.
      rewrite (nonzero_from_shift idx 0 1). exact Hp.
Qed.

Lemma compress_ext {A} (m : list bool) : forall a b : list A,
  length a = length b ->
  (forall j, m !! j = Some true -> a !! j = b !! j) ->
  compress m a = compress m b.
Proof.
  induction m as [|c m IH]; intros [|v a] [|w b] Hlen Hsame;
    try reflexivity; try discriminate.
  simpl. rewrite (IH a b); [| simpl in Hlen; lia |].
  - destruct c; [|reflexivity].
    specialize (Hsame 0 eq_refl). injection Hsame as ->. reflexivity.
  - intros j Hj. exact (Hsame (S j) Hj).
Qed.

Lemma eq_mask_other (cm : list Z) (c c0 : Z) (j : nat) :
  c <> c0 ->
  np.eq_mask cm c !! j = Some true -> np.eq_mask cm c0 !! j = Some false.
Proof.
  intros Hne. unfold np.eq_mask.
  change (map (Z.eqb c) cm) with (Z.eqb c <$> cm).
  change (map (Z.eqb c0) cm) with (Z.eqb c0 <$> cm).
  rewrite !list_lookup_fmap. destruct (cm !! j) as [k|]; simpl; [|discriminate].
  intros [= Hk]. apply Z.eqb_eq in Hk. subst k. f_equal.
  apply Z.eqb_neq. congruence.
Qed.

Lemma predict_category_rows x significance n cm cond prediction rg0 d rg rg'
    prediction' :
  length cm = length x ->
  rows_inv rg0 d (length x) rg prediction ->
  predict_category legacy_mask x significance n cm cond prediction rg
  = (rg', inr prediction') ->
  rows_inv rg0 d (length x) rg' prediction'
  /\ (compress (np.eq_mask cm cond) x <> [] ->
      exists scores,
        scores_of d cond = Some scores
        /\ let p := nc_predict (nc_function (reg_icp rg0))
                      (compress (np.eq_mask cm cond) x) scores significance in
           (length p = length (compress (np.eq_mask cm cond) x) ->
            compress (np.eq_mask cm cond) prediction' = p)).
Proof.
  intros Hcm (Hlen & Hnc & d' & Hd' & Hsame) Hrun.
  unfold predict_category in Hrun.
  assert (Hmask : length (np.eq_mask cm cond) = length x)
    by (unfold np.eq_mask; rewrite length_map; exact Hcm).
  destruct (mask_index_same_length legacy_mask x (np.eq_mask cm cond) Hmask)
    as (sel & Hsel & Hsel_len).
  pose proof (mask_index_compress legacy_mask x (np.eq_mask cm cond) Hmask)
    as Hsel'.
  rewrite Hsel in Hsel'. injection Hsel' as ->.
  destruct (0 <? length (np.nonzero (np.eq_mask cm cond))) eqn:Hk.
  - unfold_monad. rewrite Hsel, Hd' in Hrun. cbn beta iota in Hrun.
    pose proof (dict_getitem_result d' cond) as Hr.
    pose proof (dict_getitem_scores_of d' cond) as Hs.
    destruct (dict_getitem d' cond) as [d'' r]. simpl in Hr, Hs. subst r.
    rewrite Hsame in Hrun.
    destruct (scores_of d cond) as [scores|]; [|discriminate].
    cbn beta iota in Hrun. rewrite Hnc in Hrun.
    set (p := nc_predict _ _ scores significance) in *.
    destruct (assign_rows n prediction (np.eq_mask cm cond) p)
      as [e|pr] eqn:Ha; [discriminate|].
    injection Hrun as <- <-. split.
    + split; [|split; [exact Hnc|]].
      * unfold assign_rows in Ha.
        destruct (forallb (shape_ok n) p); [|discriminate].
        destruct (length p =? _); [injection Ha as <-; rewrite scatter_length;
                                   exact Hlen|].
        destruct p as [|b [|? ?]]; try discriminate.
        injection Ha as <-. rewrite scatter_length. exact Hlen.
      * exists d''. split; [reflexivity|]. intros k. rewrite Hs. apply Hsame.
    + intros _. exists scores. split; [reflexivity|]. cbv zeta. intros Hp.
      unfold assign_rows in Ha.
      destruct (forallb (shape_ok n) p); [|discriminate].
      fold p in Hp. rewrite Hp, Hsel_len, Nat.eqb_refl in Ha.
      injection Ha as <-.
      apply compress_scatter;
        [lia | etransitivity; [exact Hp | exact Hsel_len]].
  - unfold ret in Hrun. injection Hrun as <- <-. split.
    + split; [exact Hlen|]. split; [exact Hnc|]. exists d'. auto.
    + intros Hne. exfalso. apply Hne. apply Nat.ltb_ge in Hk.
      destruct (compress (np.eq_mask cm cond) x); [reflexivity|].
      simpl in Hsel_len. lia.
Qed.

Lemma predict_loop_rows x significance n cm rg0 d : forall cats start
    prediction rg rg' prediction',
  length cm = length x ->
  rows_inv rg0 d (length x) rg prediction ->
  for_enumerate
    (fun _ cond => predict_category legacy_mask x significance n cm cond)
    start cats prediction rg = (rg', inr prediction') ->
  length prediction' = length x
  /\ (forall c, c ∉ cats ->
        compress (np.eq_mask cm c) prediction'
        = compress (np.eq_mask cm c) prediction)
  /\ (forall c, c ∈ cats -> compress (np.eq_mask cm c) x <> [] ->
        exists scores,
          scores_of d c = Some scores
          /\ let p := nc_predict (nc_function (reg_icp rg0))
                        (compress (np.eq_mask cm c) x) scores significance in
             (length p = length (compress (np.eq_mask cm c) x) ->
              compress (np.eq_mask cm c) prediction' = p)).
Proof.
  induction cats as [|c0 cats IH];
    intros start prediction rg rg' prediction' Hcm Hinv Hrun.
  - simpl in Hrun. unfold ret in Hrun. injection Hrun as <- <-.
    split; [apply Hinv|]. split; [reflexivity|].
    intros c Hc. apply elem_of_nil in Hc. destruct Hc.
  - simpl in Hrun. unfold bind in Hrun.
    destruct (predict_category legacy_mask x significance n cm c0 prediction rg)
      as [rg1 [e|pr1]] eqn:Hbody; [discriminate|].
    destruct (predict_category_rows x significance n cm c0 prediction rg0 d rg
                rg1 pr1 Hcm Hinv Hbody) as [Hinv1 Hrows1].
    destruct (IH (S start) pr1 rg1 rg' prediction' Hcm Hinv1 Hrun)
      as (Hlen' & Hkeep & Hrows).
    assert (Hother : forall c, c <> c0 ->
              compress (np.eq_mask cm c) pr1
              = compress (np.eq_mask cm c) prediction).
    { intros c Hne. apply compress_ext.
      - destruct Hinv as [Hl _], Hinv1 as [Hl1 _]. lia.
      - intros j Hj. eapply predict_category_keep; [exact Hbody|].
        eapply eq_mask_other; eassumption. }
    split; [exact Hlen'|]. split.
    + intros c Hc. apply not_elem_of_cons in Hc as [Hne Hc].
      rewrite (Hkeep c Hc). apply Hother. exact Hne.
    + intros c Hc Hsel. apply elem_of_cons in Hc as [->|Hc].
      * destruct (decide (c0 ∈ cats)) as [Hagain|Hc0];
          [exact (Hrows c0 Hagain Hsel)|].
        destruct (Hrows1 Hsel) as (scores & Hscores & Hp).
        exists scores. split; [exact Hscores|]. cbv zeta. intros Hplen.
        rewrite (Hkeep c0 Hc0). apply Hp. exact Hplen.
      * exact (Hrows c Hc Hsel).
Qed.

(** The loop over the categories leaves the row of an example whose
    category is not in the list as it was. *)
Lemma predict_loop_keep x significance n cm : forall cats start prediction
    rg rg' prediction' j k,
  for_enumerate
    (fun _ cond => predict_category legacy_mask x significance n cm cond)
    start cats prediction rg = (rg', inr prediction') ->
  cm !! j = Some k -> k ∉ cats ->
  prediction' !! j = prediction !! j.
Proof.
  induction cats as [|c0 cats IH];
    intros start prediction rg rg' prediction' j k Hrun Hj Hk.
  - simpl in Hrun. unfold ret in Hrun. injection Hrun as _ <-. reflexivity.
  - apply not_elem_of_cons in Hk as [Hne Hk].
    simpl in Hrun. unfold bind in Hrun.
    destruct (predict_category legacy_mask x significance n cm c0 prediction rg)
      as [rg1 [e|pr1]] eqn:Hbody; [discriminate|].
    rewrite (IH _ _ _ _ _ j k Hrun Hj Hk).
    eapply predict_category_keep; [exact Hbody|].
    unfold np.eq_mask. change (map (Z.eqb c0) cm) with (Z.eqb c0 <$> cm).
    rewrite list_lookup_fmap, Hj. simpl. f_equal.
    apply Z.eqb_neq. congruence.
Qed.

End RegressorRowsLemmas.

(** * Properties of IcpClassifier.predict *)

Section PredictProperties.

Context {X Nc : Type} `{NcFunction Nc X Z}.
Context {strict_setitem : bool}.

Implicit Types (st s : IcpClassifier X Nc) (x : list X).
Implicit Types (U : nat -> nat -> Q) (p : list (list Q)).

Lemma cell_map_map {A B} (f : A -> B) (q : list (list A)) (j i : nat) :
  cell (map (map f) q) j i = f <$> cell q j i.
Proof.
  unfold cell. change (map (map f) q) with (map f <$> q).
  rewrite list_lookup_fmap. destruct (q !! j) as [row|]; simpl; [|reflexivity].
  change (map f row) with (f <$> row). apply list_lookup_fmap.
Qed.

(** The p-value of a pair over a table of descending arrays. *)
Lemma p_value_counts_descending x U st st' p cs i c j nc :
  (forall d, cal_scores (icp st) = Some d -> table_descending d) ->
  p_values strict_setitem x U st = (st', inr p) ->
  classes st = Some cs ->
  cs !! i = Some c ->
  test_nc_scores st x c !! j = Some nc ->
  exists xj stored v,
    x !! j = Some xj
    /\ category_scores (icp st) (condition (icp st) (xj, Some c)) = Some stored
    /\ cell p j i = Some v
    /\ let cal := rev stored in
       let n_cal := Z.of_nat (length cal) in
       let idx_left := Z.of_nat (np.searchsorted cal nc np.side_left) in
       let idx_right := Z.of_nat (np.searchsorted cal nc np.side_right) in
       n_cal = Z.of_nat (length stored)
       /\ n_gt cal nc = (n_cal - idx_right)%Z
       /\ n_gt cal nc = Z.of_nat (count_gt nc stored)
       /\ n_eq cal nc = (idx_right - idx_left + 1)%Z
       /\ n_eq cal nc = (Z.of_nat (count_eq nc stored) + 1)%Z
       /\ (v == inject_Z (n_gt cal nc) / inject_Z (n_cal + 1)
                + (if smoothing st
                   then inject_Z (n_eq cal nc) * U j i / inject_Z (n_cal + 1)
                   else inject_Z (n_eq cal nc) / inject_Z (n_cal + 1)))%Q.
Proof.
  intros Hsorted Hrun Hcs Hi Hj.
  destruct (p_values_cells x U st st' p Hrun) as (_ & cs' & Hcs' & Hcells).
  rewrite Hcs in Hcs'. injection Hcs' as <-.
  destruct (Hcells i c Hi) as [Hset _].
  destruct (Hset j nc Hj) as (xj & stored & Hxj & Hst & Hcell).
  exists xj, stored, (p_value (smoothing st) (rev stored) nc (U j i)).
  split; [exact Hxj|]. split; [exact Hst|]. split; [exact Hcell|].
  assert (Hdesc : descending stored).
  { unfold category_scores in Hst.
    destruct (cal_scores (icp st)) as [d|] eqn:Hd; [|discriminate].
    unfold scores_of in Hst.
    destruct (entries d !! _) as [a|] eqn:Ha.
    - injection Hst as <-. exact (Hsorted d eq_refl _ _ Ha).
    - destruct (is_defaultdict d); [|discriminate].
      injection Hst as <-. constructor. }
  cbv zeta. split; [rewrite length_rev; reflexivity|].
  split; [reflexivity|]. split; [apply n_gt_count; exact Hdesc|].
  split; [reflexivity|]. split; [apply n_eq_count; exact Hdesc|].
  unfold p_value. destruct (smoothing st); reflexivity.
Qed.

(** C3. For every reachable classifier, test example [j] and candidate
    class [c] (column [i]), with [stored] the score array of the category
    of [(x_j, c)] and [nc] the test score: [n_gt] is the number of
    calibration scores strictly greater than [nc], [n_eq] is the number of
    calibration scores equal to [nc] plus one, both obtained from the
    leftmost and rightmost insertion points of the binary search, and
    [p[j, i]] is [n_gt / (n_cal + 1)] plus [n_eq * U / (n_cal + 1)] with
    smoothing, [n_eq / (n_cal + 1)] without. *)
Theorem predict_p_value_counts legacy_mask x U st st' p cs i c j nc :
  reachable legacy_mask strict_setitem st ->
  p_values strict_setitem x U st = (st', inr p) ->
  classes st = Some cs ->
  cs !! i = Some c ->
  test_nc_scores st x c !! j = Some nc ->
  exists xj stored v,
    x !! j = Some xj
    /\ category_scores (icp st) (condition (icp st) (xj, Some c)) = Some stored
    /\ cell p j i = Some v
    /\ let cal := rev stored in
       let n_cal := Z.of_nat (length cal) in
       let idx_left := Z.of_nat (np.searchsorted cal nc np.side_left) in
       let idx_right := Z.of_nat (np.searchsorted cal nc np.side_right) in
       n_cal = Z.of_nat (length stored)
       /\ n_gt cal nc = (n_cal - idx_right)%Z
       /\ n_gt cal nc = Z.of_nat (count_gt nc stored)
       /\ n_eq cal nc = (idx_right - idx_left + 1)%Z
       /\ n_eq cal nc = (Z.of_nat (count_eq nc stored) + 1)%Z
       /\ (v == inject_Z (n_gt cal nc) / inject_Z (n_cal + 1)
                + (if smoothing st
                   then inject_Z (n_eq cal nc) * U j i / inject_Z (n_cal + 1)
                   else inject_Z (n_eq cal nc) / inject_Z (n_cal + 1)))%Q.
Proof.
  intros Hreach. apply p_value_counts_descending.
  intros d Hd. exact (proj1 (reachable_table_ok legacy_mask st Hreach d Hd)).
Qed.

(** C7. With smoothing disabled and significance levels [a1 < a2], every
    label that [predict] includes at [a2] is included at [a1]; the two
    calls raise the same exception when they raise. *)
Theorem prediction_set_monotone x U1 U2 st (a1 a2 : Q) :
  (a1 < a2)%Q ->
  smoothing st = false ->
  match snd (IcpClassifier_predict strict_setitem x (Some a1) U1 st),
        snd (IcpClassifier_predict strict_setitem x (Some a2) U2 st) with
  | inr (Included b1), inr (Included b2) =>
      forall j i, cell b2 j i = Some true -> cell b1 j i = Some true
  | inl e1, inl e2 => e1 = e2
  | _, _ => False
  end.
Proof.
  intros Ha Hs. rewrite !IcpClassifier_predict_p_values.
  rewrite (p_values_no_draw x U1 U2 st Hs).
  destruct (p_values strict_setitem x U2 st) as [st' [e|p]]; simpl; [reflexivity|].
  intros j i. rewrite !cell_map_map.
  destruct (cell p j i) as [v|]; simpl; [|discriminate].
  intros [= Hv]. f_equal. unfold Qgtb in *. Qbool_to_prop.
  apply Qltb_lt. lra.
Qed.

(** C8. Every p-value [predict] returns lies in [0, 1], whatever the state,
    the test examples and the draws in [0, 1) of the smoothing variable;
    with smoothing disabled the result does not depend on the draws, and a
    second call on the object the first call leaves returns the same
    matrix. *)
Theorem p_values_unit_interval_deterministic x st :
  (forall U st' p j i v,
      (smoothing st = true -> forall j i, (0 <= U j i < 1)%Q) ->
      IcpClassifier_predict strict_setitem x None U st = (st', inr (PValues p)) ->
      cell p j i = Some v ->
      (0 <= v <= 1)%Q)
  /\ (smoothing st = false ->
      forall U1 U2,
        IcpClassifier_predict strict_setitem x None U1 st
          = IcpClassifier_predict strict_setitem x None U2 st
        /\ snd (IcpClassifier_predict strict_setitem x None U2
                  (fst (IcpClassifier_predict strict_setitem x None U1 st)))
           = snd (IcpClassifier_predict strict_setitem x None U1 st)).
Proof.
  split.
  - intros U st' p j i v HU Hrun Hcell.
    rewrite IcpClassifier_predict_p_values in Hrun.
    destruct (p_values strict_setitem x U st) as [st1 [e|p1]] eqn:Hp; [discriminate|].
    injection Hrun as <- <-.
    eapply in_unit_cell; [|exact Hcell].
    eapply p_values_in_unit; eassumption.
  - intros Hs U1 U2. split.
    + rewrite !IcpClassifier_predict_p_values.
      rewrite (p_values_no_draw x U1 U2 st Hs). reflexivity.
    + assert (Hu : draws_agree st U2 U1).
      { intros Hs'. congruence. }
      destruct (IcpClassifier_predict_agree (strict_setitem := strict_setitem) st U1 U1 x None st st)
        as [_ [_ Hview]]; [intros _; reflexivity | split; apply same_view_refl |].
      destruct (IcpClassifier_predict_agree (strict_setitem := strict_setitem) st U2 U1 x None
                  (fst (IcpClassifier_predict strict_setitem x None U1 st)) st Hu)
        as [Hr _]; [split; [exact Hview | apply same_view_refl]|].
      exact Hr.
Qed.

(** The p-value of a pair whose category is missing from a
    [defaultdict]. *)
Lemma missing_key_p_value x U st d cs i c j nc xj :
  smoothing st = false ->
  cal_scores (icp st) = Some d ->
  is_defaultdict d = true ->
  classes st = Some cs ->
  cs !! i = Some c ->
  test_nc_scores st x c !! j = Some nc ->
  x !! j = Some xj ->
  entries d !! condition (icp st) (xj, Some c) = None ->
  category_scores (icp st) (condition (icp st) (xj, Some c)) = Some []
  /\ (forall st' p,
        IcpClassifier_predict strict_setitem x None U st = (st', inr (PValues p)) ->
        exists v, cell p j i = Some v /\ (v == 1)%Q)
  /\ (forall (s : Q) st' b,
        (s < 1)%Q ->
        IcpClassifier_predict strict_setitem x (Some s) U st = (st', inr (Included b)) ->
        cell b j i = Some true).
Proof.
  intros Hs Hd Hdef Hcs Hi Hj Hxj Hmiss.
  assert (Hcat : category_scores (icp st) (condition (icp st) (xj, Some c))
                 = Some []).
  { unfold category_scores, scores_of. rewrite Hd, Hmiss, Hdef. reflexivity. }
  assert (Hcell : forall st' p, p_values strict_setitem x U st = (st', inr p) ->
            cell p j i = Some (p_value false [] nc (U j i))).
  { intros st' p Hrun.
    destruct (p_values_cells x U st st' p Hrun) as (_ & cs' & Hcs' & Hcells).
    rewrite Hcs in Hcs'. injection Hcs' as <-.
    destruct (Hcells i c Hi) as [Hset _].
    destruct (Hset j nc Hj) as (xj' & stored & Hxj' & Hst & Hc).
    rewrite Hxj in Hxj'. injection Hxj' as <-.
    rewrite Hcat in Hst. injection Hst as <-. rewrite Hc, Hs. reflexivity. }
  split; [exact Hcat|]. split.
  - intros st' p Hrun. rewrite IcpClassifier_predict_p_values in Hrun.
    destruct (p_values strict_setitem x U st) as [st1 [e|p1]] eqn:Hp; [discriminate|].
    injection Hrun as <- <-. eexists. split; [apply (Hcell st1); reflexivity|].
    apply p_value_empty.
  - intros s st' b Hlt Hrun. rewrite IcpClassifier_predict_p_values in Hrun.
    destruct (p_values strict_setitem x U st) as [st1 [e|p1]] eqn:Hp; [discriminate|].
    injection Hrun as <- <-. rewrite cell_map_map, (Hcell st1 p1 eq_refl).
    simpl. f_equal. apply Qgtb_gt.
    rewrite (p_value_empty nc (U j i)). exact Hlt.
Qed.

(** C10. For a reachable conditional classifier with smoothing disabled:
    when the category of [(x_j, c)] has no array in the table, [predict]
    reads the empty array ([n_cal = 0]), the p-value of the pair is 1, and
    the label is included at every significance level below 1. *)
Theorem unseen_category_p_value legacy_mask x U st d cs i c j nc xj :
  reachable legacy_mask strict_setitem st ->
  conditional (icp st) = true ->
  smoothing st = false ->
  cal_scores (icp st) = Some d ->
  classes st = Some cs ->
  cs !! i = Some c ->
  test_nc_scores st x c !! j = Some nc ->
  x !! j = Some xj ->
  entries d !! condition (icp st) (xj, Some c) = None ->
  category_scores (icp st) (condition (icp st) (xj, Some c)) = Some []
  /\ (forall st' p,
        IcpClassifier_predict strict_setitem x None U st = (st', inr (PValues p)) ->
        exists v, cell p j i = Some v /\ (v == 1)%Q)
  /\ (forall (s : Q) st' b,
        (s < 1)%Q ->
        IcpClassifier_predict strict_setitem x (Some s) U st = (st', inr (Included b)) ->
        cell b j i = Some true).
Proof.
  intros Hreach Hcond Hs Hd. apply missing_key_p_value; try assumption.
  destruct (reachable_table_ok legacy_mask st Hreach d Hd) as [_ Hdef].
  congruence.
Qed.

End PredictProperties.

(** * Properties of calibrate and of the significance level *)

Section CalibrateProperties.

Context {X Nc : Type} `{NcFunction Nc X Z}.
Variable legacy_mask : bool.

(** C6, amended. After [calibrate(x, y, increment)] the class registry is
    the sorted set of the distinct labels of [y], together with the labels
    of the previous registry when [increment] is true: an incremental call
    never removes a label, a call with [increment=False] keeps only the
    labels of its own batch. *)
Theorem classes_registry (x : list X) (y : list Z) (increment : bool)
    (st : IcpClassifier X Nc) :
  exists cs',
    classes (fst (IcpClassifier_calibrate legacy_mask x y increment st)) = Some cs'
    /\ StronglySorted Z.lt cs'
    /\ (forall l, In l cs' <->
                  In l y \/ (increment = true
                             /\ exists cs, classes st = Some cs /\ In l cs)).
Proof.
  rewrite calibrate_classes. eexists. split; [reflexivity|].
  unfold updated_classes. split.
  - destruct (classes st), increment; apply unique_sorted.
  - intros l. destruct (classes st) as [cs|], increment;
      rewrite unique_In; unfold np.hstack; try rewrite in_app_iff.
    + split; [intros [Hl|Hl]; [right; eauto | left; exact Hl]|].
      intros [Hl|(_ & cs' & [= <-] & Hl)]; [right | left]; exact Hl.
    + split; [auto | intros [Hl|(Hf & _)]; [exact Hl | discriminate]].
    + split; [auto | intros [Hl|(_ & cs' & Hf & _)]; [exact Hl | discriminate]].
    + split; [auto | intros [Hl|(Hf & _)]; [exact Hl | discriminate]].
Qed.

End CalibrateProperties.

Section SignificanceProperties.

Context {X Nc : Type} `{NcFunction Nc X Z}.
Context {strict_setitem : bool}.
Context {X' Y' Nc' : Type} `{NcRegressor Nc' X' Y'}.
Variable legacy_mask : bool.

(** C9, amended. Neither [predict] validates the significance level. For
    every rational [s], inside (0, 1) or not, the classifier returns the
    boolean matrix [p > s] whenever the p-values are computed, and raises
    only what their computation raises; the regressor forwards [s] to the
    nonconformity function and returns the assembled intervals whenever
    that function returns one interval per example: the rows of the
    examples of a category are the rows that function returns for those
    examples, the scores of the category and [s]; the rows of the examples
    of no calibrated category stay zero. *)
Theorem predict_significance_unchecked (s : Q)
    (x : list X) (U : nat -> nat -> Q) (st : IcpClassifier X Nc)
    (x' : list X') (rg : IcpRegressor X' Y' Nc') (cats : list Z)
    (d : scores_dict) :
  (IcpClassifier_predict strict_setitem x (Some s) U st
   = match p_values strict_setitem x U st with
     | (st', inr p) => (st', inr (Included (map (map (fun v => Qgtb v s)) p)))
     | (st', inl e) => (st', inl e)
     end)
  /\ (forall e, snd (IcpClassifier_predict strict_setitem x (Some s) U st) = inl e
                <-> snd (IcpClassifier_predict strict_setitem x None U st) = inl e)
  /\ (categories (reg_icp rg) = Some cats ->
      cal_scores (reg_icp rg) = Some d ->
      (forall c, In c cats -> is_Some (scores_of d c)) ->
      (forall xs scores,
          let p := nc_predict (nc_function (reg_icp rg)) xs scores (Some s) in
          length p = length xs /\ forallb (shape_ok 1) p = true) ->
      exists rg' prediction,
        IcpRegressor_predict legacy_mask x' (Some s) rg = (rg', inr prediction)
        /\ length prediction = length x'
        /\ (forall c scores,
              In c cats -> scores_of d c = Some scores ->
              let idx :=
                np.eq_mask
                  (map (fun xi => condition (reg_icp rg) (xi, None)) x') c in
              compress idx prediction
              = nc_predict (nc_function (reg_icp rg)) (compress idx x') scores
                  (Some s))
        /\ (forall j xj,
              x' !! j = Some xj ->
              ~ In (condition (reg_icp rg) (xj, None)) cats ->
              prediction !! j = Some (Interval 0 0))).
Proof.
  split; [apply IcpClassifier_predict_p_values|]. split.
  - intros e. rewrite !IcpClassifier_predict_p_values.
    destruct (p_values strict_setitem x U st) as [st' [e'|p]]; simpl; [reflexivity|].
    split; discriminate.
  - intros Hcats Hd Hkeys Hnc.
    destruct (IcpRegressor_predict_returns legacy_mask x' s rg cats d
                Hcats Hd Hkeys Hnc) as (rg' & prediction & Hrun & Hlen).
    exists rg', prediction. split; [exact Hrun|]. split; [exact Hlen|].
    unfold IcpRegressor_predict in Hrun. unfold_monad.
    rewrite Hcats in Hrun. cbn beta iota in Hrun.
    set (cm := map (fun xi => condition (reg_icp rg) (xi, None)) x') in *.
    assert (Hcm : length cm = length x') by apply length_map.
    assert (Hinv : rows_inv rg d (length x') rg
                     (replicate (length x') (zero_bounds 1))).
    { split; [apply length_replicate|]. split; [reflexivity|].
      exists d. split; [exact Hd | reflexivity]. }
    destruct (predict_loop_rows legacy_mask x' (Some s) 1 cm rg d cats 0 _ rg
                rg' prediction Hcm Hinv Hrun) as (_ & _ & Hrows).
    split.
    + intros c scores Hc Hscores. cbv zeta.
      destruct (Hnc (compress (np.eq_mask cm c) x') scores) as [Hplen _].
      cbv zeta in Hplen.
      destruct (compress (np.eq_mask cm c) x') as [|x0 sel] eqn:Hsel.
      * pose proof (compress_same_length (np.eq_mask cm c) prediction x' Hlen)
          as Hsame.
        rewrite Hsel in Hsame.
        destruct (compress (np.eq_mask cm c) prediction); [|discriminate].
        destruct (nc_predict _ [] scores (Some s)); [reflexivity|discriminate].
      * destruct (Hrows c) as (scores' & Hscores' & Hp).
        { apply list_elem_of_In. exact Hc. }
        { rewrite Hsel. discriminate. }
        rewrite Hscores in Hscores'. injection Hscores' as <-.
        rewrite Hsel in Hp. apply Hp. exact Hplen.
    + intros j xj Hxj Hnew.
      rewrite (predict_loop_keep legacy_mask x' (Some s) 1 cm cats 0 _ rg rg'
                 prediction j (condition (reg_icp rg) (xj, None)) Hrun).
      * apply lookup_replicate_2. apply lookup_lt_is_Some. eauto.
      * unfold cm.
        change (map (fun xi => condition (reg_icp rg) (xi, None)) x')
          with ((fun xi => condition (reg_icp rg) (xi, None)) <$> x').
        rewrite list_lookup_fmap, Hxj. reflexivity.
      * intros Hin. apply Hnew. apply list_elem_of_In. exact Hin.
Qed.

End SignificanceProperties.
(** * Further properties of IcpClassifier.predict *)

Section PredictFrame.

Context {X Nc : Type} `{NcFunction Nc X Z}.
Context {strict_setitem : bool}.

Implicit Types (st s : IcpClassifier X Nc) (x : list X).
Implicit Types (U : nat -> nat -> Q) (p : list (list Q)).

(** An iteration leaves the object as it is, or replaces the table by what
    one lookup leaves. *)
Lemma predict_cell_state x U i c j nc p st :
  fst (predict_cell strict_setitem x U i c j nc p st) = st
  \/ exists d k,
       cal_scores (icp st) = Some d
       /\ fst (predict_cell strict_setitem x U i c j nc p st)
          = with_base st (set_cal_scores (icp st) (fst (dict_getitem d k))).
Proof.
  unfold predict_cell, cal_scores_getitem, np.item. unfold_monad.
  destruct (cal_scores (icp st)) as [d|] eqn:Hd; simpl; [|left; reflexivity].
  destruct (x !! j) as [xj|]; simpl; [|left; reflexivity].
  rewrite Hd. cbn beta iota. right.
  exists d, (condition (icp st) (xj, Some c)). split; [reflexivity|].
  destruct (dict_getitem d (condition (icp st) (xj, Some c))) as [d' [e|a]];
    [reflexivity|].
  destruct (smoothing st && strict_setitem); reflexivity.
Qed.

(** What every lookup preserves, [predict] preserves. *)
Lemma predict_state_inv (I : IcpClassifier X Nc -> Prop) x significance U st :
  (forall s d k,
      I s -> cal_scores (icp s) = Some d ->
      I (with_base s (set_cal_scores (icp s) (fst (dict_getitem d k))))) ->
  I st ->
  I (fst (IcpClassifier_predict strict_setitem x significance U st)).
Proof.
  intros Hstep HI. rewrite IcpClassifier_predict_p_values.
  assert (Hp : I (fst (p_values strict_setitem x U st))).
  { unfold p_values. unfold_monad.
    destruct (classes st) as [cs|]; [|exact HI].
    apply (for_enumerate_state_inv I); [|exact HI].
    intros i c q s Hs. unfold predict_class. unfold_monad.
    apply (for_enumerate_state_inv I); [|exact Hs].
    intros j nc q' s' Hs'.
    destruct (predict_cell_state x U i c j nc q' s') as [->|(d & k & Hd & ->)];
      [exact Hs' | apply Hstep; assumption]. }
  destruct (p_values strict_setitem x U st) as [st' [e|p]]; exact Hp.
Qed.

Lemma only_adds_empty_refl d : only_adds_empty d d.
Proof. unfold only_adds_empty. split; [reflexivity|]. split; auto. Qed.

Lemma only_adds_empty_getitem d0 d k :
  only_adds_empty d0 d -> only_adds_empty d0 (fst (dict_getitem d k)).
Proof.
  intros (Hdef & Hkeep & Hnew). unfold dict_getitem.
  destruct (entries d !! k) as [a|] eqn:Hk;
    [split; [exact Hdef | split; assumption]|].
  destruct (is_defaultdict d) eqn:Hd;
    [|split; [simpl; congruence | split; assumption]].
  simpl. split; [simpl; congruence|]. split.
  - intros k' a Ha. simpl. destruct (decide (k = k')) as [<-|Hne].
    + rewrite (Hkeep _ _ Ha) in Hk. discriminate.
    + rewrite lookup_insert_ne by exact Hne. apply Hkeep. exact Ha.
  - intros k' a. simpl. destruct (decide (k = k')) as [<-|Hne].
    + rewrite lookup_insert_eq. intros [= <-].
      destruct (entries d0 !! k) as [a0|] eqn:H0.
      * rewrite (Hkeep _ _ H0) in Hk. discriminate.
      * right. repeat split. congruence.
    + rewrite lookup_insert_ne by exact Hne. apply Hnew.
Qed.

(** X1. [predict] never changes what [calibrate] stored: the calibration
    set, the classes, the categories, the nonconformity function and every
    stored score array are as before; the only change is that a
    [defaultdict] may hold new empty arrays, and an object with a plain
    [dict] is left exactly as it was. *)
Theorem predict_keeps_calibration x significance U st :
  let st' := fst (IcpClassifier_predict strict_setitem x significance U st) in
  classes st' = classes st
  /\ smoothing st' = smoothing st
  /\ cal_x (icp st') = cal_x (icp st)
  /\ cal_y (icp st') = cal_y (icp st)
  /\ nc_function (icp st') = nc_function (icp st)
  /\ categories (icp st') = categories (icp st)
  /\ match cal_scores (icp st), cal_scores (icp st') with
     | Some d, Some d' => only_adds_empty d d'
     | None, None => True
     | _, _ => False
     end
  /\ (forall d, cal_scores (icp st) = Some d -> is_defaultdict d = false ->
                st' = st).
Proof.
  cbv zeta. split; [|split; [|split; [|split; [|split; [|split; [|split]]]]]].
  - apply (predict_state_inv (fun s => classes s = classes st));
      [intros s d k Hs _; exact Hs | reflexivity].
  - apply (predict_state_inv (fun s => smoothing s = smoothing st));
      [intros s d k Hs _; exact Hs | reflexivity].
  - apply (predict_state_inv (fun s => cal_x (icp s) = cal_x (icp st)));
      [intros s d k Hs _; exact Hs | reflexivity].
  - apply (predict_state_inv (fun s => cal_y (icp s) = cal_y (icp st)));
      [intros s d k Hs _; exact Hs | reflexivity].
  - apply (predict_state_inv
             (fun s => nc_function (icp s) = nc_function (icp st)));
      [intros s d k Hs _; exact Hs | reflexivity].
  - apply (predict_state_inv
             (fun s => categories (icp s) = categories (icp st)));
      [intros s d k Hs _; exact Hs | reflexivity].
  - apply (predict_state_inv
             (fun s => match cal_scores (icp st), cal_scores (icp s) with
                       | Some d, Some d' => only_adds_empty d d'
                       | None, None => True
                       | _, _ => False
                       end)).
    + intros s d k Hs Hd. simpl. rewrite Hd in Hs.
      destruct (cal_scores (icp st)) as [d0|]; [|exact Hs].
      apply only_adds_empty_getitem. exact Hs.
    + destruct (cal_scores (icp st)); [apply only_adds_empty_refl | exact I].
  - intros d Hd Hplain.
    apply (predict_state_inv (fun s => s = st)); [|reflexivity].
    intros s d' k -> Hd'. rewrite Hd in Hd'. injection Hd' as <-.
    assert (Hsame : fst (dict_getitem d k) = d).
    { unfold dict_getitem. destruct (entries d !! k); [reflexivity|].
      rewrite Hplain. reflexivity. }
    rewrite Hsame. destruct st as [[cx cy nc cond cnd cats tbl] cls lp sm].
    simpl in *. subst tbl. reflexivity.
Qed.

End PredictFrame.

Section PredictReturns.

Context {X Nc : Type} `{NcFunction Nc X Z}.
Context {strict_setitem : bool}.

Implicit Types (st s : IcpClassifier X Nc) (x : list X).
Implicit Types (U : nat -> nat -> Q) (p : list (list Q)).

Lemma p_values_returns_view x U st cs d :
  classes st = Some cs ->
  cal_scores (icp st) = Some d ->
  (forall c xj, In c cs -> In xj x ->
                is_Some (scores_of d (condition (icp st) (xj, Some c)))) ->
  (forall c, In c cs -> length (test_nc_scores st x c) <= length x) ->
  smoothing st && strict_setitem = false ->
  exists st' p,
    p_values strict_setitem x U st = (st', inr p) /\ same_view st st'.
Proof.
  intros Hcs Hd Hkeys Hlen Hflag. unfold p_values. unfold_monad. rewrite Hcs.
  cbn beta iota.
  apply (for_enumerate_returns (fun _ c => In c cs)
           (fun s _ => same_view st s)); [| |apply same_view_refl].
  - intros i c q s Hc Hview.
    rewrite (predict_class_unfold st) by exact Hview.
    apply (for_enumerate_returns (fun j _ => j < length x)
             (fun s _ => same_view st s)); [| |exact Hview].
    + intros j nc q' s' Hj Hview'.
      destruct (predict_cell_spec (strict_setitem := strict_setitem)
                  s' x U i c j nc q') as [Hr Hv].
      rewrite (predict_cell_result_view st s') in Hr by exact Hview'.
      unfold predict_cell_result in Hr. rewrite Hd in Hr.
      apply lookup_lt_is_Some in Hj as [xj Hxj]. rewrite Hxj in Hr.
      destruct (Hkeys c xj Hc) as [stored Hst].
      { apply list_elem_of_In. eapply list_elem_of_lookup_2. exact Hxj. }
      rewrite Hst, Hflag in Hr.
      destruct (predict_cell strict_setitem x U i c j nc q' s') as [s'' r].
      simpl in Hr, Hv.
      subst r. eexists _, _. split; [reflexivity|].
      exact (same_view_trans _ _ _ Hview' Hv).
    + intros k nc Hk. simpl. specialize (Hlen c Hc).
      apply lookup_lt_Some in Hk. lia.
  - intros k c Hk. apply list_elem_of_In. eapply list_elem_of_lookup_2. exact Hk.
Qed.

(** X17. When [predict] returns. With the classes and the table set, an
    array for every category looked up (always the case with a
    [defaultdict]) and at most one score per test example from the
    nonconformity function, [predict] returns, and leaves the calibration
    set, the categories and every lookup of the table as they were,
    provided line 235 can store its value (no smoothing, or a numpy before
    2.4). With smoothing under numpy 2.4 or later it raises [ValueError] as
    soon as there is one cell to fill. *)
Theorem predict_returns x significance U st cs d :
  classes st = Some cs ->
  cal_scores (icp st) = Some d ->
  (forall c xj, In c cs -> In xj x ->
                is_Some (scores_of d (condition (icp st) (xj, Some c)))) ->
  (forall c, In c cs -> length (test_nc_scores st x c) <= length x) ->
  (smoothing st && strict_setitem = false ->
   exists st' r,
     IcpClassifier_predict strict_setitem x significance U st = (st', inr r)
     /\ same_view st st'
     /\ cal_x (icp st') = cal_x (icp st)
     /\ cal_y (icp st') = cal_y (icp st)
     /\ categories (icp st') = categories (icp st))
  /\ (smoothing st && strict_setitem = true ->
      forall c cs', cs = c :: cs' -> test_nc_scores st x c <> [] ->
      snd (IcpClassifier_predict strict_setitem x significance U st)
      = inl ValueError).
Proof.
  intros Hcs Hd Hkeys Hlen. split.
  - intros Hflag.
    destruct (p_values_returns_view x U st cs d Hcs Hd Hkeys Hlen Hflag)
      as (st' & p & Hrun & Hview).
    pose proof (predict_state_inv (strict_setitem := strict_setitem)
                  (fun s => cal_x (icp s) = cal_x (icp st)
                            /\ cal_y (icp s) = cal_y (icp st)
                            /\ categories (icp s) = categories (icp st))
                  x significance U st) as Hframe.
    rewrite IcpClassifier_predict_p_values, Hrun in Hframe |- *.
    eexists _, _. split; [reflexivity|]. split; [exact Hview|].
    apply Hframe; [|repeat split].
    intros s d' k Hs _. exact Hs.
  - intros Hflag c cs' -> Hne.
    rewrite IcpClassifier_predict_p_values.
    assert (Hp : snd (p_values strict_setitem x U st) = inl ValueError).
    { unfold p_values. unfold_monad. rewrite Hcs. cbn beta iota.
      cbn [for_enumerate]. unfold bind.
      set (p0 := replicate (length x) (replicate (length (c :: cs')) 0%Q)).
      assert (Hclass : snd (predict_class strict_setitem x U 0 c p0 st)
                       = inl ValueError).
      { unfold predict_class. unfold_monad.
        change (nc_calc_nc (nc_function (icp st)) x (replicate (length x) c))
          with (test_nc_scores st x c).
        specialize (Hlen c (or_introl eq_refl)).
        destruct (test_nc_scores st x c) as [|nc0 ncs]; [contradiction|].
        cbn [for_enumerate]. unfold bind.
        destruct (predict_cell_spec (strict_setitem := strict_setitem)
                    st x U 0 c 0 nc0 p0) as [Hr _].
        unfold predict_cell_result in Hr. rewrite Hd in Hr.
        destruct x as [|x0 x1]; [simpl in Hlen; lia|].
        cbn [lookup list_lookup] in Hr.
        destruct (Hkeys c x0 (or_introl eq_refl) (or_introl eq_refl))
          as [stored Hst].
        rewrite Hst, Hflag in Hr.
        destruct (predict_cell strict_setitem (x0 :: x1) U 0 c 0 nc0 p0 st)
          as [s1 r1].
        simpl in Hr. subst r1. reflexivity. }
      destruct (predict_class strict_setitem x U 0 c p0 st) as [s1 r1].
      simpl in Hclass. subst r1. reflexivity. }
    destruct (p_values strict_setitem x U st) as [st' [e|p]]; simpl in Hp;
      [injection Hp as ->; reflexivity | discriminate].
Qed.

End PredictReturns.

Section PredictShape.

Context {X Nc : Type} `{NcFunction Nc X Z}.
Context {strict_setitem : bool}.

Implicit Types (st s : IcpClassifier X Nc) (x : list X).
Implicit Types (U : nat -> nat -> Q) (p : list (list Q)).

Lemma set_cell_shape n k p j i (v : Q) :
  has_shape n k p -> has_shape n k (set_cell p j i v).
Proof.
  intros [Hn Hk]. unfold set_cell. split; [rewrite length_alter; exact Hn|].
  apply Forall_alter; [exact Hk|]. intros row _ Hrow.
  rewrite length_insert. exact Hrow.
Qed.

Lemma p_values_shape x U st st' p cs :
  p_values strict_setitem x U st = (st', inr p) -> classes st = Some cs ->
  has_shape (length x) (length cs) p.
Proof.
  unfold p_values. unfold_monad. intros Hrun Hcs. rewrite Hcs in Hrun.
  refine (for_enumerate_inv
            (fun _ q => has_shape (length x) (length cs) q)
            (predict_class strict_setitem x U) _ cs 0 _ st st' p _ Hrun).
  - intros i c q s s' q' Hq Hcls. unfold predict_class in Hcls.
    unfold_monad.
    refine (for_enumerate_inv
              (fun _ q => has_shape (length x) (length cs) q)
              (predict_cell strict_setitem x U i c) _ _ 0 q s s' q' Hq Hcls).
    intros j nc q0 s1 s1' q0' Hq0 Hcell.
    destruct (predict_cell_spec (strict_setitem := strict_setitem) s1 x U i c j nc q0)
      as [Hr _].
    rewrite Hcell in Hr. simpl in Hr. symmetry in Hr.
    apply predict_cell_result_value in Hr as (v & _ & ->).
    apply set_cell_shape. exact Hq0.
  - split; [apply length_replicate|].
    apply Forall_replicate. apply length_replicate.
Qed.

(** X2. What [predict] returns has one row per test example and one column
    per class of the registry: a matrix of p-values when [significance] is
    [None], a boolean matrix otherwise. *)
Theorem predict_shape x significance U st st' r cs :
  IcpClassifier_predict strict_setitem x significance U st = (st', inr r) ->
  classes st = Some cs ->
  match r with
  | PValues p => significance = None /\ has_shape (length x) (length cs) p
  | Included b =>
      (exists a : Q, significance = Some a)
      /\ has_shape (length x) (length cs) b
  end.
Proof.
  rewrite IcpClassifier_predict_p_values. intros Hrun Hcs.
  destruct (p_values strict_setitem x U st) as [st1 [e|p]] eqn:Hp; [discriminate|].
  pose proof (p_values_shape x U st st1 p cs Hp Hcs) as [Hn Hk].
  injection Hrun as _ <-. destruct significance as [a|].
  - split; [eauto|]. split; [rewrite length_map; exact Hn|].
    apply List.Forall_forall. intros row Hrow.
    apply in_map_iff in Hrow as (row0 & <- & Hin).
    rewrite length_map. rewrite List.Forall_forall in Hk. apply Hk. exact Hin.
  - split; [reflexivity|]. split; assumption.
Qed.

(** X3. A significance level of 1 or more excludes every label of every
    test example, and a negative one includes every label, whatever the
    calibration and the draws in [0, 1) of the smoothing. *)
Theorem significance_extremes x U st st' b (s : Q) :
  (smoothing st = true -> forall j i, (0 <= U j i < 1)%Q) ->
  IcpClassifier_predict strict_setitem x (Some s) U st = (st', inr (Included b)) ->
  ((1 <= s)%Q -> forall j i v, cell b j i = Some v -> v = false)
  /\ ((s < 0)%Q -> forall j i v, cell b j i = Some v -> v = true).
Proof.
  intros HU. rewrite IcpClassifier_predict_p_values.
  destruct (p_values strict_setitem x U st) as [st1 [e|p]] eqn:Hp; [discriminate|].
  intros [= _ <-].
  pose proof (p_values_in_unit x U st st1 p HU Hp) as Hunit.
  split; intros Hs j i v; rewrite cell_map_map;
    destruct (cell p j i) as [q|] eqn:Hq; simpl; try discriminate;
    intros [= <-]; pose proof (in_unit_cell p j i q Hunit Hq) as [H0 H1].
  - unfold Qgtb. apply Qltb_ge. lra.
  - apply Qgtb_gt. lra.
Qed.

End PredictShape.

(** * Invariants of the reachable objects *)

Section CalibrateFrame.

Context {X Y Nc : Type} `{NcFunction Nc X Y}.
Variable legacy_mask : bool.

Implicit Types (b : BaseIcp X Y Nc) (x : list X) (y : list Y).

Lemma calibrate_category_state category_map cond b :
  fst (calibrate_category legacy_mask category_map cond b) = b
  \/ exists d, fst (calibrate_category legacy_mask category_map cond b)
               = set_cal_scores b d.
Proof.
  unfold calibrate_category. unfold_monad.
  destruct (cal_x b) as [cx|]; [|left; reflexivity]. cbn beta iota.
  destruct (np.mask_index legacy_mask cx _) as [e|sx]; [left; reflexivity|].
  destruct (cal_y b) as [cy|]; [|left; reflexivity]. cbn beta iota.
  destruct (np.mask_index legacy_mask cy _) as [e|sy]; [left; reflexivity|].
  destruct (cal_scores b) as [d|]; [|left; reflexivity].
  right. eexists. reflexivity.
Qed.

(** Rebuilding the table changes neither the calibration set nor the
    nonconformity function nor the condition. *)
Lemma calibrate_scores_same_inputs x y b :
  same_inputs b (fst (calibrate_scores legacy_mask x y b)).
Proof.
  assert (Hrefl : same_inputs b b) by (repeat split).
  unfold calibrate_scores. unfold_monad.
  destruct (conditional b).
  - destruct (category_map_of (condition b) x y) as [e|cm]; [exact Hrefl|].
    cbn beta iota.
    apply (for_enumerate_state_inv (same_inputs b)); [|repeat split].
    intros _ cond _ s Hs.
    destruct (calibrate_category_state cm cond s) as [->|[d ->]];
      [exact Hs | exact Hs].
  - destruct (cal_x b); [|exact Hrefl]. cbn beta iota.
    destruct (cal_y b); [|exact Hrefl]. repeat split.
Qed.

End CalibrateFrame.

Section ReachableInvariants.

Context {X Nc : Type} `{NcFunction Nc X Z}.
Context {strict_setitem : bool}.
Variable legacy_mask : bool.

Implicit Types (st s : IcpClassifier X Nc) (x : list X).

Lemma reachable_unconditional_ok st :
  reachable legacy_mask strict_setitem st -> unconditional_ok (icp st).
Proof.
  induction 1 as [nc cond smooth | st x y _ IH | st x y inc _ IH
                 | st x sig U _ IH].
  - intros Hc. destruct cond; [discriminate|]. split; [reflexivity|].
    intros d Hd. discriminate.
  - exact IH.
  - rewrite calibrate_classifier_unfold. simpl. intros Hc.
    assert (Hc0 : conditional (icp st) = false).
    { rewrite calibrate_base_unfold in Hc.
      destruct (calibrate_scores_same_inputs legacy_mask x y
                  (set_cal (icp st) (Some (updated_cal (cal_x (icp st))
                                             (cal_y (icp st)) x inc))
                     (Some (updated_cal (cal_y (icp st)) (cal_x (icp st)) y inc))))
        as (_ & _ & _ & _ & Hcnd).
      rewrite Hcnd in Hc. exact Hc. }
    rewrite (calibrate_unconditional_result legacy_mask x y inc (icp st) Hc0).
    simpl. split; [apply (IH Hc0)|].
    intros d [= <-]. simpl. rewrite lookup_singleton_eq. eauto.
  - apply (predict_state_inv (fun s => unconditional_ok (icp s))); [|exact IH].
    intros s d k Hs Hd Hc. simpl in Hc. destruct (Hs Hc) as [Hcond Hkey].
    split; [exact Hcond|]. intros d' [= <-].
    specialize (Hkey d Hd). unfold dict_getitem.
    destruct (entries d !! k); [exact Hkey|].
    destruct (is_defaultdict d); [|exact Hkey].
    simpl. destruct (decide (k = 0%Z)) as [->|Hne].
    + rewrite lookup_insert_eq. eauto.
    + rewrite lookup_insert_ne by exact Hne. exact Hkey.
Qed.

(** On a reachable classifier every lookup of a category finds an array:
    the table of a conditional predictor is a [defaultdict], and an
    unconditional one only looks up the category 0, which [calibrate]
    stores. *)
Lemma reachable_lookup_total st :
  reachable legacy_mask strict_setitem st -> lookup_total (icp st).
Proof.
  intros Hreach d Hd e. unfold scores_of.
  destruct (reachable_table_ok legacy_mask st Hreach d Hd) as [_ Hdef].
  destruct (entries d !! condition (icp st) e) as [a|] eqn:Hk; [eauto|].
  destruct (conditional (icp st)) eqn:Hc; rewrite Hdef; [eauto|].
  destruct (reachable_unconditional_ok st Hreach Hc) as [Hcond Hkey].
  rewrite Hcond in Hk. destruct (Hkey d Hd) as [a Ha]. congruence.
Qed.

Lemma reachable_classes_sorted st cs :
  reachable legacy_mask strict_setitem st -> classes st
    = Some cs -> StronglySorted Z.lt cs.
Proof.
  intros Hreach. revert cs.
  induction Hreach as [nc cond smooth | st x y _ IH | st x y inc _ IH
                      | st x sig U _ IH]; intros cs.
  - discriminate.
  - exact (IH cs).
  - rewrite calibrate_classes. intros [= <-]. unfold updated_classes.
    destruct (classes st), inc; apply unique_sorted.
  - revert cs.
    apply (predict_state_inv
             (fun s => forall cs, classes s = Some cs -> StronglySorted Z.lt cs));
      [|exact IH].
    intros s d k Hs _. exact Hs.
Qed.

(** X4. In every object a program can reach — after any sequence of
    [fit], [calibrate] and [predict] calls, returning or raising — every
    stored score array is in descending order, the table is a [defaultdict]
    exactly for a conditional predictor, an unconditional predictor has the
    constant condition 0 and a table that holds category 0, and the class
    registry is strictly increasing. *)
Theorem reachable_invariants st :
  reachable legacy_mask strict_setitem st ->
  (forall d k a, cal_scores (icp st) = Some d -> entries d !! k = Some a ->
                 descending a)
  /\ (forall d, cal_scores (icp st) = Some d ->
                is_defaultdict d = conditional (icp st))
  /\ (conditional (icp st) = false ->
      (forall e, condition (icp st) e = 0%Z)
      /\ forall d, cal_scores (icp st) = Some d -> is_Some (entries d !! 0%Z))
  /\ (forall cs, classes st = Some cs -> StronglySorted Z.lt cs).
Proof.
  intros Hreach. split; [|split; [|split]].
  - intros d k a Hd. exact (proj1 (reachable_table_ok legacy_mask st Hreach d Hd) k a).
  - intros d Hd. exact (proj2 (reachable_table_ok legacy_mask st Hreach d Hd)).
  - exact (reachable_unconditional_ok st Hreach).
  - intros cs. exact (reachable_classes_sorted st cs Hreach).
Qed.

(** X5. The exceptions of [predict] on a reachable classifier. It never
    raises [KeyError]. It raises [AttributeError] only when the classes or
    the table are not set (no [calibrate] call got that far), [IndexError]
    only when the nonconformity function returns more scores than there are
    test examples, and [ValueError] only with smoothing under a numpy that
    refuses to store the one-element array of line 235 in a cell. *)
Theorem predict_errors x significance U st e :
  reachable legacy_mask strict_setitem st ->
  snd (IcpClassifier_predict strict_setitem x significance U st) = inl e ->
  (e = AttributeError /\ (classes st = None \/ cal_scores (icp st) = None))
  \/ (e = IndexError
      /\ exists cs c, classes st = Some cs /\ c ∈ cs
                      /\ length x < length (test_nc_scores st x c))
  \/ (e = ValueError /\ smoothing st = true /\ strict_setitem = true).
Proof.
  intros Hreach. rewrite IcpClassifier_predict_p_values.
  destruct (p_values strict_setitem x U st) as [st1 r] eqn:Hp.
  assert (Hr : snd (p_values strict_setitem x U st) = r) by (rewrite Hp; reflexivity).
  destruct r as [e'|p]; [|destruct significance; discriminate].
  simpl. intros [= <-]. clear Hp. revert Hr.
  unfold p_values. unfold_monad.
  destruct (classes st) as [cs|] eqn:Hcs;
    [|simpl; intros [= <-]; left; split; [reflexivity | left; reflexivity]].
  intros Hr.
  assert (Hdraw : draws_agree st U U) by (intros _ j i; reflexivity).
  destruct (for_enumerate_raises (same_view st)
              (fun _ c e =>
                 (e = AttributeError /\ cal_scores (icp st) = None)
                 \/ (e = IndexError /\ length x < length (test_nc_scores st x c))
                 \/ (e = ValueError /\ smoothing st = true
                     /\ strict_setitem = true))
              (predict_class strict_setitem x U))
    with (l := cs) (start := 0)
         (acc := replicate (length x) (replicate (length cs) 0%Q))
         (st := st) (e := e')
    as (i & c & Hi & Hc).
  - intros i c q s Hs.
    exact (proj1 (proj2 (predict_class_agree (strict_setitem := strict_setitem)
                           st U U x i c q s s Hdraw (conj Hs Hs)))).
  - intros i c q s e0 Hs He0.
    rewrite (predict_class_unfold st) in He0 by exact Hs.
    destruct (for_enumerate_raises (same_view st)
                (fun j _ e =>
                   (e = AttributeError /\ cal_scores (icp st) = None)
                   \/ (e = IndexError /\ length x <= j)
                   \/ (e = ValueError /\ smoothing st = true
                       /\ strict_setitem = true))
                (predict_cell strict_setitem x U i c))
      with (l := test_nc_scores st x c) (start := 0) (acc := q) (st := s)
           (e := e0)
      as (j & nc & Hj & Hcell).
    + intros j nc q' s' Hs'.
      exact (proj1 (proj2 (predict_cell_agree (strict_setitem := strict_setitem)
                             st U U x i c j nc q' s' s' Hdraw (conj Hs' Hs')))).
    + intros j nc q' s' e1 Hs' He1.
      destruct (predict_cell_spec (strict_setitem := strict_setitem) s' x U i c j nc q')
        as [Hres _].
      rewrite Hres, (predict_cell_result_view st s') in He1 by exact Hs'.
      unfold predict_cell_result in He1.
      destruct (cal_scores (icp st)) as [d|] eqn:Hd;
        [|injection He1 as <-; left; split; reflexivity].
      destruct (x !! j) as [xj|] eqn:Hxj;
        [|injection He1 as <-; right; left; split; [reflexivity|];
          apply lookup_ge_None; exact Hxj].
      destruct (reachable_lookup_total st Hreach d Hd (xj, Some c)) as [a Ha].
      rewrite Ha in He1.
      destruct (smoothing st) eqn:Hsm, strict_setitem eqn:Hstrict;
        try discriminate.
      injection He1 as <-. right. right. repeat split.
    + exact Hs.
    + exact He0.
    + destruct Hcell as [Hattr|[[-> Hlen]|Hval]];
        [left; exact Hattr | | right; right; exact Hval].
      right. left. split; [reflexivity|].
      apply lookup_lt_Some in Hj. simpl in Hlen. lia.
  - apply same_view_refl.
  - exact Hr.
  - destruct Hc as [[-> Hnone]|[[-> Hlen]|Hval]].
    + left. split; [reflexivity | right; exact Hnone].
    + right. left. split; [reflexivity|]. exists cs, c.
      split; [reflexivity|]. split; [|exact Hlen].
      eapply list_elem_of_lookup_2. exact Hi.
    + right. right. exact Hval.
Qed.

(** X6. Calibrating on an empty batch (without [increment]) returns for
    every predictor and empties the class registry; [predict] then returns
    one empty row per test example, without raising and without changing the
    object. *)
Theorem calibrate_empty_batch x significance U st :
  let r := IcpClassifier_calibrate legacy_mask [] [] false st in
  snd r = inr tt
  /\ classes (fst r) = Some []
  /\ cal_x (icp (fst r)) = Some [] /\ cal_y (icp (fst r)) = Some []
  /\ IcpClassifier_predict strict_setitem x significance U (fst r)
     = (fst r, inr match significance with
                   | Some _ => Included (replicate (length x) [])
                   | None => PValues (replicate (length x) [])
                   end).
Proof.
  cbv zeta. rewrite calibrate_classifier_unfold, calibrate_base_unfold.
  cbn [fst snd]. unfold updated_classes.
  replace (match classes st with Some _ | _ => np.unique [] end)
    with (@nil Z) by (destruct (classes st); reflexivity).
  set (b1 := set_cal (icp st) _ _).
  assert (Hrun : snd (calibrate_scores legacy_mask [] [] b1) = inr tt
                 /\ cal_x (fst (calibrate_scores legacy_mask [] [] b1)) = Some []
                 /\ cal_y (fst (calibrate_scores legacy_mask [] [] b1)) = Some []).
  { unfold calibrate_scores. unfold_monad.
    destruct (conditional b1); repeat split. }
  destruct Hrun as (Hres & Hx & Hy).
  split; [exact Hres|]. split; [reflexivity|].
  split; [exact Hx|]. split; [exact Hy|].
  rewrite IcpClassifier_predict_p_values. unfold p_values. unfold_monad.
  cbn [classes with_base IcpClassifier_object set_classes for_enumerate length].
  unfold ret. destruct significance; [|reflexivity].
  do 3 f_equal. induction (length x) as [|n IH]; [reflexivity|].
  simpl. f_equal. exact IH.
Qed.

End ReachableInvariants.

(** * Further properties of the p-value *)

Section PValueRank.

Local Open Scope Q_scope.

Lemma count_ge_gt_eq (nc : Q) (l : list Q) :
  count_ge nc l = (count_gt nc l + count_eq nc l)%nat.
Proof.
  unfold count_ge, count_gt, count_eq.
  induction l as [|h t IH]; simpl; [reflexivity|].
  destruct (Qle_bool nc h) eqn:Hle, (Qltb nc h) eqn:Hlt, (Qeq_bool h nc) eqn:Heq;
    simpl; try lia; exfalso; Qbool_to_prop; lra.
Qed.

Lemma count_ge_antitone (nc1 nc2 : Q) (l : list Q) :
  nc1 <= nc2 -> (count_ge nc2 l <= count_ge nc1 l)%nat.
Proof.
  intros Hle. unfold count_ge. induction l as [|h t IH]; simpl; [lia|].
  destruct (Qle_bool nc2 h) eqn:H2, (Qle_bool nc1 h) eqn:H1; simpl; try lia.
  exfalso. Qbool_to_prop. lra.
Qed.

Lemma inject_Z_pos_succ (n : nat) : 0 < inject_Z (Z.of_nat n + 1).
Proof. change 0 with (inject_Z 0). rewrite <- Zlt_Qlt. lia. Qed.

Lemma count_gt_antitone (nc1 nc2 : Q) (l : list Q) :
  nc1 <= nc2 -> (count_gt nc2 l <= count_gt nc1 l)%nat.
Proof.
  intros Hle. unfold count_gt. induction l as [|h t IH]; simpl; [lia|].
  destruct (Qltb nc2 h) eqn:H2, (Qltb nc1 h) eqn:H1; simpl; try lia.
  exfalso. Qbool_to_prop. lra.
Qed.

(** X7. On a descending score array the two integer counts of lines
    229-230 add up to [k + 1], where [k] is the number of calibration
    scores greater than or equal to the test score: the numerator of the
    p-value without smoothing is the rank of the test score among the
    calibration scores. So neither [n_gt] nor [n_gt + n_eq] grows with the
    test score. (The counts are exact in the code; the p-value itself is
    the rounded sum of two rounded quotients there, and can differ from
    [(k + 1) / (n_cal + 1)] in the last bit.) *)
Theorem rank_counts (stored : list Q) (nc1 nc2 : Q) :
  descending stored ->
  (n_gt (rev stored) nc1 + n_eq (rev stored) nc1
   = Z.of_nat (count_ge nc1 stored) + 1)%Z
  /\ (nc1 <= nc2 ->
      (n_gt (rev stored) nc2 <= n_gt (rev stored) nc1)%Z
      /\ (n_gt (rev stored) nc2 + n_eq (rev stored) nc2
          <= n_gt (rev stored) nc1 + n_eq (rev stored) nc1)%Z).
Proof.
  intros Hd.
  assert (Hsum : forall nc,
            (n_gt (rev stored) nc + n_eq (rev stored) nc
             = Z.of_nat (count_ge nc stored) + 1)%Z).
  { intros nc. rewrite (n_gt_count stored nc Hd), (n_eq_count stored nc Hd).
    rewrite count_ge_gt_eq. lia. }
  split; [apply Hsum|]. intros Hle. split.
  - rewrite !(n_gt_count stored _ Hd).
    pose proof (count_gt_antitone nc1 nc2 stored Hle). lia.
  - rewrite !Hsum. pose proof (count_ge_antitone nc1 nc2 stored Hle). lia.
Qed.

(** X8. For every score array, test score and draw in [0, 1]: the smoothed
    p-value lies between [n_gt / (n_cal + 1)] and the p-value without
    smoothing, and the p-value without smoothing is at least
    [1 / (n_cal + 1)]. *)
Theorem smoothing_bounds (cal : list Q) (nc u : Q) :
  0 <= u <= 1 ->
  inject_Z (n_gt cal nc) / inject_Z (Z.of_nat (length cal) + 1)
  <= p_value true cal nc u
  /\ p_value true cal nc u <= p_value false cal nc u
  /\ 1 / inject_Z (Z.of_nat (length cal) + 1) <= p_value false cal nc u.
Proof.
  intros Hu. rewrite !p_value_fraction.
  pose proof (inject_Z_pos_succ (length cal)) as HN.
  pose proof (n_gt_nonneg cal nc) as Hgt.
  pose proof (n_eq_pos cal nc) as Heq.
  assert (HA : 0 <= inject_Z (n_gt cal nc)).
  { change 0 with (inject_Z 0). rewrite <- Zle_Qle. lia. }
  assert (HB : 1 <= inject_Z (n_eq cal nc)).
  { change 1 with (inject_Z 1). rewrite <- Zle_Qle. lia. }
  set (N := inject_Z (Z.of_nat (length cal) + 1)) in *.
  set (A := inject_Z (n_gt cal nc)) in *.
  set (B := inject_Z (n_eq cal nc)) in *.
  assert (Hinv : 0 < / N) by (apply Qinv_lt_0_compat; exact HN).
  unfold Qdiv. repeat split.
  - apply Qmult_le_compat_r; [nra | apply Qlt_le_weak; exact Hinv].
  - apply Qmult_le_compat_r; [nra | apply Qlt_le_weak; exact Hinv].
  - apply Qmult_le_compat_r; [nra | apply Qlt_le_weak; exact Hinv].
Qed.

End PValueRank.

(** * Further properties of calibrate *)

Section CalibrateErrors.

Context {X Y Nc : Type} `{NcFunction Nc X Y}.

Implicit Types (b : BaseIcp X Y Nc) (x : list X) (y : list Y).

Lemma category_map_from_short (cond : X * option Y -> Z) :
  forall y x px py,
    length px = length py -> length x < length y ->
    category_map_from cond (px ++ x) (py ++ y) (length px) (length y)
    = inl IndexError.
Proof.
  induction y as [|yi y IH]; intros x px py Hp Hlen; [simpl in Hlen; lia|].
  cbn [length category_map_from]. unfold np.item.
  destruct x as [|xi x].
  - rewrite app_nil_r. rewrite (proj2 (lookup_ge_None px (length px)))
      by lia. reflexivity.
  - simpl in Hlen. rewrite lookup_app_r by lia. rewrite Nat.sub_diag.
    rewrite lookup_app_r by lia. replace (length px - length py) with 0 by lia.
    cbn [lookup list_lookup].
    specialize (IH x (px ++ [xi]) (py ++ [yi])).
    rewrite !length_app, <- !app_assoc in IH. simpl in IH.
    rewrite Nat.add_1_r in IH. rewrite IH by lia. reflexivity.
Qed.

Lemma unique_cons (l : list Z) :
  l <> [] -> exists c rest, np.unique l = c :: rest.
Proof.
  destruct l as [|h t]; [congruence|]. intros _.
  destruct (np.unique (h :: t)) as [|c rest] eqn:Hu; [|eauto].
  exfalso. assert (Hin : In h (np.unique (h :: t)))
    by (apply unique_In; simpl; auto).
  rewrite Hu in Hin. exact Hin.
Qed.

(** X9. With current numpy, an incremental calibration of a conditional
    predictor that already holds calibration examples raises [IndexError]
    for every non-empty batch: the merged calibration set is stored, the
    categories are those of the batch alone, and the table is left empty. *)
Theorem incremental_conditional_raises x y b cx cy :
  conditional b = true ->
  cal_x b = Some cx -> cal_y b = Some cy ->
  0 < length cx -> length x = length y -> 0 < length y ->
  let cm := zip_with (fun xi yi => condition b (xi, Some yi)) x y in
  let r := calibrate false x y true b in
  snd r = inl IndexError
  /\ cal_x (fst r) = Some (cx ++ x) /\ cal_y (fst r) = Some (cy ++ y)
  /\ categories (fst r) = Some (np.unique cm)
  /\ table_entries (fst r) = ∅.
Proof.
  intros Hc Hx Hy Hcx Hlen Hpos. cbv zeta. rewrite calibrate_base_unfold.
  rewrite Hx, Hy. cbn [updated_cal].
  unfold calibrate_scores. unfold_monad.
  cbn [conditional condition set_cal]. rewrite Hc.
  rewrite (category_map_of_zip _ x y Hlen). cbn beta iota.
  set (cm := zip_with (fun xi yi => condition b (xi, Some yi)) x y).
  assert (Hcm : length cm = length y).
  { unfold cm. rewrite length_zip_with. lia. }
  destruct (unique_cons cm) as (c & rest & Hu).
  { intros Hnil. rewrite Hnil in Hcm. simpl in Hcm. lia. }
  rewrite Hu. cbn [for_enumerate]. unfold bind.
  set (b1 := set_cal_scores _ _).
  assert (Hcat : calibrate_category false cm c b1 = (b1, inl IndexError)).
  { unfold calibrate_category. unfold_monad. subst b1.
    cbn [cal_x set_cal_scores set_categories set_cal]. cbn beta iota.
    unfold np.mask_index. cbn [negb andb].
    replace (length (np.eq_mask cm c) =? length (cx ++ x)) with false;
      [reflexivity|].
    symmetry. apply Nat.eqb_neq. unfold np.eq_mask.
    rewrite length_map, length_app. lia. }
  rewrite Hcat. repeat split.
Qed.

End CalibrateErrors.

Section CalibrateClassifierMore.

Context {X Nc : Type} `{NcFunction Nc X Z}.
Variable legacy_mask : bool.

Implicit Types (st : IcpClassifier X Nc) (x : list X) (y : list Z).

(** X10. When [x] has fewer rows than [y] and the call replaces the
    calibration set ([increment] is false, or no calibration set is stored
    yet, so that line 102 runs and [np.vstack] is not called), [calibrate]
    on a conditional classifier raises [IndexError] while it computes the
    categories. The classes and the calibration set are already replaced
    by then; the categories and the table are still those of the previous
    calibration. *)
Theorem calibrate_fewer_rows x y increment st :
  conditional (icp st) = true ->
  length x < length y ->
  increment = false \/ cal_x (icp st) = None \/ cal_y (icp st) = None ->
  let r := IcpClassifier_calibrate legacy_mask x y increment st in
  snd r = inl IndexError
  /\ classes (fst r) = Some (updated_classes (classes st) y increment)
  /\ cal_x (icp (fst r)) = Some x
  /\ cal_y (icp (fst r)) = Some y
  /\ categories (icp (fst r)) = categories (icp st)
  /\ cal_scores (icp (fst r)) = cal_scores (icp st).
Proof.
  intros Hc Hlen Hreplace. cbv zeta.
  rewrite calibrate_classifier_unfold, calibrate_base_unfold.
  cbn [fst snd]. unfold calibrate_scores. unfold_monad.
  cbn [conditional condition set_cal]. rewrite Hc.
  unfold category_map_of.
  rewrite (category_map_from_short _ y x [] [] eq_refl Hlen).
  assert (Hx : updated_cal (cal_x (icp st)) (cal_y (icp st)) x increment = x).
  { unfold updated_cal. destruct Hreplace as [->|[->| ->]];
      [reflexivity | destruct increment; reflexivity |].
    destruct increment, (cal_x (icp st)); reflexivity. }
  assert (Hy : updated_cal (cal_y (icp st)) (cal_x (icp st)) y increment = y).
  { unfold updated_cal. destruct Hreplace as [->|[->| ->]];
      [reflexivity | | destruct increment; reflexivity].
    destruct increment, (cal_y (icp st)); reflexivity. }
  cbn [fst snd icp classes with_base IcpClassifier_object set_classes
       cal_x cal_y categories cal_scores].
  rewrite Hx, Hy. repeat split.
Qed.

Lemma calibrate_increments_classes batches : forall st labels,
  classes st = Some (np.unique labels) ->
  classes (calibrate_increments legacy_mask batches st)
  = Some (np.unique (labels ++ concat (map snd batches))).
Proof.
  induction batches as [|[x y] batches IH]; intros st labels Hcls.
  - simpl. rewrite app_nil_r. exact Hcls.
  - cbn [calibrate_increments map concat snd].
    rewrite app_assoc. apply IH.
    rewrite calibrate_classes, Hcls. unfold updated_classes.
    rewrite unique_hstack_unique. reflexivity.
Qed.

(** X11. The class registry over a history of calls: a [calibrate] call
    without [increment] followed by any number of incremental ones leaves
    the sorted distinct labels of all the batches as class registry,
    whatever the calls do afterwards: line 76 updates the registry before
    anything else of [calibrate] runs, so also when the call then raises. *)
Theorem classes_history x0 y0 batches st :
  classes (calibrate_increments legacy_mask batches
             (fst (IcpClassifier_calibrate legacy_mask x0 y0 false st)))
  = Some (np.unique (y0 ++ concat (map snd batches))).
Proof.
  apply calibrate_increments_classes.
  rewrite calibrate_classes. unfold updated_classes.
  destruct (classes st); reflexivity.
Qed.

End CalibrateClassifierMore.

(** * Further properties of IcpRegressor.predict *)

Section RegressorMore.

Context {X Y Nc : Type} `{NcRegressor Nc X Y}.
Variable legacy_mask : bool.

Implicit Types (rg : IcpRegressor X Y Nc) (x : list X).

(** X12. A test example whose category is not among the categories of the
    calibration gets no interval: its row of the result is the zero row the
    array was created with. *)
Theorem regressor_unseen_category x significance rg rg' prediction cats j xj :
  IcpRegressor_predict legacy_mask x significance rg = (rg', inr prediction) ->
  categories (reg_icp rg) = Some cats ->
  x !! j = Some xj ->
  condition (reg_icp rg) (xj, None) ∉ cats ->
  prediction !! j
  = Some (zero_bounds match significance with None => 99 | Some _ => 1 end).
Proof.
  unfold IcpRegressor_predict. unfold_monad. intros Hrun Hcats Hxj Hnew.
  rewrite Hcats in Hrun. cbn beta iota in Hrun.
  set (n := match significance with None => 99 | Some _ => 1 end) in *.
  set (cm := map (fun xi => condition (reg_icp rg) (xi, None)) x) in *.
  refine (for_enumerate_inv_elem
            (fun _ pr => pr !! j = Some (zero_bounds n))
            (fun _ cond => predict_category legacy_mask x significance n cm cond)
            cats _ 0 _ rg rg' prediction _ Hrun).
  - intros i cond pr s s' pr' Hin Hpr Hbody.
    rewrite <- Hpr. eapply predict_category_keep; [exact Hbody|].
    unfold np.eq_mask, cm.
    change (map (Z.eqb cond) (map (fun xi => condition (reg_icp rg) (xi, None)) x))
      with (Z.eqb cond <$> ((fun xi => condition (reg_icp rg) (xi, None)) <$> x)).
    rewrite !list_lookup_fmap, Hxj. simpl. f_equal.
    apply Z.eqb_neq. intros ->. exact (Hnew Hin).
  - apply lookup_replicate_2. apply lookup_lt_is_Some. eauto.
Qed.

Lemma nonzero_from_all_true {A} (l : list A) : forall s,
  length (np.nonzero_from s (map (fun _ => true) l)) = length l.
Proof.
  induction l as [|a l IH]; intros s; [reflexivity|].
  simpl. rewrite IH. reflexivity.
Qed.

Lemma compress_all_true {A B} (l : list A) : forall a : list B,
  length a = length l -> compress (map (fun _ => true) l) a = a.
Proof.
  induction l as [|v l IH]; intros [|w a] Hlen; try discriminate;
    [reflexivity|].
  simpl. rewrite IH by (simpl in Hlen; lia). reflexivity.
Qed.

Lemma scatter_all_true {A} (l : list A) : forall prediction p,
  length prediction = length l -> length p = length l ->
  scatter prediction (map (fun _ => true) l) p = p.
Proof.
  induction l as [|v l IH]; intros [|r pr] [|b p] Hpr Hp; try discriminate;
    [reflexivity|].
  simpl. rewrite IH by (simpl in *; lia). reflexivity.
Qed.

(** An unconditional regressor passes all the test examples and the whole
    score array to the nonconformity function, once. *)
Lemma regressor_unconditional_predict x significance rg d scores :
  (forall e, condition (reg_icp rg) e = 0%Z) ->
  categories (reg_icp rg) = Some [0%Z] ->
  cal_scores (reg_icp rg) = Some d ->
  entries d !! 0%Z = Some scores ->
  x <> [] ->
  let n := match significance with None => 99 | Some _ => 1 end in
  let p := nc_predict (nc_function (reg_icp rg)) x scores significance in
  length p = length x ->
  forallb (shape_ok n) p = true ->
  IcpRegressor_predict legacy_mask x significance rg = (rg, inr p).
Proof.
  intros Hcond Hcats Hd Hkey Hx n p Hlen Hshape.
  unfold IcpRegressor_predict. unfold_monad. rewrite Hcats. cbn beta iota.
  cbn [for_enumerate]. unfold bind, ret.
  assert (Hmask : np.eq_mask
                    (map (fun xi => condition (reg_icp rg) (xi, None)) x) 0%Z
                  = map (fun _ => true) x).
  { unfold np.eq_mask. rewrite map_map. apply map_ext.
    intros xi. rewrite Hcond. reflexivity. }
  unfold predict_category. rewrite Hmask.
  unfold np.nonzero. rewrite nonzero_from_all_true.
  destruct (0 <? length x) eqn:Hpos;
    [|apply Nat.ltb_ge in Hpos; destruct x; [congruence | simpl in Hpos; lia]].
  unfold_monad.
  rewrite mask_index_compress by (rewrite length_map; reflexivity).
  rewrite compress_all_true by reflexivity. rewrite Hd. cbn beta iota.
  unfold dict_getitem. rewrite Hkey. cbn beta iota.
  unfold assign_rows. fold n. fold p. rewrite Hshape.
  unfold np.nonzero. rewrite nonzero_from_all_true, Hlen, Nat.eqb_refl.
  rewrite scatter_all_true by (rewrite ?length_replicate; auto).
  f_equal. destruct rg as [[cx cy nc cnd c cats tbl]]. simpl in *.
  subst tbl. reflexivity.
Qed.

(** X13. For an unconditional regressor [predict] is one call of the
    nonconformity function's [predict] on all the test examples with the
    whole array of calibration scores: its rows are returned as they are and
    the object is not changed. Without test examples the result is empty and
    that function is not called. *)
Theorem regressor_unconditional x significance rg d scores :
  (forall e, condition (reg_icp rg) e = 0%Z) ->
  categories (reg_icp rg) = Some [0%Z] ->
  cal_scores (reg_icp rg) = Some d ->
  entries d !! 0%Z = Some scores ->
  let n := match significance with None => 99 | Some _ => 1 end in
  let p := nc_predict (nc_function (reg_icp rg)) x scores significance in
  (x <> [] -> length p = length x -> forallb (shape_ok n) p = true ->
   IcpRegressor_predict legacy_mask x significance rg = (rg, inr p))
  /\ IcpRegressor_predict legacy_mask [] significance rg = (rg, inr []).
Proof.
  intros Hcond Hcats Hd Hkey n p. split.
  - intros Hx Hlen Hshape.
    exact (regressor_unconditional_predict x significance rg d scores
             Hcond Hcats Hd Hkey Hx Hlen Hshape).
  - unfold IcpRegressor_predict. unfold_monad. rewrite Hcats. reflexivity.
Qed.

End RegressorMore.

(** * The example script *)

Section Split.

(** X14. The script splits the permutation into three consecutive parts of
    [n/3], [2n/3 - n/3] and [n - 2n/3] indices that together are the whole
    permutation; as a permutation has no duplicates, no example is used for
    two of training, calibration and test. *)
Theorem split_indices_partition (idx : list nat) :
  let '(train, calibrate_idx, test) := split_indices idx in
  let n := length idx in
  train ++ calibrate_idx ++ test = idx
  /\ length train = n / 3
  /\ length calibrate_idx = 2 * n / 3 - n / 3
  /\ length test = n - 2 * n / 3
  /\ (NoDup idx ->
      (forall i, i ∈ train -> (i ∉ calibrate_idx) /\ (i ∉ test))
      /\ (forall i, i ∈ calibrate_idx -> i ∉ test)).
Proof.
  unfold split_indices, slice. cbv zeta.
  set (n := length idx). set (a := n / 3). set (b := 2 * n / 3).
  assert (Hab : a <= b <= n).
  { subst a b. split.
    - apply Nat.Div0.div_le_mono. lia.
    - apply Nat.Div0.div_le_upper_bound. lia. }
  assert (Hcat : take a idx ++ take (b - a) (drop a idx) ++ drop b idx = idx).
  { replace (drop b idx) with (drop (b - a) (drop a idx))
      by (rewrite drop_drop; f_equal; lia).
    rewrite (take_drop (b - a)). apply take_drop. }
  split; [exact Hcat|].
  split; [rewrite length_take; fold n; lia|].
  split; [rewrite length_take, length_drop; fold n; lia|].
  split; [rewrite length_drop; fold n; lia|].
  intros Hnd. rewrite <- Hcat in Hnd.
  apply NoDup_app in Hnd as (_ & Hdisj & Hrest).
  apply NoDup_app in Hrest as (_ & Hdisj' & _).
  split.
  - intros i Hi. specialize (Hdisj i Hi). split; intros Hin; apply Hdisj;
      apply elem_of_app; [left | right]; exact Hin.
  - exact Hdisj'.
Qed.

End Split.

Section Script.

Context {X Nc : Type} `{NcRegressor Nc X Q}.
Variable legacy_mask : bool.

Lemma take_rows_in_range {A} (a : list A) (rows : list nat) :
  Forall (fun i => i < length a) rows ->
  exists r, take_rows a rows = inr r
            /\ Forall2 (fun i v => a !! i = Some v) rows r.
Proof.
  intros Hrows. unfold take_rows.
  destruct (mapM (fun i => a !! i) rows) as [r|] eqn:Hr.
  - exists r. split; [reflexivity|]. apply mapM_Some. exact Hr.
  - exfalso. apply mapM_None in Hr. apply Exists_exists in Hr as (i & Hi & Hnone).
    rewrite Forall_forall in Hrows. specialize (Hrows i Hi).
    apply lookup_ge_None in Hnone. lia.
Qed.

Lemma table_rows_intervals (prediction : list bounds) : forall truth,
  forallb (shape_ok 1) prediction = true ->
  length prediction = length truth ->
  exists rows,
    table_rows prediction truth = inr rows
    /\ length rows = length truth
    /\ forall k t, truth !! k = Some t ->
         exists lo hi, prediction !! k = Some (Interval lo hi)
                       /\ rows !! k = Some [lo; hi; t].
Proof.
  induction prediction as [|b pr IH]; intros [|t truth] Hshape Hlen;
    try discriminate.
  - exists []. split; [reflexivity|]. split; [reflexivity|]. intros k t Hk.
    discriminate.
  - simpl in Hshape. apply andb_true_iff in Hshape as [Hb Hpr].
    destruct b as [lo hi|g]; [|discriminate].
    destruct (IH truth Hpr) as (rows & Hrows & Hrlen & Hrow);
      [simpl in Hlen; lia|].
    exists ([lo; hi; t] :: rows). simpl. rewrite Hrows.
    split; [reflexivity|]. split; [simpl; lia|].
    intros [|k] t' Hk.
    + injection Hk as <-. exists lo, hi. split; reflexivity.
    + exact (Hrow k t' Hk).
Qed.

Lemma regressor_calibrate_unfold x y increment (rg : IcpRegressor X Q Nc) :
  IcpRegressor_calibrate legacy_mask x y increment rg
  = ({| reg_icp := fst (calibrate legacy_mask x y increment (reg_icp rg)) |},
     snd (calibrate legacy_mask x y increment (reg_icp rg))).
Proof.
  rewrite calibrate_base_unfold.
  unfold IcpRegressor_calibrate, calibrate, on_base.
  cbn [_calibrate_hook base with_base IcpRegressor_object]. unfold_monad.
  rewrite update_calibration_set_spec. cbn beta iota. cbn [reg_icp].
  destruct (calibrate_scores _ _ _ _); reflexivity.
Qed.

(** X15. The example script returns a table when the permutation indexes
    the data set and the nonconformity function returns one interval per
    example: one row [min, max, truth] per test index, in the order of the
    test indices, whose interval is the one the nonconformity function,
    fitted on the training part, returns from the descending scores of the
    calibration part, and whose truth is the target at that index. *)
Theorem icp_regression_tree_table (nc : Nc) (data : list X) (target : list Q)
    (idx : list nat) :
  length data = length target ->
  Forall (fun i => i < length target) idx ->
  (forall nc' xs scores,
      let p := nc_predict nc' xs scores (Some (1 # 10)%Q) in
      length p = length xs /\ forallb (shape_ok 1) p = true) ->
  let '(train, calibrate_idx, test) := split_indices idx in
  exists x_train y_train x_cal y_cal x_test table,
    take_rows data train = inr x_train
    /\ take_rows target train = inr y_train
    /\ take_rows data calibrate_idx = inr x_cal
    /\ take_rows target calibrate_idx = inr y_cal
    /\ take_rows data test = inr x_test
    /\ snd (icp_regression_tree legacy_mask data target idx
              (IcpRegressor_init nc None)) = inr table
    /\ length table = length test
    /\ forall k i, test !! k = Some i ->
         exists lo hi t,
           table !! k = Some [lo; hi; t]
           /\ target !! i = Some t
           /\ let fitted := nc_fit nc x_train y_train in
              nc_predict fitted x_test
                (rev (np.sort (nc_calc_nc fitted x_cal y_cal)))
                (Some (1 # 10)%Q) !! k
              = Some (Interval lo hi).
Proof.
  intros Hlen Hidx Hnc. unfold icp_regression_tree, split_indices, slice.
  set (n := length idx).
  set (train := take (n / 3) idx).
  set (cal := take (2 * n / 3 - n / 3) (drop (n / 3) idx)).
  set (test := drop (2 * n / 3) idx).
  assert (Htrain : Forall (fun i => i < length target) train)
    by (apply Forall_take; exact Hidx).
  assert (Hcal : Forall (fun i => i < length target) cal)
    by (apply Forall_take, Forall_drop; exact Hidx).
  assert (Htest : Forall (fun i => i < length target) test)
    by (apply Forall_drop; exact Hidx).
  destruct (take_rows_in_range target train Htrain) as (y_train & Hy1 & _).
  destruct (take_rows_in_range target cal Hcal) as (y_cal & Hy2 & _).
  destruct (take_rows_in_range target test Htest) as (truth & Hy3 & Htruth).
  rewrite <- Hlen in Htrain, Hcal, Htest.
  destruct (take_rows_in_range data train Htrain) as (x_train & Hx1 & _).
  destruct (take_rows_in_range data cal Hcal) as (x_cal & Hx2 & _).
  destruct (take_rows_in_range data test Htest) as (x_test & Hx3 & Hrows).
  exists x_train, y_train, x_cal, y_cal, x_test.
  unfold_monad. rewrite Hx1, Hy1, Hx2, Hy2, Hx3, Hy3. cbn beta iota.
  unfold IcpRegressor_fit, on_base, BaseIcp_fit. unfold_monad.
  cbn [base with_base IcpRegressor_object IcpRegressor_init reg_icp].
  cbn beta iota.
  rewrite regressor_calibrate_unfold. cbn [reg_icp].
  change (nc_function (BaseIcp_init (X:=X) (Y:=Q) nc None)) with nc.
  set (fitted := nc_fit nc x_train y_train).
  set (b1 := set_nc_function _ fitted).
  rewrite calibrate_base_unfold.
  rewrite (calibrate_scores_unconditional legacy_mask x_cal y_cal
             (set_cal b1 (Some x_cal) (Some y_cal)) x_cal y_cal
             eq_refl eq_refl eq_refl).
  cbn [fst snd]. cbn beta iota.
  set (scores := rev (np.sort (nc_calc_nc _ x_cal y_cal))).
  set (rg := {| reg_icp := set_cal_scores _ _ |}).
  set (p := nc_predict fitted x_test scores (Some (1 # 10)%Q)).
  destruct (Hnc fitted x_test scores) as [Hplen Hshape]. fold p in Hplen, Hshape.
  assert (Hpred : IcpRegressor_predict legacy_mask x_test (Some (1 # 10)%Q) rg
                  = (rg, inr p)).
  { assert (Hcase : x_test = [] \/ x_test <> [])
      by (destruct x_test; [left; reflexivity | right; discriminate]).
    destruct Hcase as [Hnil|Hne].
    - clearbody p. rewrite Hnil in *. destruct p; [reflexivity | discriminate].
    - apply (regressor_unconditional_predict legacy_mask x_test
               (Some (1 # 10)%Q) rg
               {| entries := {[ 0%Z := scores ]}; is_defaultdict := false |}
               scores);
        try reflexivity; try assumption. }
  rewrite Hpred. cbn beta iota.
  assert (Hsizes : length p = length truth).
  { rewrite Hplen. apply Forall2_length in Hrows, Htruth. lia. }
  destruct (table_rows_intervals p truth Hshape Hsizes)
    as (rows & Htable & Hrlen & Hrow).
  exists rows. rewrite Htable.
  repeat (split; [reflexivity|]).
  split; [apply Forall2_length in Htruth; lia|].
  intros k i Hk.
  destruct (Forall2_lookup_l _ _ _ _ _ Htruth Hk) as (t & Ht & Hti).
  destruct (Hrow k t Ht) as (lo & hi & Hp & Hr).
  exists lo, hi, t. split; [exact Hr|]. split; [exact Hti | exact Hp].
Qed.

End Script.

Section RegressorRows.

Context {X Y Nc : Type} `{NcRegressor Nc X Y}.
Variable legacy_mask : bool.

Implicit Types (rg : IcpRegressor X Y Nc) (x : list X).

(** X16. [predict] of a regressor groups the test examples by category:
    the rows of the result at the positions of the examples of a calibrated
    category are, in order, the rows that the nonconformity function returns
    for exactly those examples and the score array of that category. *)
Theorem regressor_category_rows x significance rg rg' prediction cats d c :
  IcpRegressor_predict legacy_mask x significance rg = (rg', inr prediction) ->
  categories (reg_icp rg) = Some cats ->
  NoDup cats ->
  cal_scores (reg_icp rg) = Some d ->
  c ∈ cats ->
  let idx :=
    np.eq_mask (map (fun xi => condition (reg_icp rg) (xi, None)) x) c in
  compress idx x <> [] ->
  length prediction = length x
  /\ exists scores,
       scores_of d c = Some scores
       /\ let p := nc_predict (nc_function (reg_icp rg)) (compress idx x)
                     scores significance in
          (length p = length (compress idx x) -> compress idx prediction = p).
Proof.
  intros Hrun Hcats Hnd Hd Hc idx Hsel.
  unfold IcpRegressor_predict in Hrun. unfold_monad. rewrite Hcats in Hrun.
  cbn beta iota in Hrun.
  set (cm := map (fun xi => condition (reg_icp rg) (xi, None)) x) in *.
  assert (Hcm : length cm = length x) by apply length_map.
  assert (Hinv : rows_inv rg d (length x) rg
                   (replicate (length x)
                      (zero_bounds
                         match significance with None => 99 | Some _ => 1 end))).
  { split; [apply length_replicate|]. split; [reflexivity|].
    exists d. split; [exact Hd | reflexivity]. }
  destruct (predict_loop_rows legacy_mask x significance _ cm rg d cats 0 _ rg
              rg' prediction Hcm Hinv Hrun) as (Hlen & _ & Hrows).
  split; [exact Hlen|]. exact (Hrows c Hc Hsel).
Qed.

End RegressorRows.

(** * Evaluations on concrete inputs *)

(** C2, amended. The scenario of the specification: calibration scores
    [0.1, 0.4, 0.4, 0.9] in a single category, a test example of score [0.4],
    no smoothing. The code counts the test point in [n_eq]: [n_gt = 1],
    [n_eq = 3], [n_cal = 4], the p-value is [(1 + 3) / 5 = 0.8], and the
    label is included at significance [0.5] and at significance [0.7]. *)
Theorem scenario_p_value :
  forall strict_setitem,
  let st := fst (IcpClassifier_calibrate false
                   [4#10; 1#10; 9#10; 4#10] [0; 0; 0; 0]%Z false plain_classifier) in
  let cal := rev [9#10; 4#10; 4#10; 1#10] in
  table_entries (icp st) = {[ 0%Z := [9#10; 4#10; 4#10; 1#10] ]}
  /\ test_nc_scores st [4#10] 0%Z = [4#10]
  /\ n_gt cal (4#10) = 1%Z
  /\ n_eq cal (4#10) = 3%Z
  /\ length cal = 4
  /\ (exists p, snd (IcpClassifier_predict strict_setitem [4#10] None no_draw st)
    = inr (PValues [[p]])
                /\ p == 4#5)
  /\ snd (IcpClassifier_predict strict_setitem [4#10] (Some (5#10)) no_draw st)
    = inr (Included [[true]])
  /\ snd (IcpClassifier_predict strict_setitem [4#10] (Some (7#10)) no_draw st)
    = inr (Included [[true]]).
Proof.
  intros [|]; cbv zeta; repeat split; try (vm_compute; reflexivity);
    (eexists; split; [vm_compute; reflexivity | reflexivity]).
Qed.

(** C2 as the specification states it fails: [n_eq] is not 2, the p-value is
    not 0.6, and the label is not excluded at significance 0.7. *)
Lemma scenario_as_specified_fails :
  let st := fst (IcpClassifier_calibrate false
                   [4#10; 1#10; 9#10; 4#10] [0; 0; 0; 0]%Z false plain_classifier) in
  let cal := rev [9#10; 4#10; 4#10; 1#10] in
  ~ (n_gt cal (4#10) = 1%Z
     /\ n_eq cal (4#10) = 2%Z
     /\ length cal = 4
     /\ (exists p, snd (IcpClassifier_predict true [4#10] None no_draw st)
       = inr (PValues [[p]])
                   /\ p == 6#10)
     /\ snd (IcpClassifier_predict true [4#10] (Some (5#10)) no_draw st)
       = inr (Included [[true]])
     /\ snd (IcpClassifier_predict true [4#10] (Some (7#10)) no_draw st)
       = inr (Included [[false]])).
Proof.
  cbv zeta. intros (_ & Heq & _). vm_compute in Heq. discriminate Heq.
Qed.

(** The scenario in binary64: with the counts of the code the p-value is the
    double nearest to 0.8 and exceeds the doubles nearest to 0.5 and 0.7;
    with [n_eq = 2] the sum would round to a double other than the one
    nearest to 0.6. *)
Lemma scenario_binary64 :
  let p := p_value_binary64 1 3 4 in
  (p =? 4 / 5)%float = true
  /\ (5 / 10 <? p)%float = true
  /\ (7 / 10 <? p)%float = true
  /\ (p_value_binary64 1 2 4 =? 6 / 10)%float = false.
Proof. repeat split; vm_compute; reflexivity. Qed.

(** Rounding and the rank: with 9 calibration scores, a test score with
    [n_gt = 5], [n_eq = 1] and a larger one with [n_gt = 4], [n_eq = 2] have
    the same exact p-value [6 / 10]; in binary64 the second sum is one unit
    in the last place above the first. *)
Example rank_rounding_binary64 :
  (p_value_binary64 5 1 9 <? p_value_binary64 4 2 9)%float = true
  /\ (p_value_binary64 5 1 9 =? 6 / 10)%float = true.
Proof. split; vm_compute; reflexivity. Qed.

Example unique_example : np.unique [3; 1; 3; 2; 1]%Z = [1; 2; 3]%Z.
Proof. reflexivity. Qed.

Example searchsorted_example :
  np.searchsorted [1 # 10; 4 # 10; 4 # 10; 9 # 10] (4 # 10) np.side_left = 1
  /\ np.searchsorted [1 # 10; 4 # 10; 4 # 10; 9 # 10] (4 # 10) np.side_right = 3.
Proof. split; reflexivity. Qed.

Example mask_index_example :
  np.mask_index false [10; 20; 30] [true; false; true] = inr [10; 30]
  /\ np.mask_index false [10; 20; 30] [true] = inl IndexError
  /\ np.mask_index true [10; 20; 30] [true] = inr [10]
  /\ np.mask_index true [10] [false; true] = inl IndexError.
Proof. repeat split; reflexivity. Qed.

(** C1. A label-conditional classifier is calibrated on the examples
    [(1, 0), (2, 1)] and then incrementally on [(3, 1)]. The calibration set
    is merged, and its examples have the categories [0, 1, 1]; but the
    categories are computed on the new batch alone. Current numpy then
    raises [IndexError] on the boolean index and the table stays empty;
    numpy before 1.13 stores under category 1 the score of the example
    [(1, 0)], which is of category 0. *)
Theorem incremental_conditional_categories :
  forall legacy_mask,
    let st1 := fst (IcpClassifier_calibrate legacy_mask
                      [1; 2]%Q [0; 1]%Z false mondrian_classifier) in
    let r := IcpClassifier_calibrate legacy_mask [3%Q] [1%Z] true st1 in
    cal_x (icp (fst r)) = Some [1; 2; 3]%Q
    /\ cal_y (icp (fst r)) = Some [0; 1; 1]%Z
    /\ category_map_of by_label [1; 2; 3]%Q [0; 1; 1]%Z = inr [0; 1; 1]%Z
    /\ categories (icp (fst r)) = Some [1%Z]
    /\ (if legacy_mask
        then snd r = inr tt
             /\ table_entries (icp (fst r)) = {[ 1%Z := [Qabs_error 1 0] ]}
        else snd r = inl IndexError
             /\ table_entries (icp (fst r)) = ∅).
Proof.
  intros [|]; cbv zeta; repeat split; vm_compute; reflexivity.
Qed.

(** C4. After the same two calls the table does not partition the
    calibration set of three examples: it holds no score with current numpy
    and one score with numpy before 1.13. With an empty incremental batch
    no numpy raises, and the table is empty while the calibration set keeps
    its two examples. *)
Theorem incremental_conditional_partition :
  forall legacy_mask,
    let st1 := fst (IcpClassifier_calibrate legacy_mask
                      [1; 2]%Q [0; 1]%Z false mondrian_classifier) in
    let st2 := fst (IcpClassifier_calibrate legacy_mask [3%Q] [1%Z] true st1) in
    let r3 := IcpClassifier_calibrate legacy_mask [] [] true st1 in
    cal_size (icp st1) = 2
    /\ table_size_of (icp st1) = 2
    /\ cal_size (icp st2) = 3
    /\ table_size_of (icp st2) = (if legacy_mask then 1 else 0)
    /\ snd r3 = inr tt
    /\ cal_size (icp (fst r3)) = 2
    /\ table_size_of (icp (fst r3)) = 0.
Proof.
  intros [|]; cbv zeta; repeat split; vm_compute; reflexivity.
Qed.

(** C5. Calibrating the label-conditional classifier once on the three
    examples stores the score [1] for category 0 and the scores [2, 1] for
    category 1. Calibrating on the first two and then incrementally on the
    third gives the same calibration set and classes but another table, other
    p-values for the test example [3], and another prediction set at
    significance [0.6]. *)
Theorem incremental_conditional_differs :
  forall legacy_mask strict_setitem,
    let once := IcpClassifier_calibrate legacy_mask
                  [1; 2; 3]%Q [0; 1; 1]%Z false mondrian_classifier in
    let st1 := fst (IcpClassifier_calibrate legacy_mask
                      [1; 2]%Q [0; 1]%Z false mondrian_classifier) in
    let twice := IcpClassifier_calibrate legacy_mask [3%Q] [1%Z] true st1 in
    snd once = inr tt
    /\ cal_x (icp (fst once)) = cal_x (icp (fst twice))
    /\ cal_y (icp (fst once)) = cal_y (icp (fst twice))
    /\ classes (fst once) = classes (fst twice)
    /\ table_entries (icp (fst once)) = {[ 0%Z := [1%Q]; 1%Z := [2%Q; 1%Q] ]}
    /\ table_entries (icp (fst twice))
       = (if legacy_mask then {[ 1%Z := [1%Q] ]} else ∅)
    /\ table_entries (icp (fst once)) <> table_entries (icp (fst twice))
    /\ (exists p0 p1,
          snd (IcpClassifier_predict strict_setitem [3%Q] None no_draw (fst once))
          = inr (PValues [[p0; p1]])
          /\ p0 == 1 # 2 /\ p1 == 2 # 3)
    /\ (exists q0 q1,
          snd (IcpClassifier_predict strict_setitem [3%Q] None no_draw (fst twice))
          = inr (PValues [[q0; q1]])
          /\ q0 == 1 /\ q1 == (if legacy_mask then 1 # 2 else 1))
    /\ snd (IcpClassifier_predict strict_setitem [3%Q] (Some (6 # 10)) no_draw (fst once))
       = inr (Included [[false; true]])
    /\ snd (IcpClassifier_predict strict_setitem [3%Q] (Some (6 # 10)) no_draw (fst twice))
       = inr (Included [[true; negb legacy_mask]]).
Proof.
  intros [|] [|]; cbv zeta;
    (split; [vm_compute; reflexivity|]); (split; [vm_compute; reflexivity|]);
    (split; [vm_compute; reflexivity|]); (split; [vm_compute; reflexivity|]);
    (split; [vm_compute; reflexivity|]); (split; [vm_compute; reflexivity|]);
    (split; [vm_compute; discriminate|]);
    (split; [eexists _, _; split; [vm_compute; reflexivity | split; reflexivity]|]);
    (split; [eexists _, _; split; [vm_compute; reflexivity | split; reflexivity]|]);
    split; vm_compute; reflexivity.
Qed.

(** C6 as stated fails: after [calibrate] on the labels [0, 1], a second
    [calibrate] with [increment=False] on the label [1] removes the label
    [0] from the registry. *)
Lemma registry_label_removed :
  let st1 := fst (IcpClassifier_calibrate false [1; 2]%Q [0; 1]%Z false
                    plain_classifier) in
  let st2 := fst (IcpClassifier_calibrate false [3%Q] [1%Z] false st1) in
  classes st1 = Some [0; 1]%Z
  /\ classes st2 = Some [1%Z]
  /\ ~ (forall l cs1, classes st1 = Some cs1 -> In l cs1 ->
        exists cs2, classes st2 = Some cs2 /\ In l cs2).
Proof.
  cbv zeta. split; [vm_compute; reflexivity|]. split; [vm_compute; reflexivity|].
  intros Hkeep. destruct (Hkeep 0%Z [0; 1]%Z) as (cs2 & Hcs2 & Hin).
  - vm_compute; reflexivity.
  - simpl; auto.
  - vm_compute in Hcs2. injection Hcs2 as <-. simpl in Hin. intuition lia.
Qed.

(** C9 as stated fails: with the significance levels 2 and -1, outside
    (0, 1), the classifier returns a boolean matrix and the regressor
    returns intervals; neither raises. *)
Lemma significance_outside_unit_accepted :
  let st := fst (IcpClassifier_calibrate false
                   [4#10; 1#10; 9#10; 4#10] [0; 0; 0; 0]%Z false plain_classifier) in
  let rg := fst (IcpRegressor_calibrate false
                   [1; 2; 3; 4]%Q [3 # 2; 2; 2; 6]%Q false plain_regressor) in
  snd (IcpClassifier_predict true [4#10] (Some 2%Q) no_draw st) = inr (Included [[false]])
  /\ snd (IcpClassifier_predict true [4#10] (Some (-1)%Q) no_draw st)
    = inr (Included [[true]])
  /\ snd (IcpRegressor_predict false [10%Q] (Some 2%Q) rg) = inr [Interval 10 10]
  /\ snd (IcpRegressor_predict false [10%Q] (Some (-1)%Q) rg) = inr [Interval 8 12].
Proof.
  cbv zeta. repeat split; vm_compute; reflexivity.
Qed.

(** * The theorems at concrete inputs *)

Lemma predict_p_value_counts_witness :
  reachable false true scenario_classifier
  /\ p_values true [4 # 10] no_draw scenario_classifier
     = (scenario_classifier, inr [[20 # 25]])
  /\ classes scenario_classifier = Some [0%Z]
  /\ [0%Z] !! 0 = Some 0%Z
  /\ test_nc_scores scenario_classifier [4 # 10] 0%Z !! 0 = Some (4 # 10)
  /\ exists xj stored v,
      [4 # 10] !! 0 = Some xj
      /\ category_scores (icp scenario_classifier)
           (condition (icp scenario_classifier) (xj, Some 0%Z)) = Some stored
      /\ cell [[20 # 25]] 0 0 = Some v
      /\ let cal := rev stored in
         let n_cal := Z.of_nat (length cal) in
         let idx_left := Z.of_nat (np.searchsorted cal (4 # 10) np.side_left) in
         let idx_right := Z.of_nat (np.searchsorted cal (4 # 10) np.side_right) in
         n_cal = Z.of_nat (length stored)
         /\ n_gt cal (4 # 10) = (n_cal - idx_right)%Z
         /\ n_gt cal (4 # 10) = Z.of_nat (count_gt (4 # 10) stored)
         /\ n_eq cal (4 # 10) = (idx_right - idx_left + 1)%Z
         /\ n_eq cal (4 # 10) = (Z.of_nat (count_eq (4 # 10) stored) + 1)%Z
         /\ (v == inject_Z (n_gt cal (4 # 10)) / inject_Z (n_cal + 1)
                  + (if smoothing scenario_classifier
                     then inject_Z (n_eq cal (4 # 10)) * no_draw 0 0
                          / inject_Z (n_cal + 1)
                     else inject_Z (n_eq cal (4 # 10)) / inject_Z (n_cal + 1)))%Q.
Proof.
  assert (H1 : reachable false true scenario_classifier)
    by (unfold scenario_classifier; apply reach_calibrate, reach_init).
  assert (H2 : p_values true [4 # 10] no_draw scenario_classifier
               = (scenario_classifier, inr [[20 # 25]]))
    by (vm_compute; reflexivity).
  assert (H3 : classes scenario_classifier = Some [0%Z])
    by (vm_compute; reflexivity).
  assert (H4 : [0%Z] !! 0 = Some 0%Z) by reflexivity.
  assert (H5 : test_nc_scores scenario_classifier [4 # 10] 0%Z !! 0 = Some (4 # 10))
    by (vm_compute; reflexivity).
  repeat (split; [assumption|]).
  exact (predict_p_value_counts false _ _ _ _ _ _ _ _ _ _ H1 H2 H3 H4 H5).
Defined.

Lemma prediction_set_monotone_witness :
  (5 # 10 < 7 # 10)%Q
  /\ smoothing scenario_classifier = false
  /\ match snd (IcpClassifier_predict true [4 # 10] (Some (5 # 10)) no_draw
                  scenario_classifier),
           snd (IcpClassifier_predict true [4 # 10] (Some (7 # 10)) half_draw
                  scenario_classifier) with
     | inr (Included b1), inr (Included b2) =>
         forall j i, cell b2 j i = Some true -> cell b1 j i = Some true
     | inl e1, inl e2 => e1 = e2
     | _, _ => False
     end.
Proof.
  assert (H1 : (5 # 10 < 7 # 10)%Q) by reflexivity.
  assert (H2 : smoothing scenario_classifier = false) by reflexivity.
  repeat (split; [assumption|]).
  exact (prediction_set_monotone (strict_setitem := true) [4 # 10] no_draw half_draw scenario_classifier
           (5 # 10) (7 # 10) H1 H2).
Defined.

Lemma p_values_unit_interval_deterministic_witness :
  (smoothing smoothed_classifier = true ->
   forall j i, (0 <= half_draw j i < 1)%Q)
  /\ IcpClassifier_predict false [4 # 10] None half_draw smoothed_classifier
     = (smoothed_classifier, inr (PValues [[25 # 50]]))
  /\ cell [[25 # 50]] 0 0 = Some (25 # 50)
  /\ (0 <= 25 # 50 <= 1)%Q
  /\ smoothing scenario_classifier = false
  /\ IcpClassifier_predict true [4 # 10] None no_draw scenario_classifier
     = IcpClassifier_predict true [4 # 10] None half_draw scenario_classifier.
Proof.
  assert (H1 : smoothing smoothed_classifier = true ->
               forall j i, (0 <= half_draw j i < 1)%Q).
  { intros _ j i. unfold half_draw. split; [discriminate | reflexivity]. }
  assert (H2 : IcpClassifier_predict false [4 # 10] None half_draw smoothed_classifier
               = (smoothed_classifier, inr (PValues [[25 # 50]])))
    by (vm_compute; reflexivity).
  assert (H3 : cell [[25 # 50]] 0 0 = Some (25 # 50)) by reflexivity.
  assert (H4 : smoothing scenario_classifier = false) by reflexivity.
  split; [exact H1|]. split; [exact H2|]. split; [exact H3|].
  split; [exact (proj1 (p_values_unit_interval_deterministic [4 # 10]
                          smoothed_classifier) _ _ _ _ _ _ H1 H2 H3)|].
  split; [exact H4|].
  exact (proj1 (proj2 (p_values_unit_interval_deterministic [4 # 10]
                         scenario_classifier) H4 no_draw half_draw)).
Defined.

Lemma unseen_category_p_value_witness :
  reachable false true binned_classifier
  /\ conditional (icp binned_classifier) = true
  /\ smoothing binned_classifier = false
  /\ cal_scores (icp binned_classifier)
     = Some {| entries := {[ 0%Z := [8 # 10; 5 # 10] ]}; is_defaultdict := true |}
  /\ classes binned_classifier = Some [0; 1]%Z
  /\ [0; 1]%Z !! 1 = Some 1%Z
  /\ test_nc_scores binned_classifier [15 # 10] 1%Z !! 0 = Some (5 # 10)
  /\ [15 # 10] !! 0 = Some (15 # 10)
  /\ ({[ 0%Z := [8 # 10; 5 # 10] ]} : gmap Z (list Q))
       !! condition (icp binned_classifier) (15 # 10, Some 1%Z) = None
  /\ snd (IcpClassifier_predict true [15 # 10] (Some (99 # 100)) no_draw binned_classifier)
     = inr (Included [[true; true]])
  /\ category_scores (icp binned_classifier)
       (condition (icp binned_classifier) (15 # 10, Some 1%Z)) = Some []
  /\ (forall st' p,
        IcpClassifier_predict true [15 # 10] None no_draw binned_classifier
        = (st', inr (PValues p)) ->
        exists v, cell p 0 1 = Some v /\ (v == 1)%Q)
  /\ (forall (s : Q) st' b,
        (s < 1)%Q ->
        IcpClassifier_predict true [15 # 10] (Some s) no_draw binned_classifier
        = (st', inr (Included b)) ->
        cell b 0 1 = Some true).
Proof.
  assert (H1 : reachable false true binned_classifier)
    by (unfold binned_classifier; apply reach_calibrate, reach_init).
  assert (H2 : conditional (icp binned_classifier) = true) by reflexivity.
  assert (H3 : smoothing binned_classifier = false) by reflexivity.
  assert (H4 : cal_scores (icp binned_classifier)
               = Some {| entries := {[ 0%Z := [8 # 10; 5 # 10] ]};
                         is_defaultdict := true |})
    by (vm_compute; reflexivity).
  assert (H5 : classes binned_classifier = Some [0; 1]%Z)
    by (vm_compute; reflexivity).
  assert (H6 : [0; 1]%Z !! 1 = Some 1%Z) by reflexivity.
  assert (H7 : test_nc_scores binned_classifier [15 # 10] 1%Z !! 0 = Some (5 # 10))
    by (vm_compute; reflexivity).
  assert (H8 : [15 # 10] !! 0 = Some (15 # 10)) by reflexivity.
  assert (H9 : ({[ 0%Z := [8 # 10; 5 # 10] ]} : gmap Z (list Q))
                 !! condition (icp binned_classifier) (15 # 10, Some 1%Z) = None)
    by (vm_compute; reflexivity).
  assert (H10 : snd (IcpClassifier_predict true [15 # 10] (Some (99 # 100)) no_draw
                       binned_classifier) = inr (Included [[true; true]]))
    by (vm_compute; reflexivity).
  repeat (split; [assumption|]).
  exact (unseen_category_p_value false [15 # 10] no_draw binned_classifier _
           _ 1 1%Z 0 (5 # 10) (15 # 10) H1 H2 H3 H4 H5 H6 H7 H8 H9).
Defined.

Lemma classes_registry_witness :
  exists cs',
    classes (fst (IcpClassifier_calibrate false [3%Q] [2%Z] true scenario_classifier))
    = Some cs'
    /\ StronglySorted Z.lt cs'
    /\ (forall l, In l cs' <->
                  In l [2%Z]
                  \/ (true = true
                      /\ exists cs, classes scenario_classifier = Some cs /\ In l cs)).
Proof.
  exact (classes_registry false [3%Q] [2%Z] true scenario_classifier).
Defined.

(** The concrete regression function returns one interval per example at
    every significance level. *)
Lemma abs_diff_regressor_contract (s : Q) (xs scores : list Q) :
  let p := nc_predict tt xs scores (Some s) in
  length p = length xs /\ forallb (shape_ok 1) p = true.
Proof.
  simpl. split; [apply length_map|].
  induction xs as [|x xs IH]; [reflexivity | exact IH].
Qed.

Lemma predict_significance_unchecked_witness :
  categories (reg_icp binned_regressor) = Some [0; 1]%Z
  /\ snd (IcpClassifier_predict true [4 # 10] (Some 2%Q) no_draw
            scenario_classifier)
     = inr (Included [[false]])
  /\ exists d rg' prediction,
      cal_scores (reg_icp binned_regressor) = Some d
      /\ IcpRegressor_predict false [5 # 2; 1 # 4; 3 # 4] (Some 2%Q)
           binned_regressor
         = (rg', inr prediction)
      /\ length prediction = length [(5 # 2)%Q; (1 # 4)%Q; (3 # 4)%Q]
      /\ (forall c scores,
            In c [0; 1]%Z -> scores_of d c = Some scores ->
            let idx :=
              np.eq_mask
                (map (fun xi => condition (reg_icp binned_regressor) (xi, None))
                   [5 # 2; 1 # 4; 3 # 4]) c in
            compress idx prediction
            = nc_predict (nc_function (reg_icp binned_regressor))
                (compress idx [5 # 2; 1 # 4; 3 # 4]) scores (Some 2%Q))
      /\ (forall j xj,
            [(5 # 2)%Q; (1 # 4)%Q; (3 # 4)%Q] !! j = Some xj ->
            ~ In (condition (reg_icp binned_regressor) (xj, None)) [0; 1]%Z ->
            prediction !! j = Some (Interval 0 0)).
Proof.
  assert (H1 : categories (reg_icp binned_regressor) = Some [0; 1]%Z)
    by (vm_compute; reflexivity).
  destruct (cal_scores (reg_icp binned_regressor)) as [d|] eqn:H2;
    [|exfalso; vm_compute in H2; discriminate].
  assert (Hdef : is_defaultdict d = true)
    by (vm_compute in H2; injection H2 as <-; reflexivity).
  assert (H3 : forall c, In c [0; 1]%Z -> is_Some (scores_of d c)).
  { intros c _. unfold scores_of. rewrite Hdef.
    destruct (entries d !! c); eexists; reflexivity. }
  assert (H4 : forall xs scores,
             let p := nc_predict (nc_function (reg_icp binned_regressor))
                        xs scores (Some 2%Q) in
             length p = length xs /\ forallb (shape_ok 1) p = true)
    by (intros xs scores; apply abs_diff_regressor_contract).
  pose proof (predict_significance_unchecked (strict_setitem := true) false
                2%Q [4 # 10] no_draw scenario_classifier
                [5 # 2; 1 # 4; 3 # 4] binned_regressor [0; 1]%Z d)
    as (Hc & _ & Hr).
  split; [exact H1|].
  split; [rewrite Hc; vm_compute; reflexivity|].
  destruct (Hr H1 H2 H3 H4) as (rg' & prediction & Hrun).
  exists d, rg', prediction. split; [reflexivity | exact Hrun].
Defined.

(** * The further properties at concrete inputs *)

Lemma predict_shape_witness :
  IcpClassifier_predict true [4 # 10] None no_draw scenario_classifier
  = (scenario_classifier, inr (PValues [[20 # 25]]))
  /\ classes scenario_classifier = Some [0%Z]
  /\ (@None Q = None /\ has_shape 1 1 [[20 # 25]]).
Proof.
  assert (H1 : IcpClassifier_predict true [4 # 10] None no_draw scenario_classifier
               = (scenario_classifier, inr (PValues [[20 # 25]])))
    by (vm_compute; reflexivity).
  assert (H2 : classes scenario_classifier = Some [0%Z])
    by (vm_compute; reflexivity).
  split; [exact H1|]. split; [exact H2|].
  exact (predict_shape [4 # 10] None no_draw scenario_classifier _ _ _ H1 H2).
Defined.

Lemma significance_extremes_witness :
  (smoothing scenario_classifier = true ->
   forall j i, (0 <= no_draw j i < 1)%Q)
  /\ IcpClassifier_predict true [4 # 10] (Some 1%Q) no_draw scenario_classifier
     = (scenario_classifier, inr (Included [[false]]))
  /\ (1 <= 1)%Q
  /\ (forall j i v, cell [[false]] j i = Some v -> v = false).
Proof.
  assert (H1 : smoothing scenario_classifier = true ->
               forall j i, (0 <= no_draw j i < 1)%Q)
    by (intros _ j i; split; [discriminate | reflexivity]).
  assert (H2 : IcpClassifier_predict true [4 # 10] (Some 1%Q) no_draw
                 scenario_classifier
               = (scenario_classifier, inr (Included [[false]])))
    by (vm_compute; reflexivity).
  assert (H3 : (1 <= 1)%Q) by discriminate.
  split; [exact H1|]. split; [exact H2|]. split; [exact H3|].
  exact (proj1 (significance_extremes [4 # 10] no_draw scenario_classifier
                  _ _ 1%Q H1 H2) H3).
Defined.

Lemma reachable_invariants_witness :
  reachable false true binned_classifier
  /\ (forall d k a, cal_scores (icp binned_classifier) = Some d ->
                    entries d !! k = Some a -> descending a)
  /\ (forall d, cal_scores (icp binned_classifier) = Some d ->
                is_defaultdict d = conditional (icp binned_classifier))
  /\ (forall cs, classes binned_classifier = Some cs ->
                 StronglySorted Z.lt cs).
Proof.
  assert (H1 : reachable false true binned_classifier)
    by (unfold binned_classifier; apply reach_calibrate, reach_init).
  destruct (reachable_invariants false binned_classifier H1)
    as (Hd & Hdict & _ & Hcs).
  split; [exact H1|]. split; [exact Hd|]. split; [exact Hdict | exact Hcs].
Defined.

Lemma predict_errors_witness :
  reachable false true smoothed_classifier
  /\ snd (IcpClassifier_predict true [4 # 10] None half_draw smoothed_classifier)
     = inl ValueError
  /\ ((ValueError = AttributeError
       /\ (classes smoothed_classifier = None
           \/ cal_scores (icp smoothed_classifier) = None))
      \/ (ValueError = IndexError
          /\ exists cs c, classes smoothed_classifier = Some cs /\ c ∈ cs
               /\ length [(4 # 10)%Q]
                  < length (test_nc_scores smoothed_classifier [4 # 10] c))
      \/ (ValueError = ValueError
          /\ smoothing smoothed_classifier = true /\ true = true)).
Proof.
  assert (H1 : reachable false true smoothed_classifier)
    by (unfold smoothed_classifier; apply reach_calibrate, reach_init).
  assert (H2 : snd (IcpClassifier_predict true [4 # 10] None half_draw
                      smoothed_classifier) = inl ValueError)
    by (vm_compute; reflexivity).
  split; [exact H1|]. split; [exact H2|].
  exact (predict_errors false [4 # 10] None half_draw smoothed_classifier _
           H1 H2).
Defined.

Lemma rank_counts_witness :
  descending [9 # 10; 4 # 10; 4 # 10; 1 # 10]
  /\ (n_gt (rev [9 # 10; 4 # 10; 4 # 10; 1 # 10]) (4 # 10)
      + n_eq (rev [9 # 10; 4 # 10; 4 # 10; 1 # 10]) (4 # 10)
      = Z.of_nat (count_ge (4 # 10) [9 # 10; 4 # 10; 4 # 10; 1 # 10]) + 1)%Z
  /\ (4 # 10 <= 9 # 10)%Q
  /\ (n_gt (rev [9 # 10; 4 # 10; 4 # 10; 1 # 10]) (9 # 10)
      <= n_gt (rev [9 # 10; 4 # 10; 4 # 10; 1 # 10]) (4 # 10))%Z
  /\ (n_gt (rev [9 # 10; 4 # 10; 4 # 10; 1 # 10]) (9 # 10)
      + n_eq (rev [9 # 10; 4 # 10; 4 # 10; 1 # 10]) (9 # 10)
      <= n_gt (rev [9 # 10; 4 # 10; 4 # 10; 1 # 10]) (4 # 10)
         + n_eq (rev [9 # 10; 4 # 10; 4 # 10; 1 # 10]) (4 # 10))%Z.
Proof.
  assert (H1 : descending [9 # 10; 4 # 10; 4 # 10; 1 # 10]).
  { unfold descending.
    repeat (apply SSorted_cons;
            [| repeat (apply List.Forall_cons; [discriminate|]);
               apply List.Forall_nil]).
    apply SSorted_nil. }
  assert (H2 : (4 # 10 <= 9 # 10)%Q) by discriminate.
  destruct (rank_counts [9 # 10; 4 # 10; 4 # 10; 1 # 10] (4 # 10) (9 # 10) H1)
    as [Hrank Hmono].
  split; [exact H1|]. split; [exact Hrank|]. split; [exact H2|].
  exact (Hmono H2).
Defined.

Lemma smoothing_bounds_witness :
  (0 <= 1 # 2 <= 1)%Q
  /\ (inject_Z (n_gt [1 # 10; 4 # 10; 4 # 10; 9 # 10] (4 # 10))
      / inject_Z (Z.of_nat (length [1 # 10; 4 # 10; 4 # 10; 9 # 10]) + 1)
      <= p_value true [1 # 10; 4 # 10; 4 # 10; 9 # 10] (4 # 10) (1 # 2))%Q
  /\ (p_value true [1 # 10; 4 # 10; 4 # 10; 9 # 10] (4 # 10) (1 # 2)
      <= p_value false [1 # 10; 4 # 10; 4 # 10; 9 # 10] (4 # 10) (1 # 2))%Q
  /\ (1 / inject_Z (Z.of_nat (length [1 # 10; 4 # 10; 4 # 10; 9 # 10]) + 1)
      <= p_value false [1 # 10; 4 # 10; 4 # 10; 9 # 10] (4 # 10) (1 # 2))%Q.
Proof.
  assert (H1 : (0 <= 1 # 2 <= 1)%Q) by (split; discriminate).
  split; [exact H1|].
  exact (smoothing_bounds [1 # 10; 4 # 10; 4 # 10; 9 # 10] (4 # 10) (1 # 2) H1).
Defined.

Lemma incremental_conditional_raises_witness :
  conditional (icp binned_classifier) = true
  /\ cal_x (icp binned_classifier) = Some [5 # 10; 2 # 10]
  /\ cal_y (icp binned_classifier) = Some [0; 1]%Z
  /\ 0 < length [(5 # 10)%Q; (2 # 10)%Q]
  /\ length [(3 # 10)%Q] = length [0%Z]
  /\ 0 < length [0%Z]
  /\ let r := calibrate false [3 # 10] [0%Z] true (icp binned_classifier) in
     snd r = inl IndexError
     /\ cal_x (fst r) = Some ([5 # 10; 2 # 10] ++ [3 # 10])
     /\ cal_y (fst r) = Some ([0; 1]%Z ++ [0%Z])
     /\ categories (fst r)
        = Some (np.unique
                  (zip_with (fun xi yi =>
                               condition (icp binned_classifier) (xi, Some yi))
                     [3 # 10] [0%Z]))
     /\ table_entries (fst r) = ∅.
Proof.
  assert (H1 : conditional (icp binned_classifier) = true) by reflexivity.
  assert (H2 : cal_x (icp binned_classifier) = Some [5 # 10; 2 # 10])
    by reflexivity.
  assert (H3 : cal_y (icp binned_classifier) = Some [0; 1]%Z) by reflexivity.
  assert (H4 : 0 < length [(5 # 10)%Q; (2 # 10)%Q]) by (simpl; lia).
  assert (H5 : length [(3 # 10)%Q] = length [0%Z]) by reflexivity.
  assert (H6 : 0 < length [0%Z]) by (simpl; lia).
  repeat (split; [assumption|]).
  exact (incremental_conditional_raises [3 # 10] [0%Z] (icp binned_classifier)
           _ _ H1 H2 H3 H4 H5 H6).
Defined.

Lemma calibrate_fewer_rows_witness :
  conditional (icp binned_classifier) = true
  /\ length [(3 # 10)%Q] < length [0; 2]%Z
  /\ (false = false \/ cal_x (icp binned_classifier) = None
      \/ cal_y (icp binned_classifier) = None)
  /\ let r := IcpClassifier_calibrate false [3 # 10] [0; 2]%Z false
                binned_classifier in
     snd r = inl IndexError
     /\ classes (fst r)
        = Some (updated_classes (classes binned_classifier) [0; 2]%Z false)
     /\ cal_x (icp (fst r)) = Some [3 # 10]
     /\ cal_y (icp (fst r)) = Some [0; 2]%Z
     /\ categories (icp (fst r)) = categories (icp binned_classifier)
     /\ cal_scores (icp (fst r)) = cal_scores (icp binned_classifier).
Proof.
  assert (H1 : conditional (icp binned_classifier) = true) by reflexivity.
  assert (H2 : length [(3 # 10)%Q] < length [0; 2]%Z) by (simpl; lia).
  assert (H3 : false = false \/ cal_x (icp binned_classifier) = None
               \/ cal_y (icp binned_classifier) = None)
    by (left; reflexivity).
  split; [exact H1|]. split; [exact H2|]. split; [exact H3|].
  exact (calibrate_fewer_rows false [3 # 10] [0; 2]%Z false binned_classifier
           H1 H2 H3).
Defined.

Lemma regressor_unseen_category_witness :
  IcpRegressor_predict false [5 # 2; 1 # 4; 3 # 4] (Some (1 # 10)) binned_regressor
  = (binned_regressor,
     inr [Interval 0 0; Interval (-2 # 8) (6 # 8); Interval (2 # 8) (10 # 8)])
  /\ categories (reg_icp binned_regressor) = Some [0; 1]%Z
  /\ [5 # 2; 1 # 4; 3 # 4] !! 0 = Some (5 # 2)
  /\ (condition (reg_icp binned_regressor) (5 # 2, None) ∉ [0; 1]%Z)
  /\ [Interval 0 0; Interval (-2 # 8) (6 # 8); Interval (2 # 8) (10 # 8)] !! 0
     = Some (zero_bounds 1).
Proof.
  assert (H1 : IcpRegressor_predict false [5 # 2; 1 # 4; 3 # 4] (Some (1 # 10))
                 binned_regressor
               = (binned_regressor,
                  inr [Interval 0 0; Interval (-2 # 8) (6 # 8);
                       Interval (2 # 8) (10 # 8)]))
    by (vm_compute; reflexivity).
  assert (H2 : categories (reg_icp binned_regressor) = Some [0; 1]%Z)
    by (vm_compute; reflexivity).
  assert (H3 : [5 # 2; 1 # 4; 3 # 4] !! 0 = Some (5 # 2)) by reflexivity.
  assert (H4 : condition (reg_icp binned_regressor) (5 # 2, None) ∉ [0; 1]%Z).
  { change (condition (reg_icp binned_regressor) (5 # 2, None)) with 2%Z.
    intros Hin. apply elem_of_cons in Hin as [Hin|Hin]; [discriminate|].
    apply elem_of_cons in Hin as [Hin|Hin]; [discriminate|].
    apply elem_of_nil in Hin. exact Hin. }
  repeat (split; [assumption|]).
  exact (regressor_unseen_category false _ _ _ _ _ _ 0 (5 # 2) H1 H2 H3 H4).
Defined.

Lemma regressor_unconditional_witness :
  (forall e, condition (reg_icp scenario_regressor) e = 0%Z)
  /\ categories (reg_icp scenario_regressor) = Some [0%Z]
  /\ cal_scores (reg_icp scenario_regressor)
     = Some {| entries := {[ 0%Z := [2; 1; 1 # 2; 0]%Q ]};
               is_defaultdict := false |}
  /\ ({[ 0%Z := [2; 1; 1 # 2; 0]%Q ]} : gmap Z (list Q)) !! 0%Z
     = Some [2; 1; 1 # 2; 0]%Q
  /\ [10%Q] <> []
  /\ IcpRegressor_predict false [10%Q] (Some (1 # 10)) scenario_regressor
     = (scenario_regressor,
        inr (nc_predict tt [10%Q] [2; 1; 1 # 2; 0]%Q (Some (1 # 10))))
  /\ IcpRegressor_predict false [] (Some (1 # 10)) scenario_regressor
     = (scenario_regressor, inr []).
Proof.
  assert (H1 : forall e, condition (reg_icp scenario_regressor) e = 0%Z)
    by (intros e; reflexivity).
  assert (H2 : categories (reg_icp scenario_regressor) = Some [0%Z])
    by (vm_compute; reflexivity).
  assert (H3 : cal_scores (reg_icp scenario_regressor)
               = Some {| entries := {[ 0%Z := [2; 1; 1 # 2; 0]%Q ]};
                         is_defaultdict := false |})
    by (vm_compute; reflexivity).
  assert (H4 : ({[ 0%Z := [2; 1; 1 # 2; 0]%Q ]} : gmap Z (list Q)) !! 0%Z
               = Some [2; 1; 1 # 2; 0]%Q) by (vm_compute; reflexivity).
  assert (H5 : [10%Q] <> []) by discriminate.
  destruct (regressor_unconditional false [10%Q] (Some (1 # 10))
              scenario_regressor _ _ H1 H2 H3 H4) as [Hrows _].
  destruct (regressor_unconditional false [] (Some (1 # 10))
              scenario_regressor _ _ H1 H2 H3 H4) as [_ Hnone].
  repeat (split; [assumption|]).
  split; [|exact Hnone].
  apply Hrows; [exact H5 | reflexivity | reflexivity].
Defined.

Lemma regressor_category_rows_witness :
  IcpRegressor_predict false [5 # 2; 1 # 4; 3 # 4] (Some (1 # 10)) binned_regressor
  = (binned_regressor,
     inr [Interval 0 0; Interval (-2 # 8) (6 # 8); Interval (2 # 8) (10 # 8)])
  /\ categories (reg_icp binned_regressor) = Some [0; 1]%Z
  /\ NoDup [0; 1]%Z
  /\ (0%Z ∈ [0; 1]%Z)
  /\ compress [false; true; true] [5 # 2; 1 # 4; 3 # 4] <> []
  /\ exists d scores,
       cal_scores (reg_icp binned_regressor) = Some d
       /\ scores_of d 0%Z = Some scores
       /\ compress [false; true; true]
            [Interval 0 0; Interval (-2 # 8) (6 # 8); Interval (2 # 8) (10 # 8)]
          = nc_predict tt [1 # 4; 3 # 4] scores (Some (1 # 10)).
Proof.
  assert (H1 : IcpRegressor_predict false [5 # 2; 1 # 4; 3 # 4] (Some (1 # 10))
                 binned_regressor
               = (binned_regressor,
                  inr [Interval 0 0; Interval (-2 # 8) (6 # 8);
                       Interval (2 # 8) (10 # 8)]))
    by (vm_compute; reflexivity).
  assert (H2 : categories (reg_icp binned_regressor) = Some [0; 1]%Z)
    by (vm_compute; reflexivity).
  assert (H3 : NoDup [0; 1]%Z).
  { apply NoDup_cons. split.
    - intros Hin. apply elem_of_cons in Hin as [Hin|Hin]; [discriminate|].
      apply elem_of_nil in Hin. exact Hin.
    - apply NoDup_singleton. }
  assert (H4 : 0%Z ∈ [0; 1]%Z) by (apply elem_of_cons; left; reflexivity).
  assert (H5 : compress [false; true; true] [5 # 2; 1 # 4; 3 # 4] <> [])
    by discriminate.
  repeat (split; [assumption|]).
  destruct (cal_scores (reg_icp binned_regressor)) as [d|] eqn:Hd;
    [|exfalso; vm_compute in Hd; discriminate].
  destruct (regressor_category_rows false [5 # 2; 1 # 4; 3 # 4] (Some (1 # 10))
              binned_regressor _ _ _ d 0%Z H1 H2 H3 Hd H4 H5)
    as (_ & scores & Hscores & Hrows).
  exists d, scores. split; [reflexivity|]. split; [exact Hscores|].
  apply Hrows. reflexivity.
Defined.

Lemma split_indices_partition_witness :
  NoDup [3; 0; 4; 1; 5; 2; 6]
  /\ split_indices [3; 0; 4; 1; 5; 2; 6] = ([3; 0], [4; 1], [5; 2; 6])
  /\ (forall i, i ∈ [3; 0] -> (i ∉ [4; 1]) /\ (i ∉ [5; 2; 6]))
  /\ (forall i, i ∈ [4; 1] -> i ∉ [5; 2; 6]).
Proof.
  assert (H1 : NoDup [3; 0; 4; 1; 5; 2; 6]).
  { repeat (apply NoDup_cons;
            split; [rewrite ?elem_of_cons, ?elem_of_nil; lia|]).
    apply NoDup_nil. exact I. }
  split; [exact H1|]. split; [reflexivity|].
  exact (proj2 (proj2 (proj2 (proj2
           (split_indices_partition [3; 0; 4; 1; 5; 2; 6])))) H1).
Defined.

Lemma icp_regression_tree_table_witness :
  length [1; 2; 3; 4; 5; 6]%Q = length [3 # 2; 2; 2; 6; 5; 7]%Q
  /\ Forall (fun i => i < length [3 # 2; 2; 2; 6; 5; 7]%Q) [3; 0; 4; 1; 5; 2]
  /\ (forall (nc' : unit) (xs scores : list Q),
        let p := nc_predict nc' xs scores (Some (1 # 10)%Q) in
        length p = length xs /\ forallb (shape_ok 1) p = true)
  /\ snd (icp_regression_tree false [1; 2; 3; 4; 5; 6]%Q
            [3 # 2; 2; 2; 6; 5; 7]%Q [3; 0; 4; 1; 5; 2]
            (IcpRegressor_init tt None))
     = inr [[6; 6; 7]; [3; 3; 2]]%Q
  /\ let '(train, calibrate_idx, test) := split_indices [3; 0; 4; 1; 5; 2] in
     exists x_train y_train x_cal y_cal x_test table,
       take_rows [1; 2; 3; 4; 5; 6]%Q train = inr x_train
       /\ take_rows [3 # 2; 2; 2; 6; 5; 7]%Q train = inr y_train
       /\ take_rows [1; 2; 3; 4; 5; 6]%Q calibrate_idx = inr x_cal
       /\ take_rows [3 # 2; 2; 2; 6; 5; 7]%Q calibrate_idx = inr y_cal
       /\ take_rows [1; 2; 3; 4; 5; 6]%Q test = inr x_test
       /\ snd (icp_regression_tree false [1; 2; 3; 4; 5; 6]%Q
                 [3 # 2; 2; 2; 6; 5; 7]%Q [3; 0; 4; 1; 5; 2]
                 (IcpRegressor_init tt None)) = inr table
       /\ length table = length test
       /\ forall k i, test !! k = Some i ->
            exists lo hi t,
              table !! k = Some [lo; hi; t]
              /\ [3 # 2; 2; 2; 6; 5; 7]%Q !! i = Some t
              /\ let fitted := nc_fit tt x_train y_train in
                 nc_predict fitted x_test
                   (rev (np.sort (nc_calc_nc fitted x_cal y_cal)))
                   (Some (1 # 10)%Q) !! k
                 = Some (Interval lo hi).
Proof.
  assert (H1 : length [1; 2; 3; 4; 5; 6]%Q = length [3 # 2; 2; 2; 6; 5; 7]%Q)
    by reflexivity.
  assert (H2 : Forall (fun i => i < length [3 # 2; 2; 2; 6; 5; 7]%Q)
                 [3; 0; 4; 1; 5; 2]).
  { repeat (apply List.Forall_cons; [simpl; lia|]). apply List.Forall_nil. }
  assert (H3 : forall (nc' : unit) (xs scores : list Q),
             let p := nc_predict nc' xs scores (Some (1 # 10)%Q) in
             length p = length xs /\ forallb (shape_ok 1) p = true)
    by (intros [] xs scores; apply abs_diff_regressor_contract).
  split; [exact H1|]. split; [exact H2|]. split; [exact H3|].
  split; [vm_compute; reflexivity|].
  exact (icp_regression_tree_table false tt [1; 2; 3; 4; 5; 6]%Q
           [3 # 2; 2; 2; 6; 5; 7]%Q [3; 0; 4; 1; 5; 2] H1 H2 H3).
Defined.

Lemma predict_returns_witness :
  let d := {| entries := {[ 0%Z := [9 # 10; 4 # 10; 4 # 10; 1 # 10] ]};
              is_defaultdict := false |} in
  (classes scenario_classifier = Some [0%Z]
   /\ cal_scores (icp scenario_classifier) = Some d
   /\ (forall c xj, In c [0%Z] -> In xj [(4 # 10)%Q] ->
         is_Some (scores_of d (condition (icp scenario_classifier) (xj, Some c))))
   /\ (forall c, In c [0%Z] ->
         length (test_nc_scores scenario_classifier [4 # 10] c)
         <= length [(4 # 10)%Q])
   /\ smoothing scenario_classifier && true = false
   /\ exists st' r,
        IcpClassifier_predict true [4 # 10] None no_draw scenario_classifier
        = (st', inr r)
        /\ same_view scenario_classifier st'
        /\ cal_x (icp st') = cal_x (icp scenario_classifier)
        /\ cal_y (icp st') = cal_y (icp scenario_classifier)
        /\ categories (icp st') = categories (icp scenario_classifier))
  /\ (classes smoothed_classifier = Some [0%Z]
      /\ cal_scores (icp smoothed_classifier) = Some d
      /\ (forall c xj, In c [0%Z] -> In xj [(4 # 10)%Q] ->
            is_Some (scores_of d (condition (icp smoothed_classifier) (xj, Some c))))
      /\ (forall c, In c [0%Z] ->
            length (test_nc_scores smoothed_classifier [4 # 10] c)
            <= length [(4 # 10)%Q])
      /\ smoothing smoothed_classifier && true = true
      /\ test_nc_scores smoothed_classifier [4 # 10] 0%Z <> []
      /\ snd (IcpClassifier_predict true [4 # 10] None half_draw
                smoothed_classifier)
         = inl ValueError).
Proof.
  cbv zeta.
  set (d := {| entries := {[ 0%Z := [9 # 10; 4 # 10; 4 # 10; 1 # 10] ]};
               is_defaultdict := false |}).
  split.
  - assert (H1 : classes scenario_classifier = Some [0%Z])
      by (vm_compute; reflexivity).
    assert (H2 : cal_scores (icp scenario_classifier) = Some d)
      by (vm_compute; reflexivity).
    assert (H3 : forall c xj, In c [0%Z] -> In xj [(4 # 10)%Q] ->
               is_Some (scores_of d
                          (condition (icp scenario_classifier) (xj, Some c))))
      by (intros c xj _ _; eexists; reflexivity).
    assert (H4 : forall c, In c [0%Z] ->
               length (test_nc_scores scenario_classifier [4 # 10] c)
               <= length [(4 # 10)%Q])
      by (intros c _; simpl; lia).
    assert (H5 : smoothing scenario_classifier && true = false) by reflexivity.
    repeat (split; [assumption|]).
    exact (proj1 (predict_returns (strict_setitem := true) [4 # 10] None
                    no_draw scenario_classifier _ _ H1 H2 H3 H4) H5).
  - assert (H1 : classes smoothed_classifier = Some [0%Z])
      by (vm_compute; reflexivity).
    assert (H2 : cal_scores (icp smoothed_classifier) = Some d)
      by (vm_compute; reflexivity).
    assert (H3 : forall c xj, In c [0%Z] -> In xj [(4 # 10)%Q] ->
               is_Some (scores_of d
                          (condition (icp smoothed_classifier) (xj, Some c))))
      by (intros c xj _ _; eexists; reflexivity).
    assert (H4 : forall c, In c [0%Z] ->
               length (test_nc_scores smoothed_classifier [4 # 10] c)
               <= length [(4 # 10)%Q])
      by (intros c _; simpl; lia).
    assert (H5 : smoothing smoothed_classifier && true = true) by reflexivity.
    assert (H6 : test_nc_scores smoothed_classifier [4 # 10] 0%Z <> [])
      by discriminate.
    repeat (split; [assumption|]).
    exact (proj2 (predict_returns (strict_setitem := true) [4 # 10] None
                    half_draw smoothed_classifier _ _ H1 H2 H3 H4)
             H5 0%Z [] eq_refl H6).
Defined.

Lemma calibrate_categories_of_batch_witness :
  conditional (icp binned_classifier) = true
  /\ category_map_of (condition (icp binned_classifier)) [15 # 10] [1%Z]
     = inr [1%Z]
  /\ categories (fst (calibrate true [15 # 10] [1%Z] true (icp binned_classifier)))
     = Some (np.unique [1%Z]).
Proof.
  assert (H1 : conditional (icp binned_classifier) = true) by reflexivity.
  assert (H2 : category_map_of (condition (icp binned_classifier)) [15 # 10] [1%Z]
               = inr [1%Z]) by (vm_compute; reflexivity).
  split; [exact H1|]. split; [exact H2|].
  exact (calibrate_categories_of_batch true [15 # 10] [1%Z] true
           (icp binned_classifier) [1%Z] H1 H2).
Defined.

Lemma partition_unconditional_witness :
  let b' := fst (calibrate false [4 # 10; 1 # 10; 9 # 10; 4 # 10]
                   [0; 0; 0; 0]%Z false (icp plain_classifier)) in
  conditional (icp plain_classifier) = false
  /\ cal_x b' = Some [4 # 10; 1 # 10; 9 # 10; 4 # 10]
  /\ cal_y b' = Some [0; 0; 0; 0]%Z
  /\ length (nc_calc_nc (nc_function (icp plain_classifier))
               [4 # 10; 1 # 10; 9 # 10; 4 # 10] [0; 0; 0; 0]%Z)
     = length [0; 0; 0; 0]%Z
  /\ categories b' = Some [0%Z]
  /\ table_entries b'
     = {[ 0%Z := rev (np.sort (nc_calc_nc (nc_function (icp plain_classifier))
                                 [4 # 10; 1 # 10; 9 # 10; 4 # 10]
                                 [0; 0; 0; 0]%Z)) ]}
  /\ table_size_of b' = cal_size b'.
Proof.
  intros b'.
  assert (H1 : conditional (icp plain_classifier) = false) by reflexivity.
  assert (H2 : cal_x b' = Some [4 # 10; 1 # 10; 9 # 10; 4 # 10]) by reflexivity.
  assert (H3 : cal_y b' = Some [0; 0; 0; 0]%Z) by reflexivity.
  assert (H4 : length (nc_calc_nc (nc_function (icp plain_classifier))
                         [4 # 10; 1 # 10; 9 # 10; 4 # 10] [0; 0; 0; 0]%Z)
               = length [0; 0; 0; 0]%Z) by reflexivity.
  repeat (split; [assumption|]).
  exact (partition_unconditional false [4 # 10; 1 # 10; 9 # 10; 4 # 10]
           [0; 0; 0; 0]%Z false (icp plain_classifier) _ _ H1 H2 H3 H4).
Defined.

Lemma incremental_equivalence_unconditional_witness :
  conditional (icp plain_classifier) = false
  /\ IcpClassifier_calibrate false ([4 # 10; 1 # 10] ++ [9 # 10; 4 # 10])
       ([0; 0]%Z ++ [0; 1]%Z) false plain_classifier
     = IcpClassifier_calibrate false [9 # 10; 4 # 10] [0; 1]%Z true
         (fst (IcpClassifier_calibrate false [4 # 10; 1 # 10] [0; 0]%Z false
                 plain_classifier)).
Proof.
  assert (H1 : conditional (icp plain_classifier) = false) by reflexivity.
  split; [exact H1|].
  exact (incremental_equivalence_unconditional false [4 # 10; 1 # 10] [0; 0]%Z
           [9 # 10; 4 # 10] [0; 1]%Z plain_classifier H1).
Defined.

(** The concrete nonconformity function of the classifiers returns one score
    per example. *)
Lemma abs_error_nc_contract (sx : list Q) (sy : list Z) :
  length sx = length sy -> length (nc_calc_nc tt sx sy) = length sy.
Proof.
  intros Hlen. simpl. rewrite length_zip_with. lia.
Qed.

Lemma partition_conditional_replace_witness :
  conditional (icp mondrian_classifier) = true
  /\ length [(5 # 10)%Q; (2 # 10)%Q; (3 # 10)%Q] = length [0; 1; 0]%Z
  /\ (forall (sx : list Q) (sy : list Z), length sx = length sy ->
        length (nc_calc_nc (nc_function (icp mondrian_classifier)) sx sy)
        = length sy)
  /\ let cm := zip_with (fun xi yi =>
                           condition (icp mondrian_classifier) (xi, Some yi))
                 [5 # 10; 2 # 10; 3 # 10] [0; 1; 0]%Z in
     let r := calibrate false [5 # 10; 2 # 10; 3 # 10] [0; 1; 0]%Z false
                (icp mondrian_classifier) in
     snd r = inr tt
     /\ cal_x (fst r) = Some [5 # 10; 2 # 10; 3 # 10]
     /\ cal_y (fst r) = Some [0; 1; 0]%Z
     /\ categories (fst r) = Some (np.unique cm)
     /\ (forall k, table_entries (fst r) !! k
                   = if decide (k ∈ cm)
                     then Some (category_scores_of
                                  (nc_function (icp mondrian_classifier)) cm
                                  [5 # 10; 2 # 10; 3 # 10] [0; 1; 0]%Z k)
                     else None)
     /\ table_size_of (fst r) = cal_size (fst r).
Proof.
  assert (H1 : conditional (icp mondrian_classifier) = true) by reflexivity.
  assert (H2 : length [(5 # 10)%Q; (2 # 10)%Q; (3 # 10)%Q] = length [0; 1; 0]%Z)
    by reflexivity.
  assert (H3 : forall (sx : list Q) (sy : list Z), length sx = length sy ->
             length (nc_calc_nc (nc_function (icp mondrian_classifier)) sx sy)
             = length sy)
    by (intros sx sy; apply abs_error_nc_contract).
  split; [exact H1|]. split; [exact H2|]. split; [exact H3|].
  exact (partition_conditional_replace false [5 # 10; 2 # 10; 3 # 10]
           [0; 1; 0]%Z (icp mondrian_classifier) H1 H2 H3).
Defined.
